(** * Sync engine of the skill manager: a shallow embedding and its properties

    The development follows the TypeScript sources module by module:
    [errors.ts], [retry.ts], [utils.ts], [metadata-manager.ts],
    [agent-manager.ts], [sync.ts] and [commands/list.ts].  Promises are
    modelled by their outcome (fulfilled with a value or rejected with a
    thrown value); asynchronous scheduling is modelled explicitly where a
    property depends on it (the concurrency limiter). *)

From Stdlib Require Import ZArith QArith Qpower Qminmax Lia Ascii String.
From Stdlib Require Floats.
From stdpp Require Import base list strings gmap sorting pretty.

Set Warnings "-register-all".
Local Open Scope Z_scope.

(** ** Outcomes of calls that may throw *)

(** Instances of [Error]: plain errors and [SkillManagerError] (errors.ts). *)
Inductive jsError : Type :=
  | PlainError (message : string)
  | SkillManagerError (message code : string)
      (context : list (string * string)) (originalError : option jsError).

(** Anything that a [throw] can carry: an [Error] instance, or another value
    known by its [String(v)] rendering. *)
Inductive thrown : Type :=
  | ThrowError (e : jsError)
  | ThrowValue (repr : string).

Inductive outcome (A : Type) : Type :=
  | Ok (a : A)
  | Throw (t : thrown).
Arguments Ok {A} a.
Arguments Throw {A} t.

(** Sequencing of calls that may throw: the rest runs only after success. *)
Definition bind {A B} (x : outcome A) (k : A -> outcome B) : outcome B :=
  match x with
  | Ok a => k a
  | Throw t => Throw t
  end.

(** Calls made one after the other, up to the first that throws. *)
Fixpoint mapM_outcome {A B} (f : A -> outcome B) (l : list A) : outcome (list B) :=
  match l with
  | [] => Ok []
  | x :: rest => bind (f x) (fun y => bind (mapM_outcome f rest) (fun ys => Ok (y :: ys)))
  end.

(** [try { body } catch (error) { handler }] *)
Definition try_catch {A} (body : outcome A) (handler : thrown -> outcome A) : outcome A :=
  match body with
  | Ok a => Ok a
  | Throw t => handler t
  end.

Definition error_message (e : jsError) : string :=
  match e with
  | PlainError m => m
  | SkillManagerError m _ _ _ => m
  end.

(** [error instanceof Error ? error : new Error(String(error))] *)
Definition to_error (t : thrown) : jsError :=
  match t with
  | ThrowError e => e
  | ThrowValue s => PlainError s
  end.

(** [wrapError] of errors.ts. *)
Definition wrapError (error : thrown) (message code : string)
    (context : list (string * string)) : jsError :=
  SkillManagerError message code context (Some (to_error error)).

Definition error_code (e : jsError) : option string :=
  match e with
  | PlainError _ => None
  | SkillManagerError _ c _ _ => Some c
  end.

(** Modelled from the spec: the two members of [ERROR_CODES] (constants.ts)
    that the embedded functions attach to their errors, one per class of
    the error taxonomy (filesystem errors, configuration errors).  Each
    code is represented by the name of its member; the properties below
    depend only on which member an error carries. *)
Definition FILE_SYSTEM_ERROR : string := "FILE_SYSTEM_ERROR".
Definition VALIDATION_ERROR : string := "VALIDATION_ERROR".

(** [s.includes(sub)] *)
Fixpoint includes (s sub : string) : bool :=
  String.prefix sub s ||
  match s with
  | EmptyString => false
  | String _ s' => includes s' sub
  end.

(** ** retry.ts *)

Module Retry.

(** The numbers of the engine, with the operations that [calculateBackoff]
    applies to them.  A JavaScript number is an IEEE 754 double, and what
    [Math.pow] returns is left to the approximation of the implementation;
    the functions of this module are therefore written for any numbers
    with these operations.  [Math_pow x k] is [Math.pow(x, k)] for the
    integer [k], and [two] is the number [2]. *)
Class Numbers (number : Type) : Type := {
  multiply : number -> number -> number;
  Math_pow : number -> Z -> number;
  Math_min : number -> number -> number;
  two : number
}.

(** Numbers without rounding: the rationals.  They are what the doubles
    compute as long as no result is rounded, overflows or is [NaN]. *)
#[global] Instance exact_numbers : Numbers Q :=
  {| multiply := Qmult; Math_pow := Qpower; Math_min := Qmin; two := 2%Q |}.

(** The doubles, as the kernel's binary64 numbers; [double_of_Z k] is the
    double of an integer [k] of less than 63 bits. *)
Definition double_of_Z (k : Z) : PrimFloat.float :=
  if k <? 0 then PrimFloat.opp (PrimFloat.of_uint63 (Uint63.of_Z (- k)))
  else PrimFloat.of_uint63 (Uint63.of_Z k).

(** [Math.min(x, y)]: [NaN] if one of the two is, and [-0] below [+0]. *)
Definition double_min (x y : PrimFloat.float) : PrimFloat.float :=
  if PrimFloat.is_nan x || PrimFloat.is_nan y then PrimFloat.nan
  else if PrimFloat.ltb x y then x
  else if PrimFloat.ltb y x then y
  else if PrimFloat.get_sign x then x else y.

(** The doubles of an engine whose [Math.pow] is [pow]. *)
Definition doubles (pow : PrimFloat.float -> PrimFloat.float -> PrimFloat.float)
    : Numbers PrimFloat.float :=
  {| multiply := PrimFloat.mul;
     Math_pow := fun x k => pow x (double_of_Z k);
     Math_min := double_min;
     two := double_of_Z 2 |}.

(** An engine that raises to a small non-negative integer power by
    multiplying, and knows no other exponent. *)
Definition pow_by_products (x y : PrimFloat.float) : PrimFloat.float :=
  let product := fix product (k : nat) : PrimFloat.float :=
    match k with
    | O => double_of_Z 1
    | S k' => PrimFloat.mul x (product k')
    end in
  match list_find (fun k : nat => PrimFloat.eqb y (double_of_Z (Z.of_nat k)) = true)
          (seq 0 64) with
  | Some (_, k) => product k
  | None => PrimFloat.nan
  end.

(** The rational that a finite double stands for. *)
Definition exact_value (x : PrimFloat.float) : option Q :=
  match FloatOps.Prim2SF x with
  | SpecFloat.S754_zero _ => Some 0%Q
  | SpecFloat.S754_finite negative mantissa exponent =>
      Some ((if negative then -1 else 1) * inject_Z (Z.pos mantissa) * 2 ^ exponent)%Q
  | _ => None
  end.

(** The doubles written [0.1] and [3] in a program. *)
Definition one_tenth : PrimFloat.float :=
  PrimFloat.div (double_of_Z 1) (double_of_Z 10).

Definition three : PrimFloat.float := double_of_Z 3.

(** [RetryConfig]: every field is optional.  [None] is a property that the
    object does not have; the fields that it has are numbers and a
    function, as in [Required<RetryConfig>] (a property that is present
    with the value [undefined] is not among the configurations of the
    model), and [maxRetries] is a count. *)
Record RetryConfig (number : Type) : Type := {
  maxRetries : option Z;
  initialBackoff : option number;
  maxBackoff : option number;
  backoffMultiplier : option number;
  isRetryable : option (jsError -> bool)
}.
Arguments maxRetries {number} _.
Arguments initialBackoff {number} _.
Arguments maxBackoff {number} _.
Arguments backoffMultiplier {number} _.
Arguments isRetryable {number} _.

(** [Required<RetryConfig>] *)
Record FinalConfig (number : Type) : Type := {
  f_maxRetries : Z;
  f_initialBackoff : number;
  f_maxBackoff : number;
  f_backoffMultiplier : number;
  f_isRetryable : jsError -> bool
}.
Arguments f_maxRetries {number} _.
Arguments f_initialBackoff {number} _.
Arguments f_maxBackoff {number} _.
Arguments f_backoffMultiplier {number} _.
Arguments f_isRetryable {number} _.

Definition empty_config {number : Type} : RetryConfig number :=
  {| maxRetries := None; initialBackoff := None; maxBackoff := None;
     backoffMultiplier := None; isRetryable := None |}.

(** The default classifier of [DEFAULT_RETRY_CONFIG]. *)
Definition default_isRetryable (error : jsError) : bool :=
  let message := error_message error in
  includes message "ECONNRESET" ||
  includes message "ETIMEDOUT" ||
  includes message "EHOSTUNREACH" ||
  includes message "ECONNREFUSED" ||
  includes message "socket hang up" ||
  includes message "429" ||
  includes message "503" ||
  includes message "502" ||
  includes message "504".

(** [calculateBackoff] *)
Definition calculateBackoff {number : Type} {N : Numbers number}
    (attempt : Z) (config : FinalConfig number) : number :=
  let exponentialDelay :=
    multiply (f_initialBackoff config)
      (Math_pow (f_backoffMultiplier config) (attempt - 1)) in
  Math_min exponentialDelay (f_maxBackoff config).

(** The power of the backoff formula of the specification, written as an
    iterated product: [multiplier] multiplied [k] times. *)
Fixpoint iterated_power (multiplier : Q) (k : nat) : Q :=
  match k with
  | O => 1%Q
  | S k' => (multiplier * iterated_power multiplier k')%Q
  end.

Section WithRetry.

Context {number : Type} {N : Numbers number}.

(** [HTTP_CONFIG] of constants.ts, which is not among the sources. *)
Variables (MAX_RETRIES : Z) (INITIAL_BACKOFF MAX_BACKOFF : number).

Definition DEFAULT_RETRY_CONFIG : FinalConfig number :=
  {| f_maxRetries := MAX_RETRIES;
     f_initialBackoff := INITIAL_BACKOFF;
     f_maxBackoff := MAX_BACKOFF;
     f_backoffMultiplier := two;
     f_isRetryable := default_isRetryable |}.

(** [{ ...DEFAULT_RETRY_CONFIG, ...config }] *)
Definition finalConfig (config : RetryConfig number) : FinalConfig number :=
  {| f_maxRetries := default (f_maxRetries DEFAULT_RETRY_CONFIG) (maxRetries config);
     f_initialBackoff :=
       default (f_initialBackoff DEFAULT_RETRY_CONFIG) (initialBackoff config);
     f_maxBackoff := default (f_maxBackoff DEFAULT_RETRY_CONFIG) (maxBackoff config);
     f_backoffMultiplier :=
       default (f_backoffMultiplier DEFAULT_RETRY_CONFIG) (backoffMultiplier config);
     f_isRetryable :=
       default (f_isRetryable DEFAULT_RETRY_CONFIG) (isRetryable config) |}.

(** The operation is a closure over the outside world: each call sees the
    world left by the previous one. *)
Context {World T : Type}.
Variable operation : World -> outcome T * World.

(** What a run of [withRetry] did: the world it leaves, how often the
    operation was called, what each failed call threw, and the delays
    passed to [sleep], in order. *)
Record effects : Type := {
  world : World;
  calls : nat;
  failures : list thrown;
  sleeps : list number
}.

Definition start (w : World) : effects :=
  {| world := w; calls := 0%nat; failures := []; sleeps := [] |}.

(** The body of [for (attempt = 1; attempt <= maxRetries; attempt++)],
    iterated over the attempt numbers still to come. *)
Fixpoint retry_loop (operationName : string) (cfg : FinalConfig number)
    (attempts : list Z) (lastError : option jsError) (st : effects)
    : outcome T * effects :=
  match attempts with
  | [] =>
      (* throw lastError || new Error(...) *)
      match lastError with
      | Some e => (Throw (ThrowError e), st)
      | None =>
          (Throw (ThrowError (PlainError
             (operationName +:+ " failed after " +:+ pretty (f_maxRetries cfg)
                +:+ " retries"))), st)
      end
  | attempt :: rest =>
      match operation (world st) with
      | (Ok v, w) =>
          (Ok v, {| world := w; calls := S (calls st);
                    failures := failures st; sleeps := sleeps st |})
      | (Throw error, w) =>
          let lastError := to_error error in
          let st' := {| world := w; calls := S (calls st);
                        failures := failures st ++ [error];
                        sleeps := sleeps st |} in
          if (attempt >=? f_maxRetries cfg) || negb (f_isRetryable cfg lastError)
          then (Throw error, st')
          else
            let backoffMs := calculateBackoff attempt cfg in
            retry_loop operationName cfg rest (Some lastError)
              {| world := world st'; calls := calls st';
                 failures := failures st';
                 sleeps := sleeps st' ++ [backoffMs] |}
      end
  end.

(** The attempt numbers [1, 2, ..., maxRetries] the loop runs through. *)
Definition attempt_numbers (maxRetries : Z) : list Z :=
  Z.of_nat <$> seq 1 (Z.to_nat maxRetries).

Definition withRetry (operationName : string) (config : RetryConfig number) (w : World)
    : outcome T * effects :=
  let cfg := finalConfig config in
  retry_loop operationName cfg (attempt_numbers (f_maxRetries cfg)) None (start w).

End WithRetry.

(** A failing operation: every call throws the same error. *)
Definition always_throws (message : string) (w : unit) : outcome unit * unit :=
  (Throw (ThrowError (PlainError message)), w).

(** *** Operations that fail a few times, and the error wrapper *)

(** Calling the operation again and again from a world: the calls throw the
    listed values, each classified as retryable, and the next call returns. *)
Inductive fails_then_returns {World T : Type} (operation : World -> outcome T * World)
    (retryable : jsError -> bool) : World -> list thrown -> T -> World -> Prop :=
  | returns_now w v w' :
      operation w = (Ok v, w') ->
      fails_then_returns operation retryable w [] v w'
  | fails_first w e w1 es v w' :
      operation w = (Throw e, w1) ->
      retryable (to_error e) = true ->
      fails_then_returns operation retryable w1 es v w' ->
      fails_then_returns operation retryable w (e :: es) v w'.

(** [wrapWithErrorHandling(fn, errorMessage, errorCode)], the returned
    function applied to [args]. *)
Definition wrapWithErrorHandling {World Args T : Type}
    (fn : Args -> World -> outcome T * World)
    (errorMessage : string) (errorCode : option string)
    (args : Args) (w : World) : outcome T * World :=
  match fn args w with
  | (Ok v, w') => (Ok v, w')
  | (Throw error, w') =>
      match error with
      | ThrowError (SkillManagerError _ _ _ _) => (Throw error, w')
      | _ =>
          (Throw (ThrowError (SkillManagerError errorMessage
                    (default FILE_SYSTEM_ERROR errorCode) []
                    (match error with
                     | ThrowError e => Some e
                     | ThrowValue _ => None
                     end))), w')
      end
  end.

(** An operation that fails on its first [n] calls with a timeout and
    returns the number of the call after that; the world counts the calls. *)
Definition flaky (n : nat) (w : nat) : outcome nat * nat :=
  if (w <? n)%nat then (Throw (ThrowError (PlainError "connect ETIMEDOUT")), S w)
  else (Ok (S w), S w).

End Retry.

(** ** Node's [path] module (POSIX flavour), as far as the sources use it *)

Module Path.

Definition sep : string := "/".

Definition is_slash (c : ascii) : bool := Ascii.eqb c "/".

(** [s.split("/")] *)
Fixpoint split (s : string) : list string :=
  match s with
  | EmptyString => [EmptyString]
  | String c s' =>
      if is_slash c then EmptyString :: split s'
      else match split s' with
           | seg :: segs => String c seg :: segs
           | [] => [String c EmptyString]
           end
  end.

(** [segments.join("/")] *)
Fixpoint join_segments (segments : list string) : string :=
  match segments with
  | [] => ""
  | [seg] => seg
  | seg :: rest => seg +:+ "/" +:+ join_segments rest
  end.

Definition starts_with_slash (s : string) : bool :=
  match s with
  | String c _ => is_slash c
  | EmptyString => false
  end.

Fixpoint ends_with_slash (s : string) : bool :=
  match s with
  | EmptyString => false
  | String c EmptyString => is_slash c
  | String _ s' => ends_with_slash s'
  end.

(** The segment walk of [normalizeString]: [res] is the stack of kept
    segments, the last one first. *)
Fixpoint normalize_segments (allowAboveRoot : bool) (res : list string)
    (segments : list string) : list string :=
  match segments with
  | [] => reverse res
  | seg :: rest =>
      if String.eqb seg "" || String.eqb seg "." then
        normalize_segments allowAboveRoot res rest
      else if String.eqb seg ".." then
        match res with
        | top :: res' =>
            if String.eqb top ".."
            then normalize_segments allowAboveRoot
                   (if allowAboveRoot then ".." :: res else res) rest
            else normalize_segments allowAboveRoot res' rest
        | [] =>
            normalize_segments allowAboveRoot
              (if allowAboveRoot then [".."] else []) rest
        end
      else normalize_segments allowAboveRoot (seg :: res) rest
  end.

Definition normalizeString (path : string) (allowAboveRoot : bool) : string :=
  join_segments (normalize_segments allowAboveRoot [] (split path)).

(** [path.normalize] *)
Definition normalize (path : string) : string :=
  if String.eqb path "" then "."
  else
    let isAbsolute := starts_with_slash path in
    let trailingSeparator := ends_with_slash path in
    let p := normalizeString path (negb isAbsolute) in
    if String.eqb p "" then
      if isAbsolute then "/" else if trailingSeparator then "./" else "."
    else
      let p' := if trailingSeparator then p +:+ "/" else p in
      if isAbsolute then "/" +:+ p' else p'.

(** [path.join(a, b)] *)
Definition join (a b : string) : string :=
  if String.eqb a "" then (if String.eqb b "" then "." else normalize b)
  else if String.eqb b "" then normalize a
  else normalize (a +:+ "/" +:+ b).

(** [path.resolve(p)] in a process whose working directory is [cwd]. *)
Definition resolve (cwd : string) (p : string) : string :=
  let full :=
    if String.eqb p "" then cwd +:+ "/"
    else if starts_with_slash p then p +:+ "/"
    else cwd +:+ "/" +:+ p +:+ "/" in
  "/" +:+ normalizeString full false.

(** The segments of a resolved path: [[]] for the root. *)
Definition segments_of (resolved : string) : list string :=
  normalize_segments false [] (split resolved).

Fixpoint drop_common (from to : list string) : list string * list string :=
  match from, to with
  | f :: from', t :: to' =>
      if String.eqb f t then drop_common from' to' else (from, to)
  | _, _ => (from, to)
  end.

(** [path.relative(from, to)] *)
Definition relative (cwd : string) (from to : string) : string :=
  if String.eqb from to then ""
  else
    let from' := resolve cwd from in
    let to' := resolve cwd to in
    if String.eqb from' to' then ""
    else
      let '(up, down) := drop_common (segments_of from') (segments_of to') in
      join_segments (((fun _ => "..") <$> up) ++ down).

Fixpoint drop_while {A} (f : A -> bool) (l : list A) : list A :=
  match l with
  | [] => []
  | x :: l' => if f x then drop_while f l' else l
  end.

(** [path.dirname] *)
Definition dirname (path : string) : string :=
  if String.eqb path "" then "."
  else
    let hasRoot := starts_with_slash path in
    let backwards := reverse (String.list_ascii_of_string path) in
    let no_trailing := drop_while is_slash backwards in
    let no_base := drop_while (fun c => negb (is_slash c)) no_trailing in
    match no_base with
    | _slash :: (_ :: _) as before =>
        if hasRoot && (length before =? 1)%nat then "//"
        else String.string_of_list_ascii (reverse before)
    | _ => if hasRoot then "/" else "."
    end.

Fixpoint has_slash (s : string) : bool :=
  match s with
  | EmptyString => false
  | String c s' => is_slash c || has_slash s'
  end.

(** A segment as a resolved path has them: a file name. *)
Definition proper_segment (s : string) : Prop :=
  has_slash s = false /\ s <> "" /\ s <> "." /\ s <> "..".

(** The absolute path with the given segments. *)
Definition absolute (segments : list string) : string :=
  "/" +:+ join_segments segments.

(** What the string of every path below a directory starts with. *)
Definition below (base : list string) : string :=
  match base with
  | [] => "/"
  | _ => absolute base +:+ "/"
  end.

(** A segment that [normalizeString] keeps: no separator in it, and neither
    empty nor [.]. *)
Definition kept_segment (s : string) : Prop :=
  has_slash s = false /\ s <> "" /\ s <> ".".

Definition with_separator (segments : list string) : string :=
  match segments with
  | [] => ""
  | _ => join_segments segments +:+ "/"
  end.

(** The segments that [path.normalize] keeps of a path. *)
Definition kept_segments (dir : string) : list string :=
  normalize_segments (negb (starts_with_slash dir)) [] (split dir).

(** What [path.join(dir, name)] puts before a file name [name]. *)
Definition dir_prefix (dir : string) : string :=
  (if starts_with_slash dir then "/" else "") +:+ with_separator (kept_segments dir).

End Path.

(** ** utils.ts: path validation *)

Module Utils.

(** [validatePathWithinBase], in a process whose working directory is
    [cwd]. *)
Definition validatePathWithinBase (cwd basePath targetPath : string)
    (errorMessage : option string) : outcome unit :=
  let resolvedBase := Path.resolve cwd basePath in
  let resolvedTarget := Path.resolve cwd targetPath in
  if negb (String.prefix (resolvedBase +:+ Path.sep) resolvedTarget)
     && negb (String.eqb resolvedTarget resolvedBase)
  then
    Throw (ThrowError (SkillManagerError
      (match errorMessage with
       | Some m => if String.eqb m "" then "Invalid path: resolves outside allowed directory" else m
       | None => "Invalid path: resolves outside allowed directory"
       end)
      VALIDATION_ERROR
      [("basePath", resolvedBase); ("targetPath", resolvedTarget)] None))
  else Ok tt.

(** [target] lies strictly inside [base] under a separator boundary: it is
    [base], a separator, and something more. *)
Definition strictly_inside (base target : string) : Prop :=
  exists rest, rest <> "" /\ target = base +:+ Path.sep +:+ rest.

(** [withErrorHandling(operation, errorMessage)] *)
Definition withErrorHandling {World T : Type} (operation : World -> outcome T * World)
    (errorMessage : string) (w : World) : outcome T * World :=
  match operation w with
  | (Ok v, w') => (Ok v, w')
  | (Throw error, w') =>
      match error with
      | ThrowError (SkillManagerError _ _ _ _) => (Throw error, w')
      | _ =>
          (Throw (ThrowError (SkillManagerError errorMessage FILE_SYSTEM_ERROR []
                    (match error with
                     | ThrowError e => Some e
                     | ThrowValue _ => None
                     end))), w')
      end
  end.

End Utils.

(** ** utils.ts: the concurrency limiter

    The body of [pLimit] and the callbacks it starts share one thread and
    one array of results.  A callback calls [fn(item)] and waits for it; the
    call finishes at a later turn of the event loop, and the calls of
    different items may finish in any order.  A run is therefore driven by
    a schedule, the list of item indices in the order in which their calls
    finish; between two such events the body of [pLimit] runs until it
    reaches an [await] whose promise has not settled. *)

Module Limiter.

(** State of the promise created for one item. *)
Inductive promise_state : Type :=
  | Pending
  | Fulfilled
  | Rejected (t : thrown).

(** What [await Promise.race(...)] or [await Promise.all(...)] yields once it
    settles. *)
Inductive settlement : Type :=
  | Resolves
  | Rejects (t : thrown).

(** The store shared by [pLimit] and the callbacks it starts.  A promise is
    named by the index of its item. [completed] lists the promises in the
    order in which they settled. *)
Record store (R : Type) : Type := {
  results : list R;
  executing : list nat;
  promises : list promise_state;
  completed : list nat
}.
Arguments results {R} _.
Arguments executing {R} _.
Arguments promises {R} _.
Arguments completed {R} _.

(** Where the body of [pLimit] stands. *)
Inductive control (T R : Type) : Type :=
  | AwaitRace (promise : nat) (next : nat) (rest : list T)
  | AwaitAll
  | Returned (seen : list R)
  | Failed (t : thrown).
Arguments AwaitRace {T R} promise next rest.
Arguments AwaitAll {T R}.
Arguments Returned {T R} seen.
Arguments Failed {T R} t.

Definition state_of (ps : list promise_state) (k : nat) : promise_state :=
  default Pending (ps !! k).

(** [Promise.race(executing)]: the first promise of the array that is
    settled decides; with none settled the race stays pending. *)
Fixpoint race (ps : list promise_state) (executing : list nat) : option settlement :=
  match executing with
  | [] => None
  | k :: rest =>
      match state_of ps k with
      | Pending => race ps rest
      | Fulfilled => Some Resolves
      | Rejected t => Some (Rejects t)
      end
  end.

(** [Promise.all(executing)]: rejected as soon as a member is rejected,
    fulfilled once every member is. *)
Fixpoint all (ps : list promise_state) (executing : list nat) : option settlement :=
  match executing with
  | [] => Some Resolves
  | k :: rest =>
      match state_of ps k with
      | Rejected t => Some (Rejects t)
      | Fulfilled => all ps rest
      | Pending =>
          match all ps rest with
          | Some (Rejects t) => Some (Rejects t)
          | _ => None
          end
      end
  end.

(** [executing.findIndex((p) => p === promise)], [-1] when absent. *)
Fixpoint findIndex (promise : nat) (executing : list nat) : Z :=
  match executing with
  | [] => -1
  | p :: rest =>
      if Nat.eqb p promise then 0
      else let i := findIndex promise rest in if i <? 0 then -1 else i + 1
  end.

(** [executing.splice(start, 1)]: a negative [start] counts from the end. *)
Definition splice1 (start : Z) (executing : list nat) : list nat :=
  let len := Z.of_nat (length executing) in
  let from := if start <? 0 then Z.max (len + start) 0 else Z.min start len in
  delete (Z.to_nat from) executing.

Section PLimit.

Context {T R : Type}.

(** The per-item function, by what its promise settles to. *)
Variable fn : T -> outcome R.
Variable items : list T.
Variable concurrency : Z.

Definition initial : store R :=
  {| results := []; executing := []; promises := []; completed := [] |}.

(** [await Promise.all(executing); return results;] *)
Definition await_all (st : store R) : control T R * store R :=
  match all (promises st) (executing st) with
  | None => (AwaitAll, st)
  | Some Resolves => (Returned (results st), st)
  | Some (Rejects t) => (Failed t, st)
  end.

(** What follows a settled race: the splice, then the next iteration. *)
Definition after_race (promise : nat) (st : store R) : store R :=
  {| results := results st;
     executing := splice1 (findIndex promise (executing st)) (executing st);
     promises := promises st;
     completed := completed st |}.

(** The [for] loop from the item of index [next] on, run until the body of
    [pLimit] has to wait or is done. *)
Fixpoint run_loop (next : nat) (rest : list T) (st : store R) : control T R * store R :=
  match rest with
  | [] => await_all st
  | _ :: rest' =>
      let promise := next in
      let st1 := {| results := results st;
                    executing := executing st ++ [promise];
                    promises := promises st ++ [Pending];
                    completed := completed st |} in
      if Z.of_nat (length (executing st1)) >=? concurrency then
        match race (promises st1) (executing st1) with
        | None => (AwaitRace promise (S next) rest', st1)
        | Some Resolves => run_loop (S next) rest' (after_race promise st1)
        | Some (Rejects t) => (Failed t, st1)
        end
      else run_loop (S next) rest' st1
  end.

(** The call of [fn] for item [k] finishes: on success the callback pushes
    the result and its promise is fulfilled, otherwise the promise is
    rejected.  Nothing happens for a promise that does not exist yet or is
    already settled. *)
Definition settle (k : nat) (st : store R) : store R :=
  match promises st !! k, items !! k with
  | Some Pending, Some item =>
      match fn item with
      | Ok result =>
          {| results := results st ++ [result];
             executing := executing st;
             promises := <[k := Fulfilled]> (promises st);
             completed := completed st ++ [k] |}
      | Throw t =>
          {| results := results st;
             executing := executing st;
             promises := <[k := Rejected t]> (promises st);
             completed := completed st ++ [k] |}
      end
  | _, _ => st
  end.

(** The body of [pLimit] goes on if what it waits for has settled. *)
Definition resume (c : control T R) (st : store R) : control T R * store R :=
  match c with
  | AwaitRace promise next rest =>
      match race (promises st) (executing st) with
      | None => (c, st)
      | Some Resolves => run_loop next rest (after_race promise st)
      | Some (Rejects t) => (Failed t, st)
      end
  | AwaitAll => await_all st
  | _ => (c, st)
  end.

(** The calls finish in the order given by the schedule; after each of them
    the body of [pLimit] runs as far as it can.  The array seen by the
    caller is the one held by [Returned]; [results] of the store is the
    shared array, which callbacks that finish later still push to. *)
Fixpoint run_events (schedule : list nat) (cs : control T R * store R)
    : control T R * store R :=
  match schedule with
  | [] => cs
  | k :: later => run_events later (resume cs.1 (settle k cs.2))
  end.

Definition pLimit (schedule : list nat) : control T R * store R :=
  run_events schedule (run_loop 0 items initial).

(** What the callback of item [k] pushes, if its call succeeds. *)
Definition pushed (k : nat) : option R :=
  match items !! k with
  | Some item => match fn item with Ok result => Some result | Throw _ => None end
  | None => None
  end.

(** The results pushed by callbacks that finish in the given order. *)
Definition results_in_order (order : list nat) : list R := omap pushed order.

(** *** Invariants of a run *)

(** The shared array holds the results in the order of completion, and a
    returned array is what the shared array held at that moment. *)
Definition in_completion_order (cs : control T R * store R) : Prop :=
  results cs.2 = results_in_order (completed cs.2) /\
  forall seen, cs.1 = Returned seen -> seen `prefix_of` results cs.2.

(** The promises named in [executing] exist, and a waiting body waits for
    something that has not settled. *)
Definition waits_for_pending (cs : control T R * store R) : Prop :=
  Forall (fun k => (k < length (promises cs.2))%nat) (executing cs.2) /\
  match cs.1 with
  | AwaitRace _ next _ =>
      next = length (promises cs.2) /\ executing cs.2 <> [] /\
      race (promises cs.2) (executing cs.2) = None
  | AwaitAll => all (promises cs.2) (executing cs.2) = None
  | _ => True
  end.

(** No promise is rejected and the body of [pLimit] has not failed. *)
Definition never_rejected (cs : control T R * store R) : Prop :=
  Forall (fun p => p = Pending \/ p = Fulfilled) (promises cs.2) /\
  forall t, cs.1 <> Failed t.

(** With a function that never rejects, the [i]-th result of the shared
    array belongs to the call that was the [i]-th to finish. *)
Definition aligned (st : store R) : Prop :=
  Forall2 (fun result k => exists item, items !! k = Some item /\ fn item = Ok result)
    (results st) (completed st).

(** The log [completed] holds exactly the promises that have settled, each
    once. *)
Definition logged (st : store R) : Prop :=
  NoDup (completed st) /\
  forall k, k ∈ completed st <-> exists p, promises st !! k = Some p /\ p <> Pending.

(** A batch below the bound: every promise stays in [executing], and the
    body of [pLimit] either waits for all of them or has returned the
    complete array. *)
Definition below_bound (cs : control T R * store R) : Prop :=
  executing cs.2 = seq 0 (length items) /\
  length (promises cs.2) = length items /\
  Forall (fun p => p = Pending \/ p = Fulfilled) (promises cs.2) /\
  (cs.1 = AwaitAll \/
   cs.1 = Returned (results cs.2) /\ Forall (fun p => p = Fulfilled) (promises cs.2)).

(** What holds from the first finished call on, when that call is one of
    the first [concurrency - 1]: the body of [pLimit] waits for these only,
    and the calls of all items have been started. *)
Definition leaking (cs : control T R * store R) : Prop :=
  executing cs.2 = seq 0 (Z.to_nat concurrency - 1) /\
  length (promises cs.2) = length items /\
  Forall (fun p => p = Pending \/ p = Fulfilled) (promises cs.2) /\
  (cs.1 = AwaitAll \/ exists seen, cs.1 = Returned seen).

End PLimit.

End Limiter.

(** ** sync.ts *)

Module Sync.

Record SkillConfig : Type := {
  type : string;
  remote : string;
  ref : option string;
  filename : option string;
  agents : option (list string)
}.

(** Each entry of [skills] is a one-key record [{ name: config }]. *)
Record Config : Type := {
  skillsPath : string;
  skills : list (string * SkillConfig)
}.

Record FetchResult : Type := {
  skillName : string;
  success : bool;
  error : option string;
  skipped : option bool;
  reason : option string
}.

Record SkipCheckResult : Type := {
  shouldSkip : bool;
  skip_reason : option string;
  needsInteraction : option bool
}.

(** The collaborators of [syncSingleSkill], each by the outcome of a call
    with given arguments: [sanitizeSkillName], [validateSkillConfig],
    [shouldSkipSync], [promptForOverwrite], the [fetch] of the fetcher
    registered for a type, and [createSymlinksForSkill]. *)
Record collaborators : Type := {
  sanitizeSkillName : string -> outcome string;
  validateSkillConfig : string -> SkillConfig -> outcome unit;
  shouldSkipSync : string -> SkillConfig -> string -> outcome SkipCheckResult;
  promptForOverwrite : string -> outcome bool;
  fetch : string -> string -> SkillConfig -> string -> outcome unit;
  createSymlinksForSkill : string -> string -> option (list string) -> outcome unit
}.

Definition MAX_CONCURRENT_SYNCS : Z := 5.

(** The types for which [FetcherFactory] holds a fetcher. *)
Definition supportedTypes : list string := ["GIT_FILE"; "GIT_FOLDER"; "GIT_REPO"; "GIST"].

Fixpoint join_with (separator : string) (l : list string) : string :=
  match l with
  | [] => ""
  | [x] => x
  | x :: rest => x +:+ separator +:+ join_with separator rest
  end.

(** [JSON.stringify] of an array of strings none of which needs escaping
    (the context of an error holds strings and such arrays; a value that is
    not a string is shown by [getDetailedMessage] in this form). *)
Definition double_quote : string := String (Ascii.ascii_of_nat 34) EmptyString.

Definition stringify_strings (l : list string) : string :=
  "[" +:+ join_with "," ((fun s => double_quote +:+ s +:+ double_quote) <$> l) +:+ "]".

(** [FetcherFactory.getFetcher(type)]: the fetcher is named by its type. *)
Definition getFetcher (type : string) : outcome string :=
  if bool_decide (type ∈ supportedTypes) then Ok type
  else Throw (ThrowError (SkillManagerError
         ("Unsupported skill type: " +:+ type) VALIDATION_ERROR
         [("type", type); ("supportedTypes", stringify_strings supportedTypes)] None)).

(** [SkillManagerError.getDetailedMessage] *)
Definition getDetailedMessage (message : string) (context : list (string * string))
    : string :=
  match context with
  | [] => message
  | _ => message +:+ " (" +:+
         join_with ", " ((fun kv => kv.1 +:+ ": " +:+ kv.2) <$> context) +:+ ")"
  end.

(** The message reported for a caught value. *)
Definition errorMessage (caught : thrown) : string :=
  match caught with
  | ThrowError (SkillManagerError m _ ctx _) => getDetailedMessage m ctx
  | ThrowError (PlainError m) => m
  | ThrowValue s => s
  end.

Definition failed (name : string) (caught : thrown) : FetchResult :=
  {| skillName := name; success := false; error := Some (errorMessage caught);
     skipped := None; reason := None |}.

Definition succeeded (name : string) : FetchResult :=
  {| skillName := name; success := true; error := None;
     skipped := None; reason := None |}.

Definition was_skipped (name : string) (why : option string) : FetchResult :=
  {| skillName := name; success := true; error := None;
     skipped := Some true; reason := why |}.

Section SyncSingleSkill.

Variable env : collaborators.

(** The part of [syncSingleSkill] after the skip check: fetch, then the
    symlinks, whose failure is only logged. *)
Definition fetch_and_link (name : string) (skillConfig : SkillConfig) (config : Config)
    : outcome FetchResult :=
  bind (getFetcher (type skillConfig)) (fun fetcher =>
  bind (fetch env fetcher name skillConfig (skillsPath config)) (fun _ =>
    let skillSourcePath := Path.join (skillsPath config) name in
    let _ := createSymlinksForSkill env name skillSourcePath (agents skillConfig) in
    Ok (succeeded name))).

(** The body of the second [try] block of [syncSingleSkill]. *)
Definition sync_body (name : string) (skillConfig : SkillConfig) (config : Config)
    (dryRun : bool) (forceSkills : option (list string)) : outcome FetchResult :=
  bind (validateSkillConfig env name skillConfig) (fun _ =>
    if dryRun then Ok (succeeded name)
    else
      let shouldForce :=
        match forceSkills with
        | Some l => (0 <? length l)%nat && bool_decide (name ∈ l)
        | None => false
        end in
      if shouldForce then fetch_and_link name skillConfig config
      else
        bind (shouldSkipSync env name skillConfig (skillsPath config)) (fun skipCheck =>
          if shouldSkip skipCheck then Ok (was_skipped name (skip_reason skipCheck))
          else if default false (needsInteraction skipCheck) then
            bind (promptForOverwrite env name) (fun shouldOverwrite =>
              if shouldOverwrite then fetch_and_link name skillConfig config
              else Ok (was_skipped name (skip_reason skipCheck)))
          else fetch_and_link name skillConfig config)).

(** [syncSingleSkill]: both [try] blocks turn what is thrown into a failed
    result. *)
Definition syncSingleSkill (skillEntry : string * SkillConfig) (config : Config)
    (dryRun : bool) (forceSkills : option (list string)) : outcome FetchResult :=
  let rawSkillName := skillEntry.1 in
  let skillConfig := skillEntry.2 in
  match sanitizeSkillName env rawSkillName with
  | Throw caught =>
      Ok {| skillName := rawSkillName; success := false;
            error := Some (match caught with
                           | ThrowError e => error_message e
                           | ThrowValue s => s
                           end);
            skipped := None; reason := None |}
  | Ok name =>
      match sync_body name skillConfig config dryRun forceSkills with
      | Ok result => Ok result
      | Throw caught => Ok (failed name caught)
      end
  end.

(** [syncSkills]: the skills go through [pLimit]; the schedule is the order
    in which the single syncs finish. *)
Definition syncSkills (config : Config) (dryRun : bool)
    (forceSkills : option (list string)) (schedule : list nat)
    : Limiter.control (string * SkillConfig) FetchResult * Limiter.store FetchResult :=
  Limiter.pLimit
    (fun skillEntry => syncSingleSkill skillEntry config dryRun forceSkills)
    (skills config) MAX_CONCURRENT_SYNCS schedule.

End SyncSingleSkill.

(** *** A small world to run [syncSkills] in

    Every collaborator succeeds, except that the fetch of the skills listed
    in [failing] throws. *)
Definition fetch_error (name : string) : thrown :=
  ThrowError (SkillManagerError ("Failed to fetch Git repository for skill " +:+ name)
                "GIT_ERROR" [("skillName", name)] None).

Definition world_where_fetch_fails (failing : list string) : collaborators :=
  {| sanitizeSkillName := fun raw => Ok raw;
     validateSkillConfig := fun _ _ => Ok tt;
     shouldSkipSync := fun _ _ _ =>
       Ok {| shouldSkip := false; skip_reason := None; needsInteraction := None |};
     promptForOverwrite := fun _ => Ok true;
     fetch := fun _ name _ _ =>
       if bool_decide (name ∈ failing) then Throw (fetch_error name) else Ok tt;
     createSymlinksForSkill := fun _ _ _ => Ok tt |}.

Definition repo_skill (name : string) : string * SkillConfig :=
  (name, {| type := "GIT_REPO"; remote := "https://github.com/o/" +:+ name;
            ref := None; filename := None; agents := None |}).

Definition batch (names : list string) : Config :=
  {| skillsPath := "/tmp/s"; skills := repo_skill <$> names |}.

(** *** The summary, and the sequential [syncSkills] *)

(** [chalk]: how text is styled on the terminal. *)
Record styles : Type := {
  bold : string -> string;
  green : string -> string;
  yellow : string -> string;
  red : string -> string
}.

Definition newline : string := String (Ascii.ascii_of_nat 10) EmptyString.

(** [r.skipped] as a condition. *)
Definition is_skipped (r : FetchResult) : bool := default false (skipped r).

(** The three counts of [printSummary]. *)
Definition count_successful (results : list FetchResult) : nat :=
  length (filter (fun r => success r && negb (is_skipped r)) results).

Definition count_skipped (results : list FetchResult) : nat :=
  length (filter (fun r => is_skipped r) results).

Definition count_failed (results : list FetchResult) : nat :=
  length (filter (fun r => negb (success r)) results).

(** [printSummary]: the lines written with [console.log]. *)
Definition printSummary (chalk : styles) (results : list FetchResult) : list string :=
  let successful := count_successful results in
  let skipped := count_skipped results in
  let failed := count_failed results in
  [newline +:+ bold chalk "Summary:";
   green chalk "✓" +:+ " Successful: " +:+ pretty successful]
  ++ (if (0 <? skipped)%nat
      then [yellow chalk "⊘" +:+ " Skipped: " +:+ pretty skipped] else [])
  ++ (if (0 <? failed)%nat
      then [red chalk "✗" +:+ " Failed: " +:+ pretty failed] else [])
  ++ [""].

(** The earlier, sequential [syncSkills] (no skip check, no links): the
    [for] loop over the entries still to come; [results] is the array
    pushed to so far. *)
Fixpoint sync_each (env : collaborators) (config : Config) (dryRun : bool)
    (entries : list (string * SkillConfig)) (results : list FetchResult)
    : list FetchResult :=
  match entries with
  | [] => results
  | skillEntry :: rest =>
      let rawSkillName := skillEntry.1 in
      let skillConfig := skillEntry.2 in
      match sanitizeSkillName env rawSkillName with
      | Throw caught =>
          sync_each env config dryRun rest
            (results ++
               [{| skillName := rawSkillName; success := false;
                   error := Some (match caught with
                                  | ThrowError e => error_message e
                                  | ThrowValue s => s
                                  end);
                   skipped := None; reason := None |}])
      | Ok name =>
          match
            bind (validateSkillConfig env name skillConfig) (fun _ =>
              if dryRun then Ok tt
              else
                bind (getFetcher (type skillConfig)) (fun fetcher =>
                  fetch env fetcher name skillConfig (skillsPath config)))
          with
          | Ok _ => sync_each env config dryRun rest (results ++ [succeeded name])
          | Throw caught =>
              sync_each env config dryRun rest (results ++ [failed name caught])
          end
      end
  end.

Definition syncSkills_sequential (env : collaborators) (config : Config) (dryRun : bool)
    : list FetchResult :=
  sync_each env config dryRun (skills config) [].

(** The name under which the result of an entry is reported: the sanitized
    name, or the raw one when it is refused. *)
Definition reported_name (env : collaborators) (skillEntry : string * SkillConfig)
    : string :=
  match sanitizeSkillName env skillEntry.1 with
  | Ok name => name
  | Throw _ => skillEntry.1
  end.

(** A skip check that never asks to skip or to prompt. *)
Definition never_skips (env : collaborators) : Prop :=
  forall name skillConfig skillsPath,
    exists why,
      shouldSkipSync env name skillConfig skillsPath
      = Ok {| shouldSkip := false; skip_reason := why; needsInteraction := None |}.

(** Two worlds in which names are sanitized and configurations validated
    alike. *)
Definition same_validation (env env' : collaborators) : Prop :=
  (forall raw, sanitizeSkillName env raw = sanitizeSkillName env' raw) /\
  (forall name skillConfig,
     validateSkillConfig env name skillConfig = validateSkillConfig env' name skillConfig).

(** Two worlds that differ at most in the skip check and in the answer to
    the prompt. *)
Definition same_but_skip_check (env env' : collaborators) : Prop :=
  same_validation env env' /\
  (forall fetcher name skillConfig skillsPath,
     fetch env fetcher name skillConfig skillsPath
     = fetch env' fetcher name skillConfig skillsPath).

End Sync.

(** ** metadata-manager.ts: the metadata record *)

Module Metadata.

(** Values produced by [JSON.parse]. An object keeps its members in source
    order; of two members with the same key the later one counts. *)
Inductive json : Type :=
  | JNull
  | JBool (b : bool)
  | JNumber (q : Q)
  | JString (s : string)
  | JArray (elements : list json)
  | JObject (members : list (string * json)).

Fixpoint lookup_member (key : string) (members : list (string * json)) : option json :=
  match members with
  | [] => None
  | (k, v) :: rest =>
      match lookup_member key rest with
      | Some later => Some later
      | None => if String.eqb k key then Some v else None
      end
  end.

(** [value.key] for one of the keys of a metadata record: [undefined]
    ([None]) unless the value is an object with that member; reading a
    property of [null] throws a [TypeError]. *)
Definition get_property (value : json) (key : string) : outcome (option json) :=
  match value with
  | JNull =>
      Throw (ThrowError (PlainError
        ("Cannot read properties of null (reading " +:+ key +:+ ")")))
  | JObject members => Ok (lookup_member key members)
  | _ => Ok None
  end.

(** [!value] is false. *)
Definition truthy (value : option json) : bool :=
  match value with
  | None => false
  | Some JNull => false
  | Some (JBool b) => b
  | Some (JNumber q) => negb (Qeq_bool q 0)
  | Some (JString s) => negb (String.eqb s "")
  | Some (JArray _) => true
  | Some (JObject _) => true
  end.

(** The field of a stored record, as the data model has it: present only in
    an object that has the member. *)
Definition field (record : json) (key : string) : option json :=
  match record with
  | JObject members => lookup_member key members
  | _ => None
  end.

Definition required_fields : list string := ["remote"; "type"; "lastSync"; "contentHash"].

Definition missing_or_empty (record : json) (key : string) : Prop :=
  field record key = None \/ field record key = Some (JString "").

Definition present_and_non_empty (record : json) (key : string) : Prop :=
  exists value, field record key = Some value /\ value <> JString "".

Section Load.

(** [METADATA_FILENAME] of constants.ts, and the world as [loadMetadata]
    sees it: [fs.pathExists], [fs.readFile(_, 'utf-8')] and [JSON.parse]. *)
Variable METADATA_FILENAME : string.
Variable pathExists : string -> bool.
Variable readFile : string -> outcome string.
Variable JSON_parse : string -> outcome json.

Definition loadMetadata (skillDir : string) : outcome (option json) :=
  try_catch
    (let metadataPath := Path.join skillDir METADATA_FILENAME in
     if negb (pathExists metadataPath) then Ok None
     else
       bind (readFile metadataPath) (fun content =>
       bind (JSON_parse content) (fun metadata =>
       bind (get_property metadata "remote") (fun remote =>
       if negb (truthy remote) then Ok None else
       bind (get_property metadata "type") (fun type =>
       if negb (truthy type) then Ok None else
       bind (get_property metadata "lastSync") (fun lastSync =>
       if negb (truthy lastSync) then Ok None else
       bind (get_property metadata "contentHash") (fun contentHash =>
       if negb (truthy contentHash) then Ok None else
       Ok (Some metadata))))))))
    (fun _ => Ok None).

End Load.

(** *** Saving the record *)

(** [SkillMetadata] of types.ts. *)
Record SkillMetadata : Type := {
  m_remote : string;
  m_ref : option string;
  m_type : string;
  m_lastSync : string;
  m_contentHash : string
}.

(** The object that [JSON.stringify] sees: a member per property, an
    undefined [ref] left out. *)
Definition to_json (metadata : SkillMetadata) : json :=
  JObject
    ([("remote", JString (m_remote metadata))]
     ++ match m_ref metadata with
        | Some ref => [("ref", JString ref)]
        | None => []
        end
     ++ [("type", JString (m_type metadata));
         ("lastSync", JString (m_lastSync metadata));
         ("contentHash", JString (m_contentHash metadata))]).

Section Save.

(** [METADATA_FILENAME]; the file system as a state, with
    [fs.writeFile(_, _, 'utf-8')], [fs.pathExists] and
    [fs.readFile(_, 'utf-8')]; and [JSON.stringify(_, null, 2)]. *)
Variable METADATA_FILENAME : string.
Context {World : Type}.
Variable writeFile : string -> string -> World -> outcome unit * World.
Variable pathExists : World -> string -> bool.
Variable readFile : World -> string -> outcome string.
Variable JSON_stringify : json -> string.

(** [metadataExists] *)
Definition metadataExists (skillDir : string) (w : World) : bool :=
  pathExists w (Path.join skillDir METADATA_FILENAME).

(** [saveMetadata] *)
Definition saveMetadata (skillDir : string) (metadata : SkillMetadata) (w : World)
    : outcome unit * World :=
  let metadataPath := Path.join skillDir METADATA_FILENAME in
  match writeFile metadataPath (JSON_stringify (to_json metadata)) w with
  | (Ok _, w') => (Ok tt, w')
  | (Throw error, w') =>
      (Throw (ThrowError (wrapError error ("Failed to save metadata to " +:+ skillDir)
                            FILE_SYSTEM_ERROR [("skillDir", skillDir)])), w')
  end.

(** What is written can be read back. *)
Definition reads_what_was_written : Prop :=
  forall path content w w',
    writeFile path content w = (Ok tt, w') ->
    pathExists w' path = true /\ readFile w' path = Ok content.

End Save.

(** *** A small file store: the content of each file, by path; the last
    write counts. *)
Definition store_write (path content : string) (files : list (string * string))
    : outcome unit * list (string * string) :=
  (Ok tt, (path, content) :: files).

Definition store_read (files : list (string * string)) (path : string) : outcome string :=
  match list_find (fun file => file.1 = path) files with
  | Some (_, file) => Ok file.2
  | None => Throw (ThrowError (PlainError ("ENOENT: " +:+ path)))
  end.

Definition store_exists (files : list (string * string)) (path : string) : bool :=
  bool_decide (is_Some (list_find (fun file => file.1 = path) files)).

Definition example_metadata : SkillMetadata :=
  {| m_remote := "https://github.com/o/r"; m_ref := Some "main"; m_type := "GIT_REPO";
     m_lastSync := "2024-01-01T00:00:00.000Z"; m_contentHash := "0f3a" |}.

End Metadata.

(** ** metadata-manager.ts: the content hash *)

Module Hasher.

(** A directory tree as [fs.readdir(dir, { withFileTypes: true })] shows it:
    an entry is a regular file, a directory, or something else (a symbolic
    link, a socket, ...).  A directory whose listing fails has no listing. *)
Inductive node : Type :=
  | File
  | Directory (listing : option (list (string * node)))
  | Other.

(** [name.startsWith('.')] *)
Definition starts_with_dot (name : string) : bool := String.prefix "." name.

(** [getAllFiles(dir)], where [tree] is what is found at [dir].  A failing
    [readdir] is caught and logged, and no file is reported. *)
Fixpoint getAllFiles (dir : string) (tree : node) {struct tree} : list string :=
  match tree with
  | Directory (Some entries) =>
      (fix walk (entries : list (string * node)) : list string :=
         match entries with
         | [] => []
         | (name, entry) :: rest =>
             let fullPath := Path.join dir name in
             match entry with
             | Directory _ =>
                 if starts_with_dot name then [] else getAllFiles fullPath entry
             | File => [fullPath]
             | Other => []
             end ++ walk rest
         end) entries
  | _ => []
  end.

(** The regular files below a directory as the specification collects them:
    by their path relative to the directory, dot-prefixed directories
    skipped entirely; a directory that cannot be listed is a read error. *)
Fixpoint collect (tree : node) {struct tree} : option (list (list string)) :=
  match tree with
  | Directory (Some entries) =>
      (fix walk (entries : list (string * node)) : option (list (list string)) :=
         match entries with
         | [] => Some []
         | (name, entry) :: rest =>
             here ← match entry with
                    | Directory _ =>
                        if starts_with_dot name then Some []
                        else (fun paths : list (list string) => (name ::.) <$> paths) <$> collect entry
                    | File => Some [[name]]
                    | Other => Some []
                    end;
             more ← walk rest;
             Some (here ++ more)
         end) entries
  | _ => None
  end.

(** Entry names are file names: [readdir] reports neither [.] nor [..], and
    no name holds a separator. *)
Fixpoint well_named (tree : node) {struct tree} : Prop :=
  match tree with
  | Directory (Some entries) =>
      (fix walk (entries : list (string * node)) : Prop :=
         match entries with
         | [] => True
         | (name, entry) :: rest =>
             Path.proper_segment name /\ well_named entry /\ walk rest
         end) entries
  | _ => True
  end.

(** A directory that cannot be listed, seen as an empty one. *)
Fixpoint unreadable_as_empty (tree : node) {struct tree} : node :=
  match tree with
  | Directory (Some entries) =>
      Directory (Some
        ((fix walk (entries : list (string * node)) : list (string * node) :=
            match entries with
            | [] => []
            | (name, entry) :: rest => (name, unreadable_as_empty entry) :: walk rest
            end) entries))
  | Directory None => Directory (Some [])
  | other => other
  end.

(** The files and the relative paths that one entry of a listing
    contributes. *)
Definition entry_files (dir : string) (named : string * node) : list string :=
  let fullPath := Path.join dir named.1 in
  match named.2 with
  | Directory _ => if starts_with_dot named.1 then [] else getAllFiles fullPath named.2
  | File => [fullPath]
  | Other => []
  end.

Definition entry_paths (named : string * node) : option (list (list string)) :=
  match named.2 with
  | Directory _ =>
      if starts_with_dot named.1 then Some []
      else (fun paths : list (list string) => (named.1 ::.) <$> paths) <$> collect named.2
  | File => Some [[named.1]]
  | Other => Some []
  end.

(** Lexicographic order of relative paths, compared as strings, character
    by character. *)
Definition path_le (p q : list string) : Prop :=
  String.le (Path.join_segments p) (Path.join_segments q).

Section Hash.

(** [METADATA_FILENAME] of constants.ts; the SHA-256 digest of a byte string
    in hexadecimal; the working directory of the process; and the content
    of the regular file found at a path (given by its segments), or the
    error that reading it raises. *)
Variable METADATA_FILENAME : string.
Variable sha256 : string -> string.
Variable cwd : string.
Variable content : list string -> outcome string.

(** [fs.createReadStream(filePath)] piped to the end: the file system
    resolves the path. *)
Definition read_stream (filePath : string) : outcome string :=
  content (Path.segments_of (Path.resolve cwd filePath)).

(** [hashFile] *)
Definition hashFile (filePath : string) : outcome string :=
  match read_stream filePath with
  | Ok bytes => Ok (sha256 bytes)
  | Throw error =>
      Throw (ThrowError (wrapError error ("Failed to hash file " +:+ filePath)
                           FILE_SYSTEM_ERROR [("filePath", filePath)]))
  end.

(** The loop of [calculateContentHash]; [hash] is what has been fed to the
    top-level hash object so far. *)
Fixpoint hash_files (skillDir : string) (files : list string) (hash : string)
    : outcome string :=
  match files with
  | [] => Ok hash
  | file :: rest =>
      let relativePath := Path.relative cwd skillDir file in
      if String.eqb relativePath METADATA_FILENAME then hash_files skillDir rest hash
      else
        bind (hashFile file) (fun fileHash =>
          hash_files skillDir rest (hash +:+ relativePath +:+ fileHash))
  end.

(** The metadata record is skipped by its relative path. *)
Definition hashed (skillDir file : string) : Prop :=
  Path.relative cwd skillDir file <> METADATA_FILENAME.

(** [calculateContentHash(skillDir)], where [tree] is what is found at
    [skillDir].  [files.sort()] orders strings by their code units; a string
    here is a sequence of characters with the codes 0 to 255, which
    [String.le] orders by their codes.  File names with other characters
    are not among the names of the trees considered. *)
Definition calculateContentHash (skillDir : string) (tree : node) : outcome string :=
  try_catch
    (let files := merge_sort String.le (getAllFiles skillDir tree) in
     bind (hash_files skillDir files "") (fun hash => Ok (sha256 hash)))
    (fun error =>
       Throw (ThrowError (wrapError error
         ("Failed to calculate content hash for " +:+ skillDir)
         FILE_SYSTEM_ERROR [("skillDir", skillDir)]))).

(** The reference definition: the digest of, for each regular file of the
    directory other than the skill's own metadata record (the file whose
    path in the directory is [METADATA_FILENAME]), in lexicographic order of
    the relative paths, the path followed by the digest of the content of
    the file.  Any read error makes it undefined. *)
Fixpoint fold_files (base : list string) (paths : list (list string)) (fed : string)
    : option string :=
  match paths with
  | [] => Some fed
  | path :: rest =>
      match content (base ++ path) with
      | Ok bytes => fold_files base rest (fed +:+ Path.join_segments path +:+ sha256 bytes)
      | Throw _ => None
      end
  end.

Definition reference_hash (base : list string) (tree : node) : option string :=
  paths ← collect tree;
  let hashed :=
    merge_sort path_le (filter (fun p => Path.join_segments p <> METADATA_FILENAME) paths) in
  fed ← fold_files base hashed "";
  Some (sha256 fed).

End Hash.

(** *** A small skill directory

    A stand-in for the digest that keeps its input visible, files that hold
    their own path, and a directory with a nested folder, a hidden folder
    and a metadata record. *)
Definition marked (bytes : string) : string := "sha256(" +:+ bytes +:+ ")".

Definition own_path (path : list string) : outcome string := Ok (Path.join_segments path).

Definition example_tree : node :=
  Directory (Some
    [("SKILL.md", File);
     (".git", Directory (Some [("config", File)]));
     ("docs", Directory (Some [("usage.md", File); ("link", Other)]));
     (".skill-metadata.json", File)]).

(** The same directory when the listing of [docs] fails. *)
Definition example_tree_unreadable : node :=
  Directory (Some
    [("SKILL.md", File);
     (".git", Directory (Some [("config", File)]));
     ("docs", Directory None);
     (".skill-metadata.json", File)]).

(** *** Directory trees that hash alike *)

(** The same directory tree with the entries of some listings in another
    order, at any depth: [readdir] promises no order. *)
Inductive reordered : node -> node -> Prop :=
  | reordered_same tree : reordered tree tree
  | reordered_listing entries entries' :
      entries ≡ₚ entries' ->
      reordered (Directory (Some entries)) (Directory (Some entries'))
  | reordered_inside before name entry entry' after :
      reordered entry entry' ->
      reordered (Directory (Some (before ++ (name, entry) :: after)))
                (Directory (Some (before ++ (name, entry') :: after)))
  | reordered_trans tree1 tree2 tree3 :
      reordered tree1 tree2 -> reordered tree2 tree3 -> reordered tree1 tree3.

(** The entries of the listing of the skill directory that never count for
    its hash: what is neither a file nor a directory, a dot-prefixed
    directory, and the metadata record of the skill itself. *)
Definition never_hashed (METADATA_FILENAME : string) (named : string * node) : Prop :=
  match named.2 with
  | Other => True
  | Directory _ => starts_with_dot named.1 = true
  | File => named.1 = METADATA_FILENAME
  end.

(** The small skill directory as another [readdir] might list it. *)
Definition example_tree_reordered : node :=
  Directory (Some
    [(".skill-metadata.json", File);
     ("docs", Directory (Some [("link", Other); ("usage.md", File)]));
     ("SKILL.md", File);
     (".git", Directory (Some [("config", File)]))]).

End Hasher.

(** ** agent-manager.ts: symlinks *)

Module AgentManager.

(** What [lstat] finds at a path. *)
Inductive entry : Type :=
  | RegularFile
  | Folder
  | Symlink (destination : string).

(** The file system, by path; the paths at which the system refuses to
    remove or to create a link (no permission, a read-only file system:
    [EACCES], [EROFS]); and what was written with [console.warn]. *)
Record world : Type := {
  files : gmap string entry;
  denied : gset string;
  warnings : list string
}.

(** A call that reads and changes the world and may throw. *)
Definition action (A : Type) : Type := world -> outcome A * world.

Definition ret {A} (a : A) : action A := fun w => (Ok a, w).

Definition throw {A} (t : thrown) : action A := fun w => (Throw t, w).

Definition and_then {A B} (m : action A) (k : A -> action B) : action B :=
  fun w =>
    match m w with
    | (Ok a, w') => k a w'
    | (Throw t, w') => (Throw t, w')
    end.

Notation "'do' x <- m ; k" := (and_then m (fun x => k))
  (at level 10, x name, m at level 100, k at level 200).

(** [try { body } catch (error) { throw handler(error) }] *)
Definition rethrow {A} (body : action A) (handler : thrown -> thrown) : action A :=
  fun w =>
    match body w with
    | (Ok a, w') => (Ok a, w')
    | (Throw t, w') => (Throw (handler t), w')
    end.

Definition is_symlink (e : entry) : bool :=
  match e with
  | Symlink _ => true
  | _ => false
  end.

(** Where the link at [path] leads: a relative destination is taken from
    the directory of the link. *)
Definition link_destination (path destination : string) : string :=
  if Path.starts_with_slash destination then destination
  else Path.join (Path.dirname path) destination.

(** Following symbolic links from a path, at most [hops] of them, to what
    is not a link. *)
Fixpoint follow (hops : nat) (fs : gmap string entry) (path : string) : option entry :=
  match fs !! path with
  | Some (Symlink destination) =>
      match hops with
      | O => None
      | S hops' => follow hops' fs (link_destination path destination)
      end
  | found => found
  end.

(** The number of links the system follows before it gives up. *)
Definition SYMLOOP_MAX : nat := 40.

Definition system_error (code path : string) : thrown :=
  ThrowError (PlainError (code +:+ ": " +:+ path)).

(** [fs.pathExists]: follows links; a dangling link does not exist. *)
Definition pathExists (path : string) : action bool :=
  fun w => (Ok (bool_decide (is_Some (follow SYMLOOP_MAX (files w) path))), w).

(** [fs.lstat] *)
Definition lstat (path : string) : action entry :=
  fun w =>
    match files w !! path with
    | Some e => (Ok e, w)
    | None => (Throw (system_error "ENOENT" path), w)
    end.

(** [fs.stat] *)
Definition stat (path : string) : action entry :=
  fun w =>
    match follow SYMLOOP_MAX (files w) path with
    | Some e => (Ok e, w)
    | None => (Throw (system_error "ENOENT" path), w)
    end.

(** [fs.unlink] *)
Definition unlink (path : string) : action unit :=
  fun w =>
    match files w !! path with
    | Some Folder => (Throw (system_error "EPERM" path), w)
    | Some _ =>
        if bool_decide (path ∈ denied w) then (Throw (system_error "EACCES" path), w)
        else (Ok tt, {| files := delete path (files w); denied := denied w;
                        warnings := warnings w |})
    | None => (Throw (system_error "ENOENT" path), w)
    end.

(** [fs.symlink(source, target, type)] *)
Definition symlink (source target : string) : action unit :=
  fun w =>
    match files w !! target with
    | Some _ => (Throw (system_error "EEXIST" target), w)
    | None =>
        if bool_decide (target ∈ denied w) then (Throw (system_error "EACCES" target), w)
        else (Ok tt, {| files := <[target := Symlink source]> (files w);
                        denied := denied w; warnings := warnings w |})
    end.

(** [fs.ensureDir]: the missing directories of the path are created, the
    outermost first; a file in the way is an error. *)
Fixpoint make_directories (depth : nat) (fs : gmap string entry) (dir : string)
    : outcome (gmap string entry) :=
  match follow SYMLOOP_MAX fs dir with
  | Some Folder => Ok fs
  | Some _ => Throw (system_error "EEXIST" dir)
  | None =>
      match fs !! dir with
      | Some _ => Throw (system_error "ENOENT" dir)
      | None =>
          match depth with
          | O => Ok (<[dir := Folder]> fs)
          | S depth' =>
              let parent := Path.dirname dir in
              if String.eqb parent dir then Ok (<[dir := Folder]> fs)
              else
                match make_directories depth' fs parent with
                | Ok fs' =>
                    match fs' !! dir with
                    | None => Ok (<[dir := Folder]> fs')
                    | Some _ => Ok fs'
                    end
                | Throw t => Throw t
                end
          end
      end
  end.

Definition ensureDir (dir : string) : action unit :=
  fun w =>
    match make_directories (String.length dir) (files w) dir with
    | Ok fs' => (Ok tt, {| files := fs'; denied := denied w; warnings := warnings w |})
    | Throw t => (Throw t, w)
    end.

(** [console.warn] *)
Definition warn (message : string) : action unit :=
  fun w => (Ok tt, {| files := files w; denied := denied w;
                      warnings := warnings w ++ [message] |}).

(** [AGENT_PATHS], in the order of its keys. *)
Definition AGENT_PATHS : list (string * string) :=
  [("antigravity", "~/.gemini/antigravity/global_skills/");
   ("claude-code", "~/.claude/skills/");
   ("codex", "~/.codex/skills/");
   ("cursor", "~/.cursor/skills/");
   ("gemini-cli", "~/.gemini/skills/");
   ("github-copilot", "~/.copilot/skills/")].

Definition getAllAgentTypes : list string := AGENT_PATHS.*1.

(** [filepath.slice(1)] *)
Definition slice1 (s : string) : string :=
  match s with
  | EmptyString => EmptyString
  | String _ rest => rest
  end.

Section CreateSymlink.

(** [os.homedir()] and [process.cwd()]. *)
Variables (homedir cwd : string).

(** [resolveHomePath] of utils.ts *)
Definition resolveHomePath (filepath : string) : outcome string :=
  if String.eqb filepath "" then
    Throw (ThrowError (SkillManagerError "File path must be a non-empty string"
                         VALIDATION_ERROR [("filepath", filepath)] None))
  else
    let resolved :=
      if String.prefix "~/" filepath || String.eqb filepath "~"
      then Path.join homedir (slice1 filepath)
      else filepath in
    Ok (Path.normalize resolved).

(** [getAgentGlobalPath]; an agent outside the table has no entry to read
    [global] from. *)
Definition getAgentGlobalPath (agent : string) : outcome string :=
  match list_find (fun row => row.1 = agent) AGENT_PATHS with
  | Some (_, row) => resolveHomePath row.2
  | None =>
      Throw (ThrowError (PlainError "Cannot read properties of undefined (reading global)"))
  end.

(** [getAllAgentGlobalPaths(agents)] *)
Definition getAllAgentGlobalPaths (agents : option (list string)) : outcome (list string) :=
  let targetAgents :=
    match agents with
    | Some (a :: l) => a :: l
    | _ => getAllAgentTypes
    end in
  mapM_outcome getAgentGlobalPath targetAgents.

(** [createSymlink] *)
Definition createSymlink (source target skillName : string) : action unit :=
  rethrow
    (do sourceExists <- pathExists source;
     if negb sourceExists then
       throw (ThrowError (PlainError ("Source path does not exist: " +:+ source)))
     else
       let targetDir := Path.dirname target in
       match getAllAgentGlobalPaths None with
       | Throw t => throw t
       | Ok allAgentPaths =>
           let isValidTarget :=
             existsb (fun agentPath =>
                        match Utils.validatePathWithinBase cwd agentPath target None with
                        | Ok _ => true
                        | Throw _ => false
                        end) allAgentPaths in
           if negb isValidTarget then
             throw (ThrowError (SkillManagerError
                      "Target path is not within any valid agent directory"
                      VALIDATION_ERROR [("target", target)] None))
           else
             do made <- ensureDir targetDir;
             do targetExists <- pathExists target;
             let link :=
               (do sourceStats <- stat source;
                symlink source target) in
             if targetExists then
               do stats <- lstat target;
               if is_symlink stats then (do removed <- unlink target; link)
               else
                 warn ("Warning: " +:+ target +:+
                       " already exists and is not a symlink. Skipping symlink creation.")
             else link
       end)
    (fun error =>
       ThrowError (wrapError error
         ("Failed to create symlink for skill " +:+ skillName +:+ " from " +:+ source
            +:+ " to " +:+ target)
         FILE_SYSTEM_ERROR
         [("source", source); ("target", target); ("skillName", skillName)])).

(** *** Agents, and removing and listing links *)

(** [validateAgentType] *)
Definition validateAgentType (agent : string) : outcome bool :=
  let validAgents := getAllAgentTypes in
  if negb (bool_decide (agent ∈ validAgents)) then
    Throw (ThrowError (SkillManagerError
      ("Invalid agent type: " +:+ agent +:+ ". Must be one of: "
         +:+ Sync.join_with ", " validAgents)
      VALIDATION_ERROR
      [("agent", agent); ("validAgents", Sync.stringify_strings validAgents)] None))
  else Ok true.

(** [try { body } catch (error) { handler }], for calls that change the
    world. *)
Definition catch {A} (body : action A) (handler : thrown -> action A) : action A :=
  fun w =>
    match body w with
    | (Ok a, w') => (Ok a, w')
    | (Throw t, w') => handler t w'
    end.

(** [removeSymlink]; the warning is followed by the caught error. *)
Definition removeSymlink (target : string) : action unit :=
  catch
    (do targetExists <- pathExists target;
     if targetExists then
       do stats <- lstat target;
       if is_symlink stats then unlink target else ret tt
     else ret tt)
    (fun error => warn ("Warning: Failed to remove symlink at " +:+ target +:+ ":")).

(** The [for] loop of [removeSymlinksForSkill]. *)
Fixpoint remove_each (skillName : string) (targetAgents : list string) : action unit :=
  match targetAgents with
  | [] => ret tt
  | agent :: rest =>
      match getAgentGlobalPath agent with
      | Throw t => throw t
      | Ok agentPath =>
          let symlinkPath := Path.join agentPath skillName in
          do removed <- removeSymlink symlinkPath;
          remove_each skillName rest
      end
  end.

(** [removeSymlinksForSkill] *)
Definition removeSymlinksForSkill (skillName : string) (agents : option (list string))
    : action unit :=
  let targetAgents :=
    match agents with
    | Some (a :: l) => a :: l
    | _ => getAllAgentTypes
    end in
  remove_each skillName targetAgents.

(** [isSymlink] *)
Definition isSymlink (targetPath : string) : action bool :=
  catch
    (do targetExists <- pathExists targetPath;
     if targetExists then
       do stats <- lstat targetPath;
       ret (is_symlink stats)
     else ret false)
    (fun error => ret false).

(** The [for] loop of [getLinkedAgents]; [linkedAgents] is the array pushed
    to so far. *)
Fixpoint linked_among (skillName : string) (allAgents : list string)
    (linkedAgents : list string) : action (list string) :=
  match allAgents with
  | [] => ret linkedAgents
  | agent :: rest =>
      match getAgentGlobalPath agent with
      | Throw t => throw t
      | Ok agentPath =>
          let symlinkPath := Path.join agentPath skillName in
          do linked <- isSymlink symlinkPath;
          linked_among skillName rest
            (if linked then linkedAgents ++ [agent] else linkedAgents)
      end
  end.

(** [getLinkedAgents] *)
Definition getLinkedAgents (skillName : string) : action (list string) :=
  linked_among skillName getAllAgentTypes [].

(** An agent at whose place for the skill a link that leads somewhere is
    found. *)
Definition has_link (skillName : string) (w : world) (agent : string) : bool :=
  match getAgentGlobalPath agent with
  | Ok agentPath =>
      let symlinkPath := Path.join agentPath skillName in
      bool_decide (is_Some (follow SYMLOOP_MAX (files w) symlinkPath))
      && match files w !! symlinkPath with
         | Some e => is_symlink e
         | None => false
         end
  | Throw _ => false
  end.

End CreateSymlink.

(** *** A small home directory

    The skill is a folder of the store; at the place of its link in the
    skills directory of one agent there is [occupant], if any. *)
Definition example_world (occupant : option entry) : world :=
  {| files :=
       match occupant with
       | Some e => <["/home/u/.claude/skills/skill" := e]>
       | None => fun fs => fs
       end (<["/tmp/s/skill" := Folder]>
              (<["/home/u/.claude/skills" := Folder]>
                 (<["/home/u/.claude" := Folder]> ∅)));
     denied := ∅;
     warnings := [] |}.

End AgentManager.

(** ** commands/list.ts: the table of skills *)

Module ListCommand.

(** [SkillInfo] *)
Record SkillInfo : Type := {
  name : string;
  type : string;
  remote : string;
  ref : option string;
  filename : option string;
  agents : list string;
  lastSync : option string;
  configuredAgents : option (list string)
}.

(** The two styles of [chalk] that the table uses. *)
Record styles : Type := {
  gray : string -> string;
  cyan : string -> string
}.

(** [s.repeat(count)] *)
Fixpoint repeat_string (s : string) (count : nat) : string :=
  match count with
  | O => ""
  | S count' => s +:+ repeat_string s count'
  end.

(** [padRight]; [str.length] is the number of characters of the string. *)
Definition padRight (str : string) (width : Z) : string :=
  str +:+ repeat_string " " (Z.to_nat (Z.max 0 (width - Z.of_nat (String.length str)))).

(** [Math.max(least, ...values)] *)
Definition max_of (least : Z) (values : list Z) : Z := foldr Z.max least values.

Definition nameWidth (skills : list SkillInfo) : Z :=
  max_of 15 ((fun s => Z.of_nat (String.length (name s))) <$> skills).

Definition typeWidth (skills : list SkillInfo) : Z :=
  max_of 10 ((fun s => Z.of_nat (String.length (type s))) <$> skills).

(** A row of the table. *)
Definition row (chalk : styles) (nameWidth typeWidth : Z) (skill : SkillInfo) : string :=
  let agentList :=
    if (0 <? length (agents skill))%nat then Sync.join_with ", " (agents skill)
    else gray chalk "none" in
  cyan chalk (padRight (name skill) nameWidth) +:+ "  " +:+
  padRight (type skill) typeWidth +:+ "  " +:+ agentList.

(** [displayBasic]: the lines written with [console.log]. *)
Definition displayBasic (chalk : styles) (skills : list SkillInfo) : list string :=
  let nameWidth := nameWidth skills in
  let typeWidth := typeWidth skills in
  [gray chalk (padRight "NAME" nameWidth +:+ "  " +:+ padRight "TYPE" typeWidth +:+ "  "
               +:+ "AGENTS");
   gray chalk (repeat_string "-" (Z.to_nat (nameWidth + typeWidth + 50)))]
  ++ (row chalk nameWidth typeWidth <$> skills).

(** A terminal without colours. *)
Definition plain : styles := {| gray := fun s => s; cyan := fun s => s |}.

End ListCommand.

(** * Properties *)

(** ** retry.ts *)

Module RetryFacts.
Import Retry.

Lemma Qpower_iterated (m : Q) (k : nat) :
  (m ^ Z.of_nat k == iterated_power m k)%Q.
Proof.
  induction k as [|k IH]; [reflexivity|].
  rewrite Nat2Z.inj_succ, <- Z.add_1_l.
  rewrite Qpower_plus' by lia.
  cbn [iterated_power]. rewrite IH. reflexivity.
Qed.

Section Loop.

Context {number : Type} {N : Numbers number}.
Variables (MAX_RETRIES : Z) (INITIAL_BACKOFF MAX_BACKOFF : number).
Context {World T : Type}.
Variable operation : World -> outcome T * World.

Abbreviation loop := (retry_loop (T:=T) operation).

(** Every delay handed to [sleep] is the backoff of the attempt that just
    failed: after [k] failures the delays are those of attempts [1..k]. *)
Lemma retry_loop_sleeps name cfg (n : nat) :
  forall (k : nat) lastError st,
    sleeps st = (fun a => calculateBackoff (Z.of_nat a) cfg) <$> seq 1 k ->
    exists j, sleeps (loop name cfg (Z.of_nat <$> seq (S k) n) lastError st).2
              = (fun a => calculateBackoff (Z.of_nat a) cfg) <$> seq 1 j.
Proof.
  induction n as [|n IH]; intros k lastError st Hst; cbn [seq fmap list_fmap retry_loop].
  - destruct lastError; eauto.
  - destruct (operation (world st)) as [[v|error] w]; [eauto|].
    destruct (_ || _); [eauto|].
    apply (IH (S k)). cbn [sleeps].
    rewrite Hst, seq_S, fmap_app. reflexivity.
Qed.

(** An operation that fails retryably on every call is tried once per
    attempt number and the last thrown value comes out. *)
Lemma retry_loop_exhaust name cfg (n : nat) :
  (forall w0, exists e w1, operation w0 = (Throw e, w1) /\
                           f_isRetryable cfg (to_error e) = true) ->
  forall (k : nat) lastError st,
    Z.of_nat (k + n) = f_maxRetries cfg -> (1 <= n)%nat ->
    exists e st',
      loop name cfg (Z.of_nat <$> seq (S k) n) lastError st = (Throw e, st') /\
      calls st' = (calls st + n)%nat /\
      last (failures st') = Some e /\
      length (failures st') = (length (failures st) + n)%nat.
Proof.
  intros Hop. induction n as [|n IH]; intros k lastError st Hmax Hn; [lia|].
  cbn [seq fmap list_fmap retry_loop].
  destruct (Hop (world st)) as (e & w1 & -> & Hre). rewrite Hre. cbn [negb].
  rewrite orb_false_r.
  destruct (Z.geb_spec (Z.of_nat (S k)) (f_maxRetries cfg)) as [Hge|Hlt].
  - assert (n = 0%nat) as -> by lia.
    eexists _, _. split; [reflexivity|]. cbn.
    rewrite last_snoc, length_app. cbn. repeat split; lia.
  - edestruct (IH (S k)) as (e' & st' & -> & Hc & Hl & Hlen); [lia|lia|].
    eexists _, _. split; [reflexivity|].
    rewrite Hc, Hl, Hlen. cbn. rewrite length_app. cbn. repeat split; lia.
Qed.



End Loop.

(** With numbers that are not rounded, the delay is the value of the
    formula, the power being the product of [n - 1] factors. *)
Lemma backoff_delay_exact {World T : Type} (operation : World -> outcome T * World)
    (MAX_RETRIES : Z) (INITIAL_BACKOFF MAX_BACKOFF : Q) name config w (n : nat) (d : Q) :
  let cfg := finalConfig MAX_RETRIES INITIAL_BACKOFF MAX_BACKOFF config in
  let run := withRetry MAX_RETRIES INITIAL_BACKOFF MAX_BACKOFF operation name config w in
  (1 <= n)%nat ->
  sleeps run.2 !! (n - 1)%nat = Some d ->
  (d == Qmin (f_initialBackoff cfg * iterated_power (f_backoffMultiplier cfg) (n - 1))
             (f_maxBackoff cfg))%Q.
Proof.
  intros cfg run Hn Hd. subst run. unfold withRetry in Hd. fold cfg in Hd.
  unfold attempt_numbers in Hd.
  destruct (retry_loop_sleeps operation name cfg (Z.to_nat (f_maxRetries cfg))
              0%nat None (start w) eq_refl) as [j Hj].
  rewrite Hj in Hd. rewrite list_lookup_fmap in Hd.
  destruct (seq 1 j !! (n - 1)%nat) as [a|] eqn:Ha; [|discriminate].
  apply lookup_seq in Ha as [-> _]. cbn in Hd.
  replace (S (n - 1)) with n in Hd by lia. injection Hd as <-.
  unfold calculateBackoff. cbn [Math_min multiply Math_pow exact_numbers].
  apply Q.min_compat; [|reflexivity].
  replace (Z.of_nat n - 1) with (Z.of_nat (n - 1)) by lia.
  rewrite Qpower_iterated. reflexivity.
Qed.





(** *** How often the operation is called, and with what delays *)

Section Attempts.

Variables (MAX_RETRIES : Z) (INITIAL_BACKOFF MAX_BACKOFF : Q).
Context {World T : Type}.
Variable operation : World -> outcome T * World.

(** The counters of a run of the loop from attempt [k + 1] on: one more
    call than delays, and a failure for every call but a returning one. *)
Lemma retry_loop_counts name cfg (n : nat) :
  forall (k : nat) lastError st,
    Z.of_nat (k + n) = f_maxRetries cfg -> (1 <= n)%nat ->
    let r := retry_loop operation name cfg (Z.of_nat <$> seq (S k) n) lastError st in
    (calls st < calls r.2 <= calls st + n)%nat /\
    (length (sleeps r.2) + calls st + 1 = length (sleeps st) + calls r.2)%nat /\
    match r.1 with
    | Ok _ => (length (failures r.2) + calls st + 1 = length (failures st) + calls r.2)%nat
    | Throw _ => (length (failures r.2) + calls st = length (failures st) + calls r.2)%nat
    end.
Proof.
  induction n as [|n IH]; intros k lastError st Hmax Hn; [lia|].
  cbn [seq fmap list_fmap retry_loop].
  destruct (operation (world st)) as [[v|error] w]; [cbn; lia|].
  destruct (_ || _) eqn:Hstop.
  - cbn. rewrite length_app. cbn. lia.
  - apply orb_false_iff in Hstop as [Hlt _].
    rewrite Z.geb_leb in Hlt. apply Z.leb_gt in Hlt.
    specialize (IH (S k) (Some (to_error error))
      {| world := w; calls := S (calls st); failures := failures st ++ [error];
         sleeps := sleeps st ++ [calculateBackoff (Z.of_nat (S k)) cfg] |}).
    cbn [world calls failures sleeps] in *.
    destruct IH as (Hc & Hs & Hf); [lia|lia|].
    rewrite !length_app in *. cbn [length] in *.
    split; [lia|]. split; [lia|].
    destruct (retry_loop _ _ _ _ _ _).1; lia.
Qed.

(** X1: The operation is never called more often than [maxRetries] allows;
    there is exactly one delay between two consecutive calls and none after
    the last; every call but a returning one has failed. *)
Theorem withRetry_attempts_bounded name config w :
  let cfg := finalConfig MAX_RETRIES INITIAL_BACKOFF MAX_BACKOFF config in
  let run := withRetry MAX_RETRIES INITIAL_BACKOFF MAX_BACKOFF operation name config w in
  (Z.of_nat (calls run.2) <= Z.max 0 (f_maxRetries cfg)) /\
  length (sleeps run.2) = (calls run.2 - 1)%nat /\
  (forall v, run.1 = Ok v ->
     (1 <= calls run.2)%nat /\ length (failures run.2) = (calls run.2 - 1)%nat) /\
  (forall t, run.1 = Throw t -> length (failures run.2) = calls run.2).
Proof.
  intros cfg run. subst run. unfold withRetry. fold cfg. unfold attempt_numbers.
  destruct (Z.to_nat (f_maxRetries cfg)) as [|n] eqn:Hn.
  - cbn. repeat split; try lia; try discriminate.
  - pose proof (retry_loop_counts name cfg (S n) 0%nat None (start w)) as H.
    cbn zeta in H. destruct H as (Hc & Hs & Hf); [lia|lia|].
    cbn [start calls sleeps failures length] in *.
    destruct (retry_loop _ _ _ _ _ _) as [r st'] eqn:Hr. cbn [fst snd] in *.
    split; [lia|]. split; [lia|]. split.
    + intros v ->. lia.
    + intros t ->. lia.
Qed.

(** The loop from attempt [k + 1] on, when the operation fails retryably a
    few times and then returns. *)
Lemma retry_loop_returns name cfg es v w' :
  forall w0, fails_then_returns operation (f_isRetryable cfg) w0 es v w' ->
  forall (n k : nat) lastError st,
    world st = w0 -> Z.of_nat (k + length es) < f_maxRetries cfg ->
    (length es < n)%nat ->
    retry_loop operation name cfg (Z.of_nat <$> seq (S k) n) lastError st
    = (Ok v, {| world := w'; calls := (calls st + S (length es))%nat;
                failures := failures st ++ es;
                sleeps := sleeps st ++
                  ((fun a => calculateBackoff (Z.of_nat a) cfg) <$> seq (S k) (length es)) |}).
Proof.
  induction 1 as [w0 v w' Hop|w0 e w1 es v w' Hop Hre _ IH];
    intros n k lastError st Hw Hmax Hn;
    (destruct n as [|n]; [cbn in Hn; lia|]);
    cbn [seq fmap list_fmap retry_loop]; rewrite Hw, Hop.
  - cbn. rewrite !app_nil_r. do 3 f_equal. lia.
  - rewrite Hre. cbn [negb]. rewrite orb_false_r.
    cbn [length] in *.
    destruct (Z.geb_spec (Z.of_nat (S k)) (f_maxRetries cfg)) as [Hge|Hlt]; [lia|].
    erewrite (IH n (S k)); cbn [world calls failures sleeps]; [|reflexivity|lia|lia].
    f_equal. f_equal; [lia|rewrite <- app_assoc; reflexivity|].
    rewrite <- app_assoc. reflexivity.
Qed.

(** The loop from attempt [k + 1] on, when the operation fails retryably at
    least as often as there are attempts left: the last attempt's failure
    comes out. *)
Lemma retry_loop_gives_up name cfg es v w' :
  forall w0, fails_then_returns operation (f_isRetryable cfg) w0 es v w' ->
  forall (n k : nat) lastError st,
    world st = w0 -> Z.of_nat (k + n) = f_maxRetries cfg ->
    (1 <= n <= length es)%nat ->
    exists st',
      retry_loop operation name cfg (Z.of_nat <$> seq (S k) n) lastError st
      = (Throw (default (ThrowValue "") (es !! (n - 1)%nat)), st') /\
      calls st' = (calls st + n)%nat.
Proof.
  induction 1 as [w0 v w' Hop|w0 e w1 es v w' Hop Hre _ IH];
    intros n k lastError st Hw Hmax Hn; [cbn in Hn; lia|].
  destruct n as [|n]; [lia|].
  cbn [seq fmap list_fmap retry_loop]. rewrite Hw, Hop, Hre. cbn [negb].
  rewrite orb_false_r. cbn [length] in Hn.
  destruct (Z.geb_spec (Z.of_nat (S k)) (f_maxRetries cfg)) as [Hge|Hlt].
  - assert (n = 0%nat) as -> by lia. cbn. eexists. split; [reflexivity|]. cbn. lia.
  - edestruct (IH n (S k)) as (st' & -> & Hc); [reflexivity|lia|lia|].
    exists st'. cbn in Hc. split; [|lia].
    destruct n as [|n]; [lia|]. cbn. rewrite Nat.sub_0_r. reflexivity.
Qed.

(** X2: When the operation fails retryably a few times and then returns,
    [withRetry] returns that value after one call more than there were
    failures, provided [maxRetries] allows that many calls; the delays are
    the backoffs of the failed attempts, in order. Otherwise it gives up:
    the operation is called [maxRetries] times and the failure of the last
    call comes out. *)
Theorem withRetry_returns_after_failures name config w es v w' :
  let cfg := finalConfig MAX_RETRIES INITIAL_BACKOFF MAX_BACKOFF config in
  let run := withRetry MAX_RETRIES INITIAL_BACKOFF MAX_BACKOFF operation name config w in
  fails_then_returns operation (f_isRetryable cfg) w es v w' ->
  (Z.of_nat (length es) < f_maxRetries cfg ->
   run.1 = Ok v /\ world run.2 = w' /\
   calls run.2 = S (length es) /\ failures run.2 = es /\
   sleeps run.2 = (fun a => calculateBackoff (Z.of_nat a) cfg) <$> seq 1 (length es)) /\
  (1 <= f_maxRetries cfg <= Z.of_nat (length es) ->
   exists e, es !! (Z.to_nat (f_maxRetries cfg) - 1)%nat = Some e /\
     run.1 = Throw e /\ calls run.2 = Z.to_nat (f_maxRetries cfg)).
Proof.
  intros cfg run Hes. subst run. unfold withRetry. fold cfg. unfold attempt_numbers.
  split.
  - intros Hmax.
    rewrite (retry_loop_returns name cfg es v w' w Hes _ 0%nat None (start w));
      [|reflexivity|lia|lia].
    cbn. auto.
  - intros Hmax.
    destruct (retry_loop_gives_up name cfg es v w' w Hes
                (Z.to_nat (f_maxRetries cfg)) 0%nat None (start w))
      as (st' & -> & Hc); [reflexivity|lia|lia|].
    destruct (lookup_lt_is_Some_2 es (Z.to_nat (f_maxRetries cfg) - 1)%nat) as [e He]; [lia|].
    exists e. rewrite He. cbn in *. auto.
Qed.


End Attempts.

Lemma withRetry_returns_after_failures_witness :
  let run := withRetry 3 1000%Q 30000%Q (flaky 2) "clone" empty_config 0%nat in
  run.1 = Ok 3%nat /\ calls run.2 = 3%nat /\ length (sleeps run.2) = 2%nat.
Proof.
  intros run. subst run.
  destruct (withRetry_returns_after_failures 3 1000%Q 30000%Q (flaky 2) "clone" empty_config
              0%nat [ThrowError (PlainError "connect ETIMEDOUT");
                     ThrowError (PlainError "connect ETIMEDOUT")] 3%nat 3%nat)
    as [Hreturns _].
  - apply fails_first with (w1 := 1%nat); [reflexivity|reflexivity|].
    apply fails_first with (w1 := 2%nat); [reflexivity|reflexivity|].
    apply returns_now. reflexivity.
  - destruct Hreturns as (Hv & _ & Hc & _ & Hs); [cbn; lia|].
    rewrite Hv, Hc, Hs. repeat split.
Defined.


(** X4: What [wrapWithErrorHandling] lets out: a returned value unchanged, a
    [SkillManagerError] unchanged, and any other thrown value as a
    [SkillManagerError] with the given message and code (the filesystem code
    when none is given) that keeps an [Error] as its cause. The world is
    left as the wrapped function left it. Wrapping twice is wrapping once:
    the inner message and code win. *)
Theorem wrapWithErrorHandling_only_own_errors {World Args T : Type}
    (fn : Args -> World -> outcome T * World) (message : string) (code : option string)
    (args : Args) (w : World) :
  let wrapped := wrapWithErrorHandling fn message code in
  (wrapped args w).2 = (fn args w).2 /\
  (forall v, (fn args w).1 = Ok v <-> (wrapped args w).1 = Ok v) /\
  (forall t, (wrapped args w).1 = Throw t ->
     exists m c context cause, t = ThrowError (SkillManagerError m c context cause) /\
       ((fn args w).1 = Throw t \/
        m = message /\ c = default FILE_SYSTEM_ERROR code /\ context = [] /\
        exists t', (fn args w).1 = Throw t' /\
                   cause = match t' with ThrowError e => Some e | ThrowValue _ => None end)) /\
  (forall message' code',
     wrapWithErrorHandling wrapped message' code' args w = wrapped args w).
Proof.
  intros wrapped. subst wrapped. unfold wrapWithErrorHandling.
  destruct (fn args w) as [[v|[[m|m c ctx cause]|repr]] w']; cbn;
    (split; [reflexivity|]); (split; [intros v'; split; congruence|]);
    (split; [|intros; reflexivity]); intros t [= <-]; eauto 12.
Qed.

End RetryFacts.

(** ** Paths *)

Module PathFacts.
Import Path.

Lemma string_app_cons (c : ascii) (s t : string) : String c s +:+ t = String c (s +:+ t).
Proof. reflexivity. Qed.

Lemma string_app_nil_l (s : string) : "" +:+ s = s.
Proof. reflexivity. Qed.

Lemma string_app_nil_r (s : string) : s +:+ "" = s.
Proof. induction s as [|c s IH]; [done|]. by rewrite string_app_cons, IH. Qed.

Lemma string_app_assoc (a b c : string) : (a +:+ b) +:+ c = a +:+ (b +:+ c).
Proof. induction a as [|x a IH]; [done|]. by rewrite !string_app_cons, IH. Qed.

Lemma prefix_spec (p s : string) :
  String.prefix p s = true <-> exists rest, s = p +:+ rest.
Proof.
  revert s. induction p as [|c p IH]; intros s.
  - split; [|by destruct s]. intros _. by exists s.
  - destruct s as [|d s]; cbn.
    + split; [done|]. by intros [rest ?].
    + destruct (ascii_dec c d) as [->|Hne].
      * rewrite IH. split; intros [rest Hrest]; exists rest.
        -- by rewrite string_app_cons, <- Hrest.
        -- rewrite string_app_cons in Hrest. by injection Hrest.
      * split; [done|]. intros [rest Hrest]. rewrite string_app_cons in Hrest.
        injection Hrest as ? ?. by destruct Hne.
Qed.

Lemma is_slash_true (c : ascii) : is_slash c = true <-> c = "/"%char.
Proof. apply Ascii.eqb_eq. Qed.

Lemma has_slash_app (a b : string) :
  has_slash (a +:+ b) = has_slash a || has_slash b.
Proof.
  induction a as [|c a IH]; [done|]. rewrite string_app_cons. cbn. by rewrite IH, orb_assoc.
Qed.

(** *** Splitting and joining *)

Lemma split_not_nil (s : string) : split s <> [].
Proof.
  induction s as [|c s IH]; [done|]. cbn. destruct (is_slash c); [done|].
  by destruct (split s).
Qed.

Lemma split_slash_free (s : string) :
  Forall (fun seg => has_slash seg = false) (split s).
Proof.
  induction s as [|c s IH]; cbn; [by repeat constructor|].
  destruct (is_slash c) eqn:Hc; [by constructor|].
  destruct (split s) as [|seg segs]; [by repeat constructor; cbn; rewrite Hc|].
  apply Forall_cons in IH as [Hseg Hsegs]. constructor; [|done]. cbn. by rewrite Hc.
Qed.

Lemma split_one (s : string) : has_slash s = false -> split s = [s].
Proof.
  induction s as [|c s IH]; [done|]. cbn. intros [Hc Hs]%orb_false_elim.
  by rewrite Hc, (IH Hs).
Qed.

Lemma split_app_sep (a b : string) : split (a +:+ "/" +:+ b) = split a ++ split b.
Proof.
  induction a as [|c a IH]; [done|]. rewrite string_app_cons. cbn.
  destruct (is_slash c); [by rewrite IH|]. rewrite IH.
  pose proof (split_not_nil a). by destruct (split a).
Qed.

Lemma join_segments_cons (seg : string) (rest : list string) :
  rest <> [] -> join_segments (seg :: rest) = seg +:+ "/" +:+ join_segments rest.
Proof. by destruct rest. Qed.

Lemma split_join (segments : list string) :
  Forall (fun seg => has_slash seg = false) segments -> segments <> [] ->
  split (join_segments segments) = segments.
Proof.
  induction segments as [|seg rest IH]; [done|]. intros [Hseg Hrest]%Forall_cons _.
  destruct rest as [|seg' rest'].
  - cbn. by apply split_one.
  - rewrite join_segments_cons by done. rewrite split_app_sep, (split_one seg) by done.
    by rewrite IH.
Qed.

Lemma join_segments_app (l1 l2 : list string) :
  l1 <> [] -> l2 <> [] ->
  join_segments (l1 ++ l2) = join_segments l1 +:+ "/" +:+ join_segments l2.
Proof.
  induction l1 as [|seg rest IH]; [done|]. intros _ Hl2.
  destruct rest as [|seg' rest'].
  - cbn [app]. by rewrite join_segments_cons.
  - cbn [app]. rewrite (join_segments_cons seg) by done.
    rewrite (join_segments_cons seg (seg' :: rest')) by done.
    cbn [app] in IH. rewrite IH by done. by rewrite !string_app_assoc.
Qed.

(** *** Normalization *)

Lemma proper_not_special (seg : string) :
  proper_segment seg ->
  String.eqb seg "" || String.eqb seg "." = false /\ String.eqb seg ".." = false.
Proof.
  intros (_ & H1 & H2 & H3). split.
  - apply orb_false_intro; by apply String.eqb_neq.
  - by apply String.eqb_neq.
Qed.

Lemma normalize_segments_proper allow (segments : list string) :
  forall res, Forall proper_segment segments ->
    normalize_segments allow res segments = reverse res ++ segments.
Proof.
  induction segments as [|seg rest IH]; intros res Hall; cbn [normalize_segments].
  - by rewrite app_nil_r.
  - apply Forall_cons in Hall as [Hseg Hrest].
    destruct (proper_not_special seg Hseg) as [-> ->].
    rewrite IH by done. by rewrite reverse_cons, <- app_assoc.
Qed.

Lemma normalize_segments_output (segments : list string) :
  forall res, Forall proper_segment res ->
    Forall (fun seg => has_slash seg = false) segments ->
    Forall proper_segment (normalize_segments false res segments).
Proof.
  induction segments as [|seg rest IH]; intros res Hres Hall; cbn [normalize_segments].
  - by apply Forall_reverse.
  - apply Forall_cons in Hall as [Hseg Hrest].
    destruct (String.eqb_spec seg "") as [->|Hne1]; [by apply IH|].
    destruct (String.eqb_spec seg ".") as [->|Hne2]; [by apply IH|]. cbn [orb].
    destruct (String.eqb_spec seg "..") as [->|Hne3].
    + destruct res as [|top res']; [by apply IH|].
      apply Forall_cons in Hres as [Htop Hres'].
      destruct (String.eqb top ".."); apply IH; try done. by constructor.
    + apply IH; [|done]. constructor; [by repeat split|done].
Qed.

Lemma split_absolute (segments : list string) :
  Forall proper_segment segments -> segments <> [] ->
  split (absolute segments) = "" :: segments.
Proof.
  intros Hall Hne. unfold absolute. rewrite string_app_cons, string_app_nil_l. cbn.
  rewrite split_join; [done| |done].
  eapply Forall_impl; [done|]. by intros seg [? _].
Qed.

Lemma segments_of_absolute (segments : list string) :
  Forall proper_segment segments -> segments_of (absolute segments) = segments.
Proof.
  intros Hall. unfold segments_of. destruct segments as [|seg rest]; [done|].
  rewrite split_absolute by done.
  change (normalize_segments false [] ("" :: seg :: rest))
    with (normalize_segments false [] (seg :: rest)).
  by rewrite normalize_segments_proper.
Qed.

(** A resolved path is the absolute path of its segments, all proper. *)
Lemma resolve_absolute (cwd p : string) :
  Forall proper_segment (segments_of (resolve cwd p)) /\
  resolve cwd p = absolute (segments_of (resolve cwd p)).
Proof.
  unfold resolve, normalizeString.
  set (full := if String.eqb p "" then _ else _).
  assert (Forall proper_segment (normalize_segments false [] (split full))) as Hall.
  { apply normalize_segments_output; [constructor|apply split_slash_free]. }
  fold (absolute (normalize_segments false [] (split full))).
  by rewrite segments_of_absolute.
Qed.

Lemma absolute_inj (l1 l2 : list string) :
  Forall proper_segment l1 -> Forall proper_segment l2 ->
  absolute l1 = absolute l2 -> l1 = l2.
Proof.
  intros H1 H2 Heq. by rewrite <- (segments_of_absolute l1), <- (segments_of_absolute l2), Heq.
Qed.

(** Below a base other than the root, "starts with the base and a
    separator" is "continues the segments of the base". *)
Lemma prefix_absolute (base target : list string) :
  Forall proper_segment base -> Forall proper_segment target -> base <> [] ->
  String.prefix (absolute base +:+ sep) (absolute target) = true <->
  exists more, more <> [] /\ target = base ++ more.
Proof.
  intros Hb Ht Hne. rewrite prefix_spec. split.
  - intros [rest Hrest].
    assert (split (absolute target) = ("" :: base) ++ split rest) as Hsplit.
    { rewrite Hrest. unfold sep. rewrite string_app_assoc, split_app_sep.
      by rewrite split_absolute. }
    destruct target as [|seg target'].
    + cbn in Hsplit. injection Hsplit as Hsplit.
      destruct base as [|b base']; [done|]. pose proof (split_not_nil rest).
      destruct base', (split rest); done.
    + rewrite split_absolute in Hsplit by done. injection Hsplit as Hsplit.
      exists (split rest). split; [apply split_not_nil|done].
  - intros (more & Hmore & ->). exists (join_segments more).
    unfold absolute, sep. rewrite join_segments_app by done.
    by rewrite !string_app_assoc.
Qed.

(** At the root the test asks for a second separator, which no resolved
    path has. *)
Lemma prefix_root (target : list string) :
  Forall proper_segment target ->
  String.prefix (absolute [] +:+ sep) (absolute target) = false.
Proof.
  intros Ht. destruct target as [|seg rest]; [done|].
  apply Forall_cons in Ht as [(Hslash & Hne & _) _]. unfold absolute.
  assert (exists c tail, join_segments (seg :: rest) = String c tail /\ c <> "/"%char)
    as (c & tail & -> & Hc).
  { destruct seg as [|c seg]; [done|]. cbn in Hslash.
    apply orb_false_elim in Hslash as [Hc _].
    exists c. destruct rest.
    - exists seg. split; [done|]. intros ->. done.
    - rewrite join_segments_cons by done. eexists. split; [by rewrite string_app_cons|].
      intros ->. done. }
  apply not_true_is_false. intros [r Hr]%prefix_spec.
  change (String "/" (String c tail) = String "/" (String "/" r)) in Hr.
  injection Hr as -> _. done.
Qed.

(** *** Paths below a resolved directory *)

Lemma join_segments_nonempty (segments : list string) :
  Forall proper_segment segments -> segments <> [] -> join_segments segments <> "".
Proof.
  intros Hall Hne. destruct segments as [|seg rest]; [done|].
  apply Forall_cons in Hall as [(_ & Hseg & _) _].
  destruct seg as [|c seg]; [done|]. by destruct rest.
Qed.


Lemma normalize_segments_proper_app allow (segments rest : list string) :
  forall res, Forall proper_segment segments ->
    normalize_segments allow res (segments ++ rest)
    = normalize_segments allow (reverse segments ++ res) rest.
Proof.
  induction segments as [|seg more IH]; intros res Hall; [done|].
  apply Forall_cons in Hall as [Hseg Hmore]. cbn [app normalize_segments].
  destruct (proper_not_special seg Hseg) as [-> ->].
  rewrite IH by done. by rewrite reverse_cons, <- app_assoc.
Qed.

Lemma split_with_trailing_slash (segments : list string) :
  Forall proper_segment segments ->
  normalize_segments false [] (split (absolute segments +:+ "/")) = segments.
Proof.
  intros Hall. destruct segments as [|seg rest]; [done|].
  rewrite <- (string_app_nil_r (absolute (seg :: rest) +:+ "/")).
  rewrite string_app_assoc, split_app_sep, split_absolute by done.
  change (normalize_segments false [] (("" :: seg :: rest) ++ split ""))
    with (normalize_segments false [] ((seg :: rest) ++ [""])).
  rewrite normalize_segments_proper_app by done. rewrite app_nil_r.
  change (reverse (reverse (seg :: rest)) = seg :: rest). apply reverse_involutive.
Qed.

Lemma absolute_not_empty (segments : list string) : String.eqb (absolute segments) "" = false.
Proof. done. Qed.

(** Resolving a resolved path changes nothing. *)
Lemma resolve_absolute_id (cwd : string) (segments : list string) :
  Forall proper_segment segments -> resolve cwd (absolute segments) = absolute segments.
Proof.
  intros Hall. unfold resolve, normalizeString.
  rewrite absolute_not_empty.
  change (starts_with_slash (absolute segments)) with true. cbn match.
  by rewrite split_with_trailing_slash.
Qed.

Lemma ends_with_slash_app (a b : string) :
  b <> "" -> ends_with_slash (a +:+ b) = ends_with_slash b.
Proof.
  intros Hb. induction a as [|c a IH]; [done|]. rewrite string_app_cons. cbn.
  rewrite IH. destruct (a +:+ b) eqn:Hab; [|done].
  destruct a, b; done.
Qed.

Lemma slash_free_no_trailing (s : string) :
  has_slash s = false -> ends_with_slash s = false.
Proof.
  induction s as [|c s IH]; [done|]. cbn. intros [Hc Hs]%orb_false_elim.
  destruct s; [done|]. by apply IH.
Qed.

(** [path.join] of a resolved directory and a file name. *)
Lemma join_absolute (base : list string) (name : string) :
  Forall proper_segment base -> proper_segment name ->
  join (absolute base) name = absolute (base ++ [name]).
Proof.
  intros Hbase Hname. pose proof Hname as (Hslash & Hne & _). unfold join.
  rewrite absolute_not_empty. rewrite (proj2 (String.eqb_neq _ _) Hne).
  unfold normalize.
  assert (String.eqb (absolute base +:+ "/" +:+ name) "" = false) as -> by done.
  change (starts_with_slash (absolute base +:+ "/" +:+ name)) with true.
  rewrite <- string_app_assoc, ends_with_slash_app by done.
  rewrite slash_free_no_trailing by done. cbn [negb].
  assert (normalizeString ((absolute base +:+ "/") +:+ name) false
          = join_segments (base ++ [name])) as ->.
  { unfold normalizeString. f_equal. rewrite string_app_assoc, split_app_sep.
    rewrite (split_one name) by done.
    destruct base as [|b base'].
    { change (normalize_segments false [] [name] = [name]).
      by rewrite normalize_segments_proper by (by constructor). }
    rewrite split_absolute by done.
    change (normalize_segments false [] (("" :: b :: base') ++ [name]))
      with (normalize_segments false [] ((b :: base') ++ [name])).
    rewrite normalize_segments_proper; [done|].
    apply Forall_app. split; [done|by constructor]. }
  destruct (String.eqb_spec (join_segments (base ++ [name])) "") as [Hempty|_]; [|done].
  apply join_segments_nonempty in Hempty; [done| |by destruct base].
  apply Forall_app. split; [done|by constructor].
Qed.

Lemma drop_common_app (base rest : list string) :
  drop_common base (base ++ rest) = ([], rest).
Proof.
  induction base as [|b base IH]; [by destruct rest|]. cbn.
  by rewrite String.eqb_refl.
Qed.

(** [path.relative] from a resolved directory to a file below it. *)
Lemma relative_absolute (cwd : string) (base rest : list string) :
  Forall proper_segment base -> Forall proper_segment rest -> rest <> [] ->
  relative cwd (absolute base) (absolute (base ++ rest)) = join_segments rest.
Proof.
  intros Hbase Hrest Hne.
  assert (Forall proper_segment (base ++ rest)) as Hall by (by apply Forall_app).
  assert (absolute base <> absolute (base ++ rest)) as Hdiff.
  { intros Heq%absolute_inj; [|done..].
    rewrite <- (app_nil_r base) in Heq at 1. by apply app_inv_head in Heq. }
  unfold relative. rewrite (proj2 (String.eqb_neq _ _) Hdiff).
  rewrite !resolve_absolute_id by done.
  rewrite (proj2 (String.eqb_neq _ _) Hdiff).
  rewrite !segments_of_absolute by done.
  by rewrite drop_common_app.
Qed.

Lemma absolute_below (base rest : list string) :
  rest <> [] -> absolute (base ++ rest) = below base +:+ join_segments rest.
Proof.
  intros Hne. destruct base as [|b base']; [done|].
  unfold below, absolute. rewrite join_segments_app by done.
  by rewrite !string_app_assoc.
Qed.

Lemma compare_app (prefix a b : string) :
  String.compare (prefix +:+ a) (prefix +:+ b) = String.compare a b.
Proof.
  induction prefix as [|c prefix IH]; [done|]. rewrite !string_app_cons. cbn.
  assert (Ascii.compare c c = Eq) as -> by (unfold Ascii.compare; apply N.compare_refl).
  exact IH.
Qed.

Lemma le_app (prefix a b : string) :
  String.le (prefix +:+ a) (prefix +:+ b) <-> String.le a b.
Proof. unfold String.le, String.leb. by rewrite compare_app. Qed.

(** *** Joining a directory and a file name *)

Lemma proper_kept (s : string) : proper_segment s -> kept_segment s.
Proof. intros (? & ? & ? & ?). by repeat split. Qed.

Lemma normalize_segments_app allow (first rest : list string) :
  forall res,
    normalize_segments allow res (first ++ rest)
    = normalize_segments allow (reverse (normalize_segments allow res first)) rest.
Proof.
  induction first as [|seg first IH]; intros res.
  - cbn [app normalize_segments]. by rewrite reverse_involutive.
  - cbn [app normalize_segments].
    destruct (String.eqb seg "" || String.eqb seg "."); [apply IH|].
    destruct (String.eqb seg ".."); [|apply IH].
    destruct res as [|top res']; [apply IH|].
    destruct (String.eqb top ".."); apply IH.
Qed.

Lemma normalize_segments_snoc allow (segments : list string) (name : string) res :
  proper_segment name ->
  normalize_segments allow res (segments ++ [name])
  = normalize_segments allow res segments ++ [name].
Proof.
  intros Hname. rewrite normalize_segments_app.
  rewrite (normalize_segments_proper allow [name]) by (by constructor).
  by rewrite reverse_involutive.
Qed.

Lemma normalize_segments_kept allow (segments : list string) :
  forall res, Forall kept_segment res ->
    Forall (fun seg => has_slash seg = false) segments ->
    Forall kept_segment (normalize_segments allow res segments).
Proof.
  induction segments as [|seg rest IH]; intros res Hres Hsegs.
  - cbn. by apply Forall_reverse.
  - apply Forall_cons in Hsegs as [Hseg Hrest]. cbn [normalize_segments].
    destruct (String.eqb_spec seg "") as [->|Hne]; [by apply IH|].
    destruct (String.eqb_spec seg ".") as [->|Hnd]; [by apply IH|]. cbn [orb].
    destruct (String.eqb_spec seg "..") as [->|Hndd].
    + destruct res as [|top res'].
      * apply IH; [|done]. destruct allow; [|done]. by repeat constructor.
      * destruct (String.eqb top "..").
        -- apply IH; [|done]. destruct allow; [|done]. constructor; [|done].
           by repeat split.
        -- apply IH; [|done]. by apply Forall_cons in Hres as [_ ?].
    + apply IH; [|done]. constructor; [|done]. by repeat split.
Qed.

(** What [normalizeString] has produced, it leaves as it is, wherever it
    occurs in a longer path. *)
Lemma normalize_segments_absorb allow (outer rest : list string) (segments : list string) :
  Forall (fun seg => has_slash seg = false) segments ->
  forall res, Forall kept_segment res ->
    normalize_segments allow outer (normalize_segments true res segments ++ rest)
    = normalize_segments allow outer (reverse res ++ segments ++ rest).
Proof.
  induction 1 as [|seg segments Hseg _ IH]; intros res Hres; [done|].
  cbn [normalize_segments].
  assert (forall mid, normalize_segments allow outer (reverse res ++ seg :: mid)
                      = normalize_segments allow
                          (reverse (normalize_segments allow outer (reverse res))) (seg :: mid))
    as Hsplit by (intros mid; apply normalize_segments_app).
  destruct (String.eqb seg "" || String.eqb seg ".") eqn:Hskip.
  - rewrite IH by done. cbn [app]. rewrite Hsplit. cbn [normalize_segments]. rewrite Hskip.
    by rewrite <- normalize_segments_app.
  - destruct (String.eqb_spec seg "..") as [->|Hndd].
    + destruct res as [|top res'].
      * rewrite IH by (by repeat constructor). done.
      * destruct (String.eqb_spec top "..") as [->|Htop].
        -- rewrite IH by (constructor; [by repeat split|done]).
           rewrite (reverse_cons (".." :: res')). by rewrite <- app_assoc.
        -- apply Forall_cons in Hres as [(Hslash & Hne & Hnd) Hres].
           rewrite IH by done. rewrite reverse_cons, <- !app_assoc. cbn [app].
           rewrite (normalize_segments_app allow (reverse res') (top :: ".." :: _)).
           cbn [normalize_segments].
           rewrite (proj2 (String.eqb_neq top "")), (proj2 (String.eqb_neq top ".")) by done.
           rewrite (proj2 (String.eqb_neq top "..")) by done. cbn [orb].
           rewrite String.eqb_refl.
           by rewrite <- normalize_segments_app.
    + rewrite IH.
      * rewrite reverse_cons, <- app_assoc. done.
      * constructor; [|done]. apply orb_false_iff in Hskip as [H1 H2].
        apply String.eqb_neq in H1, H2. done.
Qed.

Lemma join_segments_snoc (segments : list string) (name : string) :
  join_segments (segments ++ [name]) = with_separator segments +:+ name.
Proof.
  destruct segments as [|seg rest]; [done|].
  rewrite join_segments_app by done. cbn [with_separator join_segments].
  by rewrite !string_app_assoc.
Qed.

Lemma string_app_not_empty (a b : string) : b <> "" -> a +:+ b <> "".
Proof. intros Hb. destruct a; [done|]. by rewrite string_app_cons. Qed.

Lemma starts_with_slash_app (a b : string) :
  a <> "" -> starts_with_slash (a +:+ b) = starts_with_slash a.
Proof. by destruct a. Qed.

Lemma slash_free_no_leading (s : string) : has_slash s = false -> starts_with_slash s = false.
Proof. destruct s as [|c s]; [done|]. cbn. by intros [? _]%orb_false_iff. Qed.

Lemma kept_segments_no_leading (segments : list string) (name : string) :
  Forall kept_segment segments -> proper_segment name ->
  starts_with_slash (join_segments (segments ++ [name])) = false.
Proof.
  intros Hsegs (Hname & Hne & _). destruct segments as [|seg rest].
  - by apply slash_free_no_leading.
  - apply Forall_cons in Hsegs as [(Hseg & Hsne & _) _].
    rewrite <- app_comm_cons, join_segments_cons by (by destruct rest).
    rewrite starts_with_slash_app by done. by apply slash_free_no_leading.
Qed.

Lemma kept_segments_kept (dir : string) : Forall kept_segment (kept_segments dir).
Proof. apply normalize_segments_kept; [constructor|apply split_slash_free]. Qed.

(** [path.join(dir, name)] for a file name [name]. *)
Lemma join_file_name (dir name : string) :
  proper_segment name ->
  join dir name
  = (if starts_with_slash dir then "/" else "") +:+ join_segments (kept_segments dir ++ [name]).
Proof.
  intros (Hslash & Hne & Hnd & Hndd).
  assert (proper_segment name) as Hname by done.
  assert (String.eqb name "" = false) as Hne' by (by apply String.eqb_neq).
  assert (join_segments (kept_segments dir ++ [name]) <> "") as Hfull.
  { rewrite join_segments_snoc. by apply string_app_not_empty. }
  unfold join. rewrite Hne'.
  destruct (String.eqb_spec dir "") as [->|Hdir].
  - unfold normalize, normalizeString. rewrite Hne'.
    rewrite (slash_free_no_leading name), (slash_free_no_trailing name) by done.
    cbn [negb]. rewrite split_one by done.
    rewrite (normalize_segments_proper true [name]) by (by constructor).
    cbn. by rewrite Hne'.
  - unfold normalize, normalizeString.
    rewrite (proj2 (String.eqb_neq (dir +:+ "/" +:+ name) ""))
      by (apply string_app_not_empty, string_app_not_empty; done).
    rewrite starts_with_slash_app by done.
    rewrite split_app_sep, (split_one name), normalize_segments_snoc by done.
    fold (kept_segments dir).
    rewrite (proj2 (String.eqb_neq _ "") Hfull).
    rewrite ends_with_slash_app by (by apply string_app_not_empty).
    rewrite ends_with_slash_app, (slash_free_no_trailing name) by done.
    by destruct (starts_with_slash dir).
Qed.

Lemma join_proper (dir name : string) :
  proper_segment name -> join dir name = dir_prefix dir +:+ name.
Proof.
  intros Hname. rewrite join_file_name, join_segments_snoc by done. unfold dir_prefix.
  by rewrite string_app_assoc.
Qed.

Lemma starts_with_slash_join (dir name : string) :
  proper_segment name -> starts_with_slash (join dir name) = starts_with_slash dir.
Proof.
  intros Hname. rewrite join_file_name by done. destruct (starts_with_slash dir); [done|].
  rewrite string_app_nil_l. apply kept_segments_no_leading; [apply kept_segments_kept|done].
Qed.

Lemma split_join_file_name (dir name : string) :
  proper_segment name ->
  split (join dir name)
  = (if starts_with_slash dir then [""] else []) ++ kept_segments dir ++ [name].
Proof.
  intros Hname.
  assert (split (join_segments (kept_segments dir ++ [name])) = kept_segments dir ++ [name])
    as Hsplit.
  { apply split_join; [|by destruct (kept_segments dir)].
    apply Forall_app. split; [|by constructor; [apply Hname|]].
    eapply Forall_impl; [apply kept_segments_kept|]. by intros ? [? _]. }
  rewrite join_file_name by done. destruct (starts_with_slash dir).
  - change ("/" +:+ ?s) with ("" +:+ "/" +:+ s). by rewrite split_app_sep, Hsplit.
  - by rewrite string_app_nil_l.
Qed.

Lemma kept_segments_normal (dir name : string) :
  proper_segment name ->
  normalize_segments (negb (starts_with_slash dir)) [] (kept_segments dir ++ [name])
  = kept_segments dir ++ [name].
Proof.
  intros Hname. rewrite normalize_segments_snoc by done. f_equal. unfold kept_segments.
  destruct (starts_with_slash dir); cbn [negb].
  - apply (normalize_segments_proper false), normalize_segments_output;
      [constructor|apply split_slash_free].
  - rewrite <- (app_nil_r (normalize_segments true [] (split dir))).
    rewrite normalize_segments_absorb; [|apply split_slash_free|constructor].
    change (reverse (@nil string)) with (@nil string). cbn [app]. by rewrite !app_nil_r.
Qed.

Lemma kept_segments_join (dir name : string) :
  proper_segment name -> kept_segments (join dir name) = kept_segments dir ++ [name].
Proof.
  intros Hname. unfold kept_segments at 1.
  rewrite starts_with_slash_join, split_join_file_name by done.
  pose proof (kept_segments_normal dir name Hname) as Hnormal.
  by destruct (starts_with_slash dir).
Qed.

Lemma dir_prefix_join (dir name : string) :
  proper_segment name -> dir_prefix (join dir name) = join dir name +:+ "/".
Proof.
  intros Hname. unfold dir_prefix.
  rewrite starts_with_slash_join, kept_segments_join, join_file_name by done.
  unfold with_separator.
  destruct (kept_segments dir ++ [name]) eqn:Heq; [by destruct (kept_segments dir)|].
  by rewrite string_app_assoc.
Qed.

(** *** Resolving a joined path *)

Lemma normalize_segments_trailing allow (segments : list string) res :
  normalize_segments allow res (segments ++ [""]) = normalize_segments allow res segments.
Proof. rewrite normalize_segments_app. cbn. by rewrite reverse_involutive. Qed.

(** The segments of [path.resolve(p)]: those of [p], after those of the
    working directory when [p] is relative. *)
Lemma segments_of_resolve (cwd p : string) :
  segments_of (resolve cwd p)
  = normalize_segments false
      (reverse (normalize_segments false []
                  (if starts_with_slash p then [] else split cwd)))
      (split p).
Proof.
  unfold resolve.
  match goal with
  | |- segments_of ("/" +:+ normalizeString ?full false) = _ =>
      change ("/" +:+ normalizeString full false)
        with (absolute (normalize_segments false [] (split full)))
  end.
  rewrite segments_of_absolute
    by (apply normalize_segments_output; [constructor|apply split_slash_free]).
  destruct (String.eqb_spec p "") as [->|Hp].
  - cbn [starts_with_slash split].
    rewrite <- (string_app_nil_r (cwd +:+ "/")), string_app_assoc, split_app_sep.
    by rewrite normalize_segments_app.
  - destruct (starts_with_slash p).
    + rewrite <- (string_app_nil_r (p +:+ "/")), string_app_assoc, split_app_sep.
      by rewrite normalize_segments_trailing.
    + rewrite split_app_sep.
      rewrite <- (string_app_nil_r (p +:+ "/")), string_app_assoc, split_app_sep.
      by rewrite normalize_segments_app, normalize_segments_trailing.
Qed.

(** A file name joined to a directory resolves to the directory's segments
    and the name. *)
Lemma resolve_join (cwd dir name : string) :
  proper_segment name ->
  segments_of (resolve cwd (join dir name)) = segments_of (resolve cwd dir) ++ [name].
Proof.
  intros Hname. rewrite !segments_of_resolve.
  rewrite starts_with_slash_join, split_join_file_name by done.
  pose proof (kept_segments_normal dir name Hname) as Hnormal.
  unfold kept_segments in *.
  destruct (starts_with_slash dir); cbn [negb] in *.
  - change (reverse (normalize_segments false [] [])) with (@nil string).
    cbn [app]. change (normalize_segments false [] ("" :: ?l)) with (normalize_segments false [] l).
    by rewrite Hnormal.
  - cbn [app]. rewrite normalize_segments_absorb; [|apply split_slash_free|constructor].
    change (reverse (@nil string)) with (@nil string). cbn [app].
    by rewrite normalize_segments_snoc.
Qed.

(** [path.relative(from, to)] when [to] resolves below [from]. *)
Lemma relative_below (cwd from to : string) (rest : list string) :
  segments_of (resolve cwd to) = segments_of (resolve cwd from) ++ rest ->
  rest <> [] ->
  relative cwd from to = join_segments rest.
Proof.
  intros Hto Hrest. unfold relative.
  destruct (resolve_absolute cwd from) as [Hfrom Hrf].
  destruct (resolve_absolute cwd to) as [Hto' Hrt].
  assert (resolve cwd from <> resolve cwd to) as Hne.
  { rewrite Hrf, Hrt. intros Heq%absolute_inj; [|done..].
    rewrite Hto in Heq. apply Hrest.
    apply (f_equal length) in Heq. rewrite length_app in Heq.
    apply length_zero_iff_nil. lia. }
  destruct (String.eqb_spec from to) as [->|_]; [done|].
  rewrite (proj2 (String.eqb_neq _ _) Hne), Hto, drop_common_app. done.
Qed.

End PathFacts.

(** ** utils.ts: path validation *)

Module UtilsFacts.
Import Path Utils PathFacts.

Lemma validate_accepts (cwd basePath targetPath : string) errorMessage :
  validatePathWithinBase cwd basePath targetPath errorMessage = Ok tt <->
  String.prefix (resolve cwd basePath +:+ sep) (resolve cwd targetPath) = true \/
  resolve cwd targetPath = resolve cwd basePath.
Proof.
  unfold validatePathWithinBase.
  destruct (String.prefix _ _); cbn; [by split; auto|].
  destruct (String.eqb_spec (resolve cwd targetPath) (resolve cwd basePath)); cbn.
  - by split; auto.
  - split; [done|]. by intros [?|?].
Qed.

Lemma validate_total (cwd basePath targetPath : string) errorMessage :
  validatePathWithinBase cwd basePath targetPath errorMessage = Ok tt \/
  exists t, validatePathWithinBase cwd basePath targetPath errorMessage = Throw t.
Proof. unfold validatePathWithinBase. destruct (_ && _); eauto. Qed.

(** C10: [validatePathWithinBase] throws exactly when the resolved target is
    neither the resolved base nor strictly inside it under a separator
    boundary; the base itself is accepted; a sibling whose name extends the
    name of the base is rejected.  For a base other than the root, being
    accepted is the same as continuing the path segments of the base. *)
Theorem validatePathWithinBase_exact (cwd basePath targetPath : string) errorMessage :
  let resolvedBase := resolve cwd basePath in
  let resolvedTarget := resolve cwd targetPath in
  ((exists t, validatePathWithinBase cwd basePath targetPath errorMessage = Throw t) <->
   resolvedTarget <> resolvedBase /\ ~ strictly_inside resolvedBase resolvedTarget) /\
  validatePathWithinBase cwd basePath basePath errorMessage = Ok tt /\
  (exists t, validatePathWithinBase cwd "/a/b" "/a/bc" errorMessage = Throw t) /\
  (segments_of resolvedBase <> [] ->
   (validatePathWithinBase cwd basePath targetPath errorMessage = Ok tt <->
    segments_of resolvedBase `prefix_of` segments_of resolvedTarget)).
Proof.
  intros rb rt.
  destruct (resolve_absolute cwd basePath) as [Hb Hrb].
  destruct (resolve_absolute cwd targetPath) as [Ht Hrt].
  fold rb in Hb, Hrb. fold rt in Ht, Hrt.
  pose proof (validate_accepts cwd basePath targetPath errorMessage) as Hacc.
  fold rb rt in Hacc.
  assert (String.prefix (rb +:+ sep) rt = true -> strictly_inside rb rt) as Hstrict.
  { intros Hpre. destruct (segments_of rb) as [|b bs] eqn:Hsegs.
    - rewrite Hrb, Hrt, prefix_root in Hpre; done.
    - rewrite Hrb, Hrt in Hpre. apply prefix_absolute in Hpre as (more & Hmore & Heq); [|done..].
      exists (join_segments more). split.
      + apply join_segments_nonempty; [|done]. rewrite Heq in Ht.
        by apply Forall_app in Ht as [_ ?].
      + rewrite Hrt, Hrb, Heq. unfold absolute, sep.
        rewrite join_segments_app by done. by rewrite !string_app_assoc. }
  split; [split|split; [|split; [|intros Hroot; split]]].
  - intros [t Hthrow]. split.
    + intros Heq.
      assert (validatePathWithinBase cwd basePath targetPath errorMessage = Ok tt)
        by (apply Hacc; auto). congruence.
    + intros (rest & _ & Hrest).
      assert (validatePathWithinBase cwd basePath targetPath errorMessage = Ok tt)
        as Hok; [|congruence].
      apply Hacc. left. apply prefix_spec. exists rest. by rewrite string_app_assoc.
  - intros [Hne Hout].
    destruct (validate_total cwd basePath targetPath errorMessage) as [Hok|?]; [|done].
    apply Hacc in Hok as [Hpre|Heq]; [|done]. by destruct Hout; apply Hstrict.
  - apply validate_accepts. by right.
  - unfold validatePathWithinBase. eexists. vm_compute. reflexivity.
  - intros [Hpre|Heq]%Hacc.
    + rewrite Hrb, Hrt in Hpre. apply prefix_absolute in Hpre as (more & _ & ->); [|done..].
      by apply prefix_app_r.
    + by rewrite Heq.
  - intros [more Hmore]. apply Hacc. destruct more as [|m more'].
    + right. rewrite Hrt, Hrb, Hmore. by rewrite app_nil_r.
    + left. rewrite Hrb, Hrt at 1. apply prefix_absolute; [done..|].
      by exists (m :: more').
Qed.

(** Below the root nothing but the root itself is accepted: the test asks
    for the base followed by a separator, and the root already ends in
    one. *)
Lemma validatePathWithinBase_root_base (cwd basePath targetPath : string) errorMessage :
  segments_of (resolve cwd basePath) = [] ->
  validatePathWithinBase cwd basePath targetPath errorMessage = Ok tt <->
  segments_of (resolve cwd targetPath) = [].
Proof.
  intros Hroot.
  destruct (resolve_absolute cwd basePath) as [Hb Hrb].
  destruct (resolve_absolute cwd targetPath) as [Ht Hrt].
  rewrite validate_accepts. split.
  - intros [Hpre|Heq].
    + by rewrite Hrb, Hrt, Hroot, prefix_root in Hpre.
    + by rewrite Heq.
  - intros Htarget. right. by rewrite Hrb, Hrt, Hroot, Htarget.
Qed.

(** *** [withErrorHandling] *)

(** X5: [withErrorHandling] of utils.ts is [wrapWithErrorHandling] of
    retry.ts with the default code, for a function without arguments; so it
    throws nothing but a [SkillManagerError], and a [SkillManagerError]
    thrown by the operation keeps its own message and code. *)
Theorem withErrorHandling_as_wrapper {World T : Type}
    (operation : World -> outcome T * World) (message : string) (w : World) :
  withErrorHandling operation message w
  = Retry.wrapWithErrorHandling (fun _ : unit => operation) message None tt w /\
  (forall t, (withErrorHandling operation message w).1 = Throw t ->
     exists m c context cause, t = ThrowError (SkillManagerError m c context cause) /\
       ((operation w).1 = Throw t \/ m = message /\ c = FILE_SYSTEM_ERROR)) /\
  (forall m c context cause,
     (operation w).1 = Throw (ThrowError (SkillManagerError m c context cause)) ->
     (withErrorHandling operation message w).1
     = Throw (ThrowError (SkillManagerError m c context cause))).
Proof.
  unfold withErrorHandling, Retry.wrapWithErrorHandling.
  destruct (operation w) as [[v|[[m|m c ctx cause]|repr]] w']; cbn;
    (split; [reflexivity|]); (split; [|congruence]); intros t [= <-]; eauto 12.
Qed.

End UtilsFacts.

(** ** utils.ts: the concurrency limiter *)

Module LimiterFacts.
Import Limiter.

Section Runs.

Context {T R : Type}.
Variable fn : T -> outcome R.
Variable items : list T.
Variable concurrency : Z.

Abbreviation machine := (control T R * store R)%type.
Abbreviation in_completion_order := (Limiter.in_completion_order fn items).
Abbreviation waits_for_pending := (Limiter.waits_for_pending (T:=T) (R:=R)).
Abbreviation never_rejected := (Limiter.never_rejected (T:=T) (R:=R)).
Abbreviation aligned := (Limiter.aligned fn items).

Lemma await_all_store (st : store R) :
  (await_all (T:=T) st).2 = st /\
  forall seen, (await_all (T:=T) st).1 = Returned seen -> seen = results st.
Proof.
  unfold await_all. destruct (all _ _) as [[|t]|]; cbn; split; try done.
  by intros seen [= <-].
Qed.

Lemma run_loop_store (rest : list T) :
  forall next (st : store R),
    let cs := run_loop concurrency next rest st in
    results cs.2 = results st /\ completed cs.2 = completed st /\
    forall seen, cs.1 = Returned seen -> seen = results st.
Proof.
  induction rest as [|item rest IH]; intros next st; cbn [run_loop].
  - destruct (await_all_store st) as [-> Hseen]. auto.
  - cbn zeta. destruct (_ >=? _).
    + destruct (race _ _) as [[|t]|]; cbn; [|done..].
      match goal with |- context [run_loop _ _ _ ?s] => specialize (IH (S next) s) end.
      cbn in IH. exact IH.
    + match goal with |- context [run_loop _ _ _ ?s] => specialize (IH (S next) s) end.
      cbn in IH. exact IH.
Qed.

Lemma resume_store (c : control T R) (st : store R) :
  (forall seen, c = Returned seen -> seen `prefix_of` results st) ->
  let cs := resume concurrency c st in
  results cs.2 = results st /\ completed cs.2 = completed st /\
  forall seen, cs.1 = Returned seen -> seen `prefix_of` results st.
Proof.
  intros Hc. destruct c as [promise next rest| |seen0|t]; cbn [resume].
  - destruct (race _ _) as [[|t]|]; cbn; [|done..].
    destruct (run_loop_store rest next (after_race promise st)) as (Hr & Hd & Hs).
    cbn in *. repeat split; [done..|]. by intros seen ->%Hs.
  - destruct (await_all_store st) as [-> Hs]. repeat split. by intros seen ->%Hs.
  - done.
  - done.
Qed.

Lemma settle_store (k : nat) (st : store R) :
  results st = results_in_order fn items (completed st) ->
  results (settle fn items k st) = results_in_order fn items (completed (settle fn items k st)) /\
  results st `prefix_of` results (settle fn items k st).
Proof.
  intros Hst. unfold settle.
  destruct (promises st !! k) as [[| |]|]; try done.
  destruct (items !! k) as [item|] eqn:Hitem; try done.
  destruct (fn item) as [result|t] eqn:Hfn; cbn.
  - unfold results_in_order in *. rewrite omap_app, <- Hst. cbn.
    unfold pushed. rewrite Hitem, Hfn. split; [done|]. by apply prefix_app_r.
  - unfold results_in_order in *. rewrite omap_app, <- Hst. cbn.
    unfold pushed. rewrite Hitem, Hfn. by rewrite app_nil_r.
Qed.

Lemma run_events_in_order (schedule : list nat) :
  forall cs : machine,
    in_completion_order cs ->
    in_completion_order (run_events fn items concurrency schedule cs).
Proof.
  induction schedule as [|k later IH]; intros [c st] [Hres Hseen]; [done|].
  cbn [run_events]. apply IH. cbn in *.
  destruct (settle_store k st Hres) as [Hres' Hpre].
  destruct (resume_store c (settle fn items k st)) as (Hr & Hd & Hs).
  { intros seen Hc. etrans; [by apply Hseen|done]. }
  split; [by rewrite Hr, Hd|]. intros seen Hc. rewrite Hr. by apply Hs.
Qed.

Lemma pLimit_in_order (schedule : list nat) :
  in_completion_order (pLimit fn items concurrency schedule).
Proof.
  apply run_events_in_order.
  destruct (run_loop_store items 0%nat initial) as (Hr & Hd & Hs).
  split; [by rewrite Hr, Hd|]. intros seen ->%Hs. by rewrite Hr.
Qed.

(** *** Progress: the body of [pLimit] waits only for pending promises *)

Lemma race_pending (ps : list promise_state) (ex : list nat) :
  race ps ex = None -> ex <> [] -> Forall (fun k => (k < length ps)%nat) ex ->
  exists k, k ∈ ex /\ ps !! k = Some Pending.
Proof.
  induction ex as [|k ex IH]; intros Hrace Hne Hin; [done|].
  apply Forall_cons in Hin as [Hk Hin]. cbn in Hrace. unfold state_of in Hrace.
  destruct (lookup_lt_is_Some_2 ps k Hk) as [p Hp]. rewrite Hp in Hrace. cbn in Hrace.
  destruct p; try done. exists k. split; [left|done].
Qed.

Lemma all_pending (ps : list promise_state) (ex : list nat) :
  all ps ex = None -> Forall (fun k => (k < length ps)%nat) ex ->
  exists k, k ∈ ex /\ ps !! k = Some Pending.
Proof.
  induction ex as [|k ex IH]; intros Hall Hin; [done|].
  apply Forall_cons in Hin as [Hk Hin]. cbn in Hall. unfold state_of in Hall.
  destruct (lookup_lt_is_Some_2 ps k Hk) as [p Hp]. rewrite Hp in Hall. cbn in Hall.
  destruct p.
  - exists k. split; [left|done].
  - destruct (IH Hall Hin) as (k' & Hk' & Hp'). exists k'. split; [by right|done].
  - done.
Qed.

Lemma race_no_reject (ps : list promise_state) (ex : list nat) t :
  Forall (fun p => p = Pending \/ p = Fulfilled) ps -> race ps ex <> Some (Rejects t).
Proof.
  intros Hps. induction ex as [|k ex IH]; [done|]. cbn. unfold state_of.
  destruct (ps !! k) as [p|] eqn:Hp; cbn; [|done].
  destruct (Forall_lookup_1 _ _ _ _ Hps Hp) as [-> | ->]; done.
Qed.

Lemma all_no_reject (ps : list promise_state) (ex : list nat) t :
  Forall (fun p => p = Pending \/ p = Fulfilled) ps -> all ps ex <> Some (Rejects t).
Proof.
  intros Hps. induction ex as [|k ex IH]; [done|]. cbn. unfold state_of.
  destruct (ps !! k) as [p|] eqn:Hp; cbn.
  - destruct (Forall_lookup_1 _ _ _ _ Hps Hp) as [-> | ->]; [|done].
    destruct (all ps ex) as [[|t']|]; congruence.
  - destruct (all ps ex) as [[|t']|]; congruence.
Qed.

Lemma await_all_waits (st : store R) :
  Forall (fun k => (k < length (promises st))%nat) (executing st) ->
  waits_for_pending (await_all st).
Proof.
  intros Hex. unfold await_all.
  destruct (all _ _) as [[|t]|] eqn:Hall; by split.
Qed.

Lemma splice1_sublist (i : Z) (ex : list nat) (P : nat -> Prop) :
  Forall P ex -> Forall P (splice1 i ex).
Proof. intros H. unfold splice1. by apply Forall_delete. Qed.

Lemma run_loop_waits (rest : list T) :
  forall (st : store R),
    Forall (fun k => (k < length (promises st))%nat) (executing st) ->
    waits_for_pending (run_loop concurrency (length (promises st)) rest st).
Proof.
  induction rest as [|item rest IH]; intros st Hex; cbn [run_loop].
  - by apply await_all_waits.
  - cbn zeta.
    assert (Forall (fun k => (k < length (promises st ++ [Pending]))%nat)
              (executing st ++ [length (promises st)])) as Hex1.
    { rewrite length_app. cbn. apply Forall_app. split.
      - eapply Forall_impl; [done|]. cbn. lia.
      - apply Forall_singleton. lia. }
    assert (S (length (promises st)) = length (promises st ++ [Pending])) as Hnext.
    { rewrite length_app. cbn. lia. }
    destruct (_ >=? _).
    + cbn [executing promises].
      destruct (race _ _) as [[|t]|] eqn:Hrace.
      * rewrite Hnext.
        match goal with |- context [run_loop _ _ _ ?s] => apply (IH s) end.
        cbn. by apply splice1_sublist.
      * by split.
      * split; [done|]. cbn. repeat split; [done| |done].
        by destruct (executing st).
    + rewrite Hnext.
      match goal with |- context [run_loop _ _ _ ?s] => apply (IH s) end. done.
Qed.

Lemma settle_promises (k : nat) (st : store R) :
  length (promises (settle fn items k st)) = length (promises st) /\
  executing (settle fn items k st) = executing st.
Proof.
  unfold settle. destruct (promises st !! k) as [[| |]|]; try done.
  destruct (items !! k); try done.
  destruct (fn _); cbn; by rewrite length_insert.
Qed.

Lemma resume_waits (c : control T R) (st : store R) :
  Forall (fun k => (k < length (promises st))%nat) (executing st) ->
  (forall promise next rest, c = AwaitRace promise next rest ->
     next = length (promises st) /\ executing st <> []) ->
  waits_for_pending (resume concurrency c st).
Proof.
  intros Hex Hc. destruct c as [promise next rest| |seen|t]; cbn [resume].
  - destruct (Hc _ _ _ eq_refl) as [-> Hne].
    destruct (race _ _) as [[|t]|] eqn:Hrace.
    + apply (run_loop_waits rest (after_race promise st)). cbn.
      by apply splice1_sublist.
    + by split.
    + by split.
  - by apply await_all_waits.
  - by split.
  - by split.
Qed.

Lemma run_events_waits (schedule : list nat) :
  forall cs : machine,
    waits_for_pending cs ->
    waits_for_pending (run_events fn items concurrency schedule cs).
Proof.
  induction schedule as [|k later IH]; intros [c st] [Hex Hc]; [done|].
  cbn [run_events]. apply IH. cbn in *.
  destruct (settle_promises k st) as [Hlen Hexec].
  apply resume_waits.
  - by rewrite Hlen, Hexec.
  - intros promise next rest ->. rewrite Hlen, Hexec. tauto.
Qed.

Lemma pLimit_waits (schedule : list nat) :
  waits_for_pending (pLimit fn items concurrency schedule).
Proof.
  apply run_events_waits. apply (run_loop_waits items initial). constructor.
Qed.

(** Once nothing is pending, the body of [pLimit] is done. *)
Lemma pLimit_done (schedule : list nat) :
  let cs := pLimit fn items concurrency schedule in
  Forall (fun p => p <> Pending) (promises cs.2) ->
  (exists seen, cs.1 = Returned seen) \/ (exists t, cs.1 = Failed t).
Proof.
  intros cs Hall. destruct (pLimit_waits schedule) as [Hex Hc]. fold cs in Hex, Hc.
  destruct cs.1 as [promise next rest| |seen|t]; [| |eauto..].
  - destruct Hc as (_ & Hne & Hrace).
    destruct (race_pending _ _ Hrace Hne Hex) as (k & _ & Hk).
    by destruct (Forall_lookup_1 _ _ _ _ Hall Hk).
  - destruct (all_pending _ _ Hc Hex) as (k & _ & Hk).
    by destruct (Forall_lookup_1 _ _ _ _ Hall Hk).
Qed.

(** *** A per-item function that never rejects *)

Hypothesis fn_total : forall item, item ∈ items -> exists result, fn item = Ok result.

Lemma await_all_never_rejected (st : store R) :
  Forall (fun p => p = Pending \/ p = Fulfilled) (promises st) ->
  never_rejected (await_all st).
Proof.
  intros Hps. unfold await_all.
  destruct (all _ _) as [[|t]|] eqn:Hall; try by split.
  by apply all_no_reject in Hall.
Qed.

Lemma run_loop_never_rejected (rest : list T) :
  forall next (st : store R),
    Forall (fun p => p = Pending \/ p = Fulfilled) (promises st) ->
    never_rejected (run_loop concurrency next rest st).
Proof.
  induction rest as [|item rest IH]; intros next st Hps; cbn [run_loop].
  - by apply await_all_never_rejected.
  - cbn zeta.
    assert (Forall (fun p => p = Pending \/ p = Fulfilled) (promises st ++ [Pending])) as Hps1.
    { apply Forall_app. split; [done|]. apply Forall_singleton. by left. }
    destruct (_ >=? _).
    + cbn [executing promises].
      destruct (race _ _) as [[|t]|] eqn:Hrace.
      * apply IH. done.
      * by apply race_no_reject in Hrace.
      * by split.
    + apply IH. done.
Qed.

Lemma settle_never_rejected (k : nat) (st : store R) :
  Forall (fun p => p = Pending \/ p = Fulfilled) (promises st) ->
  Forall (fun p => p = Pending \/ p = Fulfilled) (promises (settle fn items k st)).
Proof.
  intros Hps. unfold settle. destruct (promises st !! k) as [[| |]|]; try done.
  destruct (items !! k) as [item|] eqn:Hitem; try done.
  destruct (fn_total item) as [result ->]; [by eapply list_elem_of_lookup_2|].
  cbn. apply Forall_insert; [done|by right].
Qed.

Lemma run_events_never_rejected (schedule : list nat) :
  forall cs : machine,
    never_rejected cs ->
    never_rejected (run_events fn items concurrency schedule cs).
Proof.
  induction schedule as [|k later IH]; intros [c st] [Hps Hc]; [done|].
  cbn [run_events]. apply IH. cbn in *.
  pose proof (settle_never_rejected k st Hps) as Hps'.
  destruct c as [promise next rest| |seen|t]; cbn [resume].
  - destruct (race _ _) as [[|t]|] eqn:Hrace.
    + by apply run_loop_never_rejected.
    + by apply race_no_reject in Hrace.
    + by split.
  - by apply await_all_never_rejected.
  - by split.
  - by destruct (Hc t).
Qed.

Lemma pLimit_never_rejected (schedule : list nat) :
  never_rejected (pLimit fn items concurrency schedule).
Proof.
  apply run_events_never_rejected. apply run_loop_never_rejected. constructor.
Qed.

Lemma settle_aligned (k : nat) (st : store R) :
  aligned st -> aligned (settle fn items k st).
Proof.
  intros Hst. unfold settle. destruct (promises st !! k) as [[| |]|]; try done.
  destruct (items !! k) as [item|] eqn:Hitem; try done.
  destruct (fn_total item) as [result Hfn]; [by eapply list_elem_of_lookup_2|].
  rewrite Hfn. unfold aligned. cbn. apply Forall2_app; [done|].
  constructor; [eauto|constructor].
Qed.

Lemma run_events_aligned (schedule : list nat) :
  forall cs : machine,
    aligned cs.2 -> aligned (run_events fn items concurrency schedule cs).2.
Proof.
  induction schedule as [|k later IH]; intros [c st] Hst; [done|].
  cbn [run_events]. apply IH. cbn in *.
  pose proof (settle_aligned k st Hst) as Hst'. unfold aligned in *.
  destruct (settle_store k st) as [Hres _].
  { clear Hst'. unfold results_in_order. induction Hst as [|r i rs ks (item & Hi & Hf) _ IHs];
      [done|]. cbn. unfold pushed at 1. by rewrite Hi, Hf, <- IHs. }
  destruct c as [promise next rest| |seen|t]; cbn [resume]; try done.
  - destruct (race _ _) as [[|t]|]; try done.
    destruct (run_loop_store rest next (after_race promise (settle fn items k st)))
      as (-> & -> & _). done.
  - by destruct (await_all_store (settle fn items k st)) as [-> _].
Qed.

Lemma pLimit_aligned (schedule : list nat) :
  aligned (pLimit fn items concurrency schedule).2.
Proof.
  apply run_events_aligned.
  destruct (run_loop_store items 0%nat initial) as (Hr & Hd & _).
  unfold aligned. rewrite Hr, Hd. constructor.
Qed.

(** The array that [pLimit] returns lists results in the order in which the
    calls finished. *)
Lemma pLimit_returned_in_order (schedule : list nat) (seen : list R) :
  (pLimit fn items concurrency schedule).1 = Returned seen ->
  Forall2 (fun result k => exists item, items !! k = Some item /\ fn item = Ok result)
    seen (take (length seen) (completed (pLimit fn items concurrency schedule).2)).
Proof.
  intros Hret. destruct (pLimit_in_order schedule) as [_ Hseen].
  destruct (Hseen seen Hret) as [more Hmore].
  pose proof (pLimit_aligned schedule) as Hal. unfold aligned in Hal.
  rewrite Hmore in Hal. apply Forall2_app_inv_l in Hal as (ks1 & ks2 & H1 & _ & ->).
  rewrite (Forall2_length _ _ _ H1), take_app_length. done.
Qed.

(** *** Batches below the bound

    With fewer items than the bound no promise is ever spliced out of
    [executing], and [pLimit] returns one result per item. *)

Abbreviation logged := (Limiter.logged (R:=R)).
Abbreviation below_bound := (Limiter.below_bound (T:=T) items).

Lemma run_loop_promises (rest : list T) :
  forall next (st : store R),
    exists m, promises (run_loop concurrency next rest st).2
              = promises st ++ replicate m Pending.
Proof.
  induction rest as [|item rest IH]; intros next st; cbn [run_loop].
  - destruct (await_all_store st) as [-> _]. exists 0%nat. by rewrite app_nil_r.
  - cbn zeta.
    assert (forall st1 : store R, promises st1 = promises st ++ [Pending] ->
              exists m, promises (run_loop concurrency (S next) rest st1).2
                        = promises st ++ replicate m Pending) as Hnext.
    { intros st1 Hst1. destruct (IH (S next) st1) as [m ->]. exists (S m).
      by rewrite Hst1, <- app_assoc. }
    destruct (_ >=? _); [|by apply Hnext].
    cbn [executing promises]. destruct (race _ _) as [[|t]|].
    + by apply Hnext.
    + exists 1%nat. done.
    + exists 1%nat. done.
Qed.

Lemma logged_more_pending (st st' : store R) (m : nat) :
  completed st' = completed st ->
  promises st' = promises st ++ replicate m Pending ->
  logged st -> logged st'.
Proof.
  intros Hc Hp [Hnodup Hlog]. split; [by rewrite Hc|]. intros k. rewrite Hc, Hlog, Hp.
  split; intros (p & Hk & Hp').
  - exists p. split; [|done]. apply lookup_app_l_Some. done.
  - apply lookup_app_Some in Hk as [Hk|[_ Hk]]; [eauto|].
    apply lookup_replicate in Hk as [-> _]. done.
Qed.

Lemma settle_logged (k : nat) (st : store R) :
  logged st -> logged (settle fn items k st).
Proof.
  intros [Hnodup Hlog]. unfold settle.
  destruct (promises st !! k) as [[| |]|] eqn:Hk; try done.
  destruct (items !! k) as [item|]; try done.
  assert (k ∉ completed st) as Hfresh.
  { intros (p & Hp & Hne)%Hlog. congruence. }
  assert (forall settled, settled <> Pending ->
            logged {| results := results st; executing := executing st;
                      promises := <[k := settled]> (promises st);
                      completed := completed st ++ [k] |}) as Hgen.
  { intros settled Hsettled. split; cbn.
    - apply NoDup_app. repeat split; [done| |apply NoDup_singleton].
      intros j Hj ->%list_elem_of_singleton. done.
    - intros j. rewrite elem_of_app, list_elem_of_singleton, Hlog.
      destruct (decide (j = k)) as [->|Hjk].
      + rewrite list_lookup_insert_eq by (by eapply lookup_lt_Some). split; eauto.
      + rewrite list_lookup_insert_ne by done. split; [by intros [?|?]|eauto]. }
  destruct (fn item); [|by apply Hgen].
  destruct (Hgen Fulfilled) as [Hnd Hl]; [done|]. by split.
Qed.

Lemma run_events_logged (schedule : list nat) :
  forall cs : machine,
    logged cs.2 -> logged (run_events fn items concurrency schedule cs).2.
Proof.
  induction schedule as [|k later IH]; intros [c st] Hst; [done|].
  cbn [run_events]. apply IH. cbn in *.
  pose proof (settle_logged k st Hst) as Hst'.
  destruct c as [promise next rest| |seen|t]; cbn [resume]; try done.
  - destruct (race _ _) as [[|t]|]; try done.
    destruct (run_loop_promises rest next (after_race promise (settle fn items k st)))
      as [m Hm].
    destruct (run_loop_store rest next (after_race promise (settle fn items k st)))
      as (_ & Hc & _).
    by eapply logged_more_pending.
  - by destruct (await_all_store (settle fn items k st)) as [-> _].
Qed.

Lemma pLimit_logged (schedule : list nat) :
  logged (pLimit fn items concurrency schedule).2.
Proof.
  apply run_events_logged.
  destruct (run_loop_promises items 0%nat initial) as [m Hm].
  destruct (run_loop_store items 0%nat initial) as (_ & Hc & _).
  eapply logged_more_pending; [done..|]. split; [constructor|].
  intros k. split; [by intros ?%elem_of_nil|]. by intros (p & ? & _).
Qed.

Lemma all_resolves (ps : list promise_state) (ex : list nat) :
  all ps ex = Some Resolves -> Forall (fun k => ps !! k = Some Fulfilled) ex.
Proof.
  induction ex as [|k ex IH]; [constructor|]. cbn. unfold state_of.
  destruct (ps !! k) as [[| |]|] eqn:Hk; cbn; try done.
  - by destruct (all ps ex) as [[|]|].
  - intros Hall. constructor; [done|by apply IH].
  - by destruct (all ps ex) as [[|]|].
Qed.

Hypothesis small : Z.of_nat (length items) < concurrency.

Lemma run_loop_below_bound (rest : list T) :
  forall next (st : store R),
    (length (executing st) + length rest <= length items)%nat ->
    run_loop concurrency next rest st
    = await_all {| results := results st;
                   executing := executing st ++ seq next (length rest);
                   promises := promises st ++ replicate (length rest) Pending;
                   completed := completed st |}.
Proof.
  induction rest as [|item rest IH]; intros next st Hlen; cbn [run_loop].
  - cbn. rewrite !app_nil_r. by destruct st.
  - cbn zeta. cbn [executing]. rewrite length_app. cbn [length] in *.
    destruct (Z.geb_spec (Z.of_nat (length (executing st) + 1)) concurrency) as [?|_];
      [lia|].
    rewrite IH by (cbn; rewrite length_app; cbn; lia).
    cbn. by rewrite <- !app_assoc.
Qed.

Lemma await_all_below_bound (st : store R) :
  executing st = seq 0 (length items) ->
  length (promises st) = length items ->
  Forall (fun p => p = Pending \/ p = Fulfilled) (promises st) ->
  below_bound (await_all st).
Proof.
  intros Hex Hlen Hps. unfold await_all.
  destruct (all _ _) as [[|t]|] eqn:Hall.
  - repeat split; try done. right. split; [done|].
    apply all_resolves in Hall. rewrite Hex in Hall.
    apply Forall_lookup. intros k p Hk. cbn in Hk.
    assert (k ∈ seq 0 (length items)) as Hin.
    { apply elem_of_seq. pose proof (lookup_lt_Some _ _ _ Hk) as Hlt. lia. }
    eapply Forall_forall in Hall; [|done]. cbn in Hall. congruence.
  - by apply all_no_reject in Hall.
  - repeat split; try done. by left.
Qed.

Lemma run_events_below_bound (schedule : list nat) :
  forall cs : machine,
    below_bound cs -> below_bound (run_events fn items concurrency schedule cs).
Proof.
  induction schedule as [|k later IH]; intros [c st] (Hex & Hlen & Hps & Hc); [done|].
  cbn [run_events]. apply IH. cbn in *.
  destruct (settle_promises k st) as [Hlen' Hex'].
  pose proof (settle_never_rejected k st Hps) as Hps'.
  destruct Hc as [->|[-> Hall]]; cbn [resume].
  - apply await_all_below_bound; congruence.
  - assert (settle fn items k st = st) as ->.
    { unfold settle. destruct (promises st !! k) as [p|] eqn:Hk; [|done].
      by rewrite (Forall_lookup_1 _ _ _ _ Hall Hk). }
    repeat split; auto.
Qed.

Lemma pLimit_below_bound (schedule : list nat) :
  below_bound (pLimit fn items concurrency schedule).
Proof.
  apply run_events_below_bound. rewrite run_loop_below_bound by (cbn; lia).
  apply await_all_below_bound; cbn.
  - done.
  - by rewrite length_replicate.
  - apply Forall_replicate. by left.
Qed.

(** Below the bound the returned array holds one result per item. *)
Lemma pLimit_below_bound_complete (schedule : list nat) (seen : list R) :
  (pLimit fn items concurrency schedule).1 = Returned seen ->
  exists ordered, seen ≡ₚ ordered /\
    Forall2 (fun item result => fn item = Ok result) items ordered.
Proof.
  intros Hret.
  destruct (pLimit_below_bound schedule) as (Hex & Hlen & _ & Hc).
  destruct Hc as [Hc|[Hc Hall]]; [congruence|].
  rewrite Hret in Hc. injection Hc as ->.
  destruct (pLimit_logged schedule) as [Hnodup Hlog].
  pose proof (pLimit_aligned schedule) as Hal. unfold Limiter.aligned in Hal.
  set (st := (pLimit fn items concurrency schedule).2) in *.
  assert (completed st ≡ₚ seq 0 (length items)) as Hperm.
  { apply NoDup_Permutation; [done|apply NoDup_seq|]. intros k.
    rewrite Hlog, elem_of_seq. split.
    - intros (p & Hk%lookup_lt_Some & _). lia.
    - intros [_ Hk]. rewrite <- Hlen in Hk.
      destruct (lookup_lt_is_Some_2 _ _ Hk) as [p Hp]. exists p. split; [done|].
      by rewrite (Forall_lookup_1 _ _ _ _ Hall Hp). }
  apply Forall2_flip in Hal.
  destruct (Permutation_Forall2 Hperm Hal) as (ordered & Hord & Hforall).
  exists ordered. split; [done|].
  apply Forall2_same_length_lookup. split.
  - apply Forall2_length in Hforall. by rewrite length_seq in Hforall.
  - intros i item result Hi Hr.
    assert (seq 0 (length items) !! i = Some i) as Hseq.
    { rewrite lookup_seq_lt; [done|]. by eapply lookup_lt_Some. }
    destruct (Forall2_lookup_lr _ _ _ _ _ _ Hforall Hseq Hr) as (item' & Hi' & Hfn).
    cbn in Hfn. congruence.
Qed.

End Runs.

(** C9 at a failing input: two items, a bound of two, the first call
    finishes first.  The race is won by the first promise, the splice
    removes the second (the one just pushed), [Promise.all] waits for the
    first only, and [pLimit] returns one result for two items while the
    second call is still running. *)
Theorem pLimit_returns_before_all_calls_finish :
  let fn := fun item : string => Ok ("done " +:+ item) in
  let run := pLimit fn ["a"; "b"] 2 [0%nat] in
  let later := pLimit fn ["a"; "b"] 2 [0%nat; 1%nat] in
  run.1 = Returned ["done a"] /\
  promises run.2 = [Fulfilled; Pending] /\
  executing run.2 = [0%nat] /\
  later.1 = Returned ["done a"] /\
  results later.2 = ["done a"; "done b"].
Proof. vm_compute. repeat split. Qed.

(** *** Which calls a run has seen finish *)

Section Events.

Context {T R : Type}.
Variable fn : T -> outcome R.
Variable items : list T.
Variable concurrency : Z.

Lemma settle_completed (k : nat) (st : store R) :
  completed (settle fn items k st) = completed st \/
  completed (settle fn items k st) = completed st ++ [k].
Proof.
  unfold settle. destruct (promises st !! k) as [[| |]|]; auto.
  destruct (items !! k); auto. destruct (fn _); auto.
Qed.

Lemma resume_completed (c : control T R) (st : store R) :
  completed (resume concurrency c st).2 = completed st.
Proof.
  destruct c as [promise next rest| |seen|t]; cbn [resume]; try done.
  - destruct (race _ _) as [[|t]|]; try done.
    by destruct (run_loop_store concurrency rest next (after_race promise st)) as (_ & -> & _).
  - by destruct (await_all_store (T:=T) st) as [-> _].
Qed.

Lemma resume_promises (c : control T R) (st : store R) :
  exists m, promises (resume concurrency c st).2 = promises st ++ replicate m Pending.
Proof.
  destruct c as [promise next rest| |seen|t]; cbn [resume];
    try (exists 0%nat; by rewrite app_nil_r).
  - destruct (race _ _) as [[|t]|]; try (exists 0%nat; by rewrite app_nil_r).
    apply (run_loop_promises concurrency rest next (after_race promise st)).
  - destruct (await_all_store (T:=T) st) as [-> _]. exists 0%nat. by rewrite app_nil_r.
Qed.

(** Only calls of the schedule are logged as finished. *)
Lemma run_events_completed_from (schedule : list nat) :
  forall (cs : control T R * store R) k,
    k ∈ completed (run_events fn items concurrency schedule cs).2 ->
    k ∈ completed cs.2 \/ k ∈ schedule.
Proof.
  induction schedule as [|j later IH]; intros [c st] k; [by left|].
  cbn [run_events]. intros [Hk|Hk]%IH; [|right; by right].
  cbn in Hk. rewrite resume_completed in Hk.
  destruct (settle_completed j st) as [Heq|Heq]; rewrite Heq in Hk; [by left|].
  apply elem_of_app in Hk as [Hk|Hk]; [by left|].
  apply list_elem_of_singleton in Hk as ->. right. by left.
Qed.

(** A call that has been started and is in the schedule is logged as
    finished. *)
Lemma run_events_settles (schedule : list nat) :
  forall (cs : control T R * store R) k,
    logged cs.2 -> (k < length (promises cs.2))%nat -> (k < length items)%nat ->
    k ∈ completed cs.2 \/ k ∈ schedule ->
    k ∈ completed (run_events fn items concurrency schedule cs).2.
Proof.
  induction schedule as [|j later IH]; intros [c st] k Hlog Hk Hitem Hin.
  { destruct Hin as [Hin|Hin]; [done|by apply elem_of_nil in Hin]. }
  cbn [run_events]. cbn in Hlog, Hk, Hin.
  pose proof (settle_logged fn items j st Hlog) as Hlog'.
  destruct (settle_promises fn items j st) as [Hlen _].
  destruct (resume_promises c (settle fn items j st)) as [m Hm].
  apply IH.
  - cbn. destruct Hlog' as [Hnodup Hl].
    eapply logged_more_pending; [apply resume_completed|exact Hm|done].
  - cbn. rewrite Hm, length_app, Hlen. lia.
  - done.
  - cbn. rewrite resume_completed.
    assert (k ∈ completed st -> k ∈ completed (settle fn items j st)) as Hmono.
    { intros Hc. destruct (settle_completed j st) as [->| ->]; [done|].
      apply elem_of_app. by left. }
    destruct Hin as [Hin|Hin]; [left; by apply Hmono|].
    apply elem_of_cons in Hin as [->|Hin]; [|by right].
    left. destruct (decide (j ∈ completed st)) as [Hc|Hc]; [by apply Hmono|].
    unfold settle.
    destruct (lookup_lt_is_Some_2 _ _ Hk) as [p Hp].
    destruct (lookup_lt_is_Some_2 _ _ Hitem) as [item Hi].
    rewrite Hp, Hi. destruct Hlog as [_ Hl].
    destruct p; [|exfalso; apply Hc, Hl; by eexists..].
    destruct (fn item); cbn; apply elem_of_app; right; by apply list_elem_of_singleton.
Qed.

End Events.
(** The machine before the first event has logged nothing. *)
Lemma initial_logged {T R} (items : list T) (concurrency : Z) :
  Limiter.logged (R:=R) (run_loop concurrency 0 items initial).2 /\
  completed (run_loop (R:=R) concurrency 0 items initial).2 = [].
Proof.
  destruct (run_loop_promises (R:=R) concurrency items 0%nat initial) as [m Hm].
  destruct (run_loop_store (R:=R) concurrency items 0%nat initial) as (_ & Hc & _).
  split; [|done].
  eapply logged_more_pending; [done..|]. split; [constructor|].
  intros k. split; [by intros ?%elem_of_nil|]. by intros (p & ? & _).
Qed.

(** Below the bound [pLimit] returns exactly when the calls of all items
    have finished, with one result per item. *)
Lemma pLimit_returns_when_all_finished {T R} (fn : T -> outcome R) (items : list T)
    (concurrency : Z) (schedule : list nat) :
  (forall item, item ∈ items -> exists result, fn item = Ok result) ->
  Z.of_nat (length items) < concurrency ->
  let run := pLimit fn items concurrency schedule in
  ((forall k, (k < length items)%nat -> k ∈ schedule) ->
   exists seen ordered, run.1 = Returned seen /\ seen ≡ₚ ordered /\
     Forall2 (fun item result => fn item = Ok result) items ordered) /\
  (forall k, (k < length items)%nat -> k ∉ schedule -> run.1 = AwaitAll).
Proof.
  intros Htotal Hsmall run.
  destruct (pLimit_below_bound fn items concurrency Htotal Hsmall schedule)
    as (Hex & Hlen & Hps & Hc).
  destruct (pLimit_logged fn items concurrency schedule) as [Hnodup Hlog].
  destruct (initial_logged (R:=R) items concurrency) as [Hlog0 Hc0].
  fold run in Hex, Hlen, Hps, Hc, Hnodup, Hlog.
  split.
  - intros Hall.
    assert (Forall (fun p => p <> Pending) (promises run.2)) as Hsettled.
    { apply Forall_lookup. intros k p Hk.
      assert (k < length items)%nat as Hlt by (rewrite <- Hlen; by eapply lookup_lt_Some).
      assert (k ∈ completed run.2) as Hin.
      { apply run_events_settles; [done| |done|right; by apply Hall].
        rewrite (run_loop_below_bound items concurrency Hsmall) by (cbn; lia).
        destruct (await_all_store (T:=T)
                    {| results := results (initial (R:=R));
                       executing := executing (initial (R:=R)) ++ seq 0 (length items);
                       promises := promises (initial (R:=R)) ++ replicate (length items) Pending;
                       completed := completed (initial (R:=R)) |}) as [-> _].
        cbn. by rewrite length_replicate. }
      apply Hlog in Hin as (p' & Hp' & Hne). congruence. }
    destruct (pLimit_done fn items concurrency schedule Hsettled) as [[seen Hseen]|[t Ht]].
    + destruct (pLimit_below_bound_complete fn items concurrency Htotal Hsmall schedule seen
                  Hseen) as (ordered & Hperm & Hord).
      by exists seen, ordered.
    + destruct (pLimit_never_rejected fn items concurrency Htotal schedule) as [_ Hnf].
      destruct (Hnf t Ht).
  - intros k Hk Hout.
    destruct Hc as [Hc|[_ Hall]]; [done|]. exfalso.
    rewrite <- Hlen in Hk. destruct (lookup_lt_is_Some_2 _ _ Hk) as [p Hp].
    pose proof (Forall_lookup_1 _ _ _ _ Hall Hp) as ->.
    assert (k ∈ completed run.2) as Hin by (apply Hlog; by exists Fulfilled).
    apply run_events_completed_from in Hin as [Hin|Hin]; [|done].
    rewrite Hc0 in Hin. by apply elem_of_nil in Hin.
Qed.

(** X6: With fewer items than the bound and a function that never rejects,
    [pLimit] returns exactly when the calls of all items have finished, and
    the returned array then holds one result per item (in completion order):
    it is a rearrangement of the results in item order. *)
Theorem pLimit_complete_below_concurrency {T R} (fn : T -> outcome R) (items : list T)
    (concurrency : Z) (schedule : list nat) :
  (forall item, item ∈ items -> exists result, fn item = Ok result) ->
  Z.of_nat (length items) < concurrency ->
  let run := pLimit fn items concurrency schedule in
  ((forall k, (k < length items)%nat -> k ∈ schedule) ->
   exists seen ordered, run.1 = Returned seen /\ seen ≡ₚ ordered /\
     Forall2 (fun item result => fn item = Ok result) items ordered) /\
  (forall k, (k < length items)%nat -> k ∉ schedule -> run.1 = AwaitAll).
Proof. apply pLimit_returns_when_all_finished. Qed.

Lemma pLimit_complete_below_concurrency_witness :
  (pLimit (fun item : string => Ok ("done " +:+ item)) ["a"; "b"] 3 [1%nat; 0%nat]).1
  = Returned ["done b"; "done a"].
Proof.
  destruct (pLimit_complete_below_concurrency
              (fun item : string => Ok ("done " +:+ item)) ["a"; "b"] 3 [1%nat; 0%nat])
    as [Hreturns _].
  - intros item _. by eexists.
  - done.
  - destruct Hreturns as (seen & ordered & Hseen & _).
    + intros k Hk. destruct k as [|[|k]]; [by repeat constructor..|cbn in Hk; lia].
    + rewrite Hseen. vm_compute in Hseen. congruence.
Defined.

(** *** At the bound: what the splice does to the waiting *)

Lemma race_none_pending (ps : list promise_state) (ex : list nat) :
  Forall (fun k => state_of ps k = Pending) ex -> race ps ex = None.
Proof.
  induction 1 as [|k ex Hk _ IH]; [done|]. cbn. by rewrite Hk.
Qed.

Lemma race_fulfilled (ps : list promise_state) (ex : list nat) (k : nat) :
  k ∈ ex -> ps !! k = Some Fulfilled ->
  Forall (fun p => p = Pending \/ p = Fulfilled) ps ->
  race ps ex = Some Resolves.
Proof.
  intros Hin Hk Hps. induction ex as [|j ex IH]; [by apply elem_of_nil in Hin|].
  cbn. unfold state_of. destruct (ps !! j) as [p|] eqn:Hj; cbn.
  - destruct (Forall_lookup_1 _ _ _ _ Hps Hj) as [->| ->]; [|done].
    apply IH. apply elem_of_cons in Hin as [->|Hin]; [congruence|done].
  - apply IH. apply elem_of_cons in Hin as [->|Hin]; [congruence|done].
Qed.

Lemma findIndex_bounds (promise : nat) (ex : list nat) :
  -1 <= findIndex promise ex < Z.of_nat (length ex).
Proof.
  induction ex as [|p ex IH]; [cbn; lia|]. cbn [findIndex length].
  destruct (Nat.eqb p promise); [lia|].
  destruct (Z.ltb_spec (findIndex promise ex) 0); lia.
Qed.

Lemma findIndex_absent (promise : nat) (ex : list nat) :
  promise ∉ ex -> findIndex promise ex = -1.
Proof.
  induction ex as [|p ex IH]; [done|]. intros Hout. cbn.
  destruct (Nat.eqb_spec p promise) as [->|_]; [exfalso; apply Hout; by left|].
  rewrite IH by (intros ?; apply Hout; by right). done.
Qed.

(** The splice after a race takes the promise just pushed out again. *)
Lemma splice_just_pushed (promise : nat) (ex : list nat) :
  promise ∉ ex ->
  splice1 (findIndex promise (ex ++ [promise])) (ex ++ [promise]) = ex.
Proof.
  intros Hout.
  assert (findIndex promise (ex ++ [promise]) = Z.of_nat (length ex)) as ->.
  { induction ex as [|p ex IH]; cbn.
    - by rewrite Nat.eqb_refl.
    - destruct (Nat.eqb_spec p promise) as [->|_]; [exfalso; apply Hout; by left|].
      rewrite IH by (intros ?; apply Hout; by right).
      destruct (Z.ltb_spec (Z.of_nat (length ex)) 0); lia. }
  unfold splice1. rewrite length_app. cbn [length].
  destruct (Z.ltb_spec (Z.of_nat (length ex)) 0); [lia|].
  rewrite Z.min_l by lia. rewrite Nat2Z.id.
  clear -Hout. induction ex as [|p ex IH]; [done|]. cbn. f_equal. apply IH.
  intros ?. apply Hout. by right.
Qed.

Section Leak.

Context {T R : Type}.
Variable fn : T -> outcome R.
Variable items : list T.
Variable concurrency : Z.

(** The loop up to its first race: as many promises as the bound allows,
    all pending. *)
Lemma run_loop_fills (first : list T) :
  forall (rest : list T) (next : nat) (st : store R),
    executing st = seq 0 next -> promises st = replicate next Pending ->
    first <> [] -> Z.of_nat (next + length first) = concurrency ->
    run_loop concurrency next (first ++ rest) st
    = (AwaitRace (next + length first - 1) (next + length first) rest,
       {| results := results st;
          executing := seq 0 (next + length first);
          promises := replicate (next + length first) Pending;
          completed := completed st |}).
Proof.
  induction first as [|item first IH]; intros rest next st Hex Hps Hne Hc; [done|].
  cbn [app run_loop]. cbn zeta. cbn [executing promises length] in *.
  rewrite Hex, Hps, length_app, length_seq. cbn [length].
  assert (seq 0 next ++ [next] = seq 0 (S next)) as Hseq by (by rewrite seq_S).
  assert (replicate next Pending ++ [Pending] = replicate (S next) Pending) as Hrep.
  { by rewrite <- replicate_cons_app. }
  rewrite Hseq, Hrep.
  destruct first as [|item' first'].
  - cbn [length] in *.
    destruct (Z.geb_spec (Z.of_nat (next + 1)) concurrency) as [_|?]; [|lia].
    rewrite race_none_pending.
    + replace (next + 1 - 1)%nat with next by lia.
      replace (next + 1)%nat with (S next) by lia. done.
    + apply Forall_forall. intros k Hk%elem_of_seq. unfold state_of.
      rewrite lookup_replicate_2 by lia. done.
  - cbn [length] in *.
    destruct (Z.geb_spec (Z.of_nat (next + 1)) concurrency) as [?|_]; [lia|].
    rewrite (IH rest (S next)); cbn [executing promises results completed length];
      [|done|done|done|lia].
    replace (S next + S (length first'))%nat with (next + S (S (length first')))%nat by lia.
    done.
Qed.

(** Once a promise that has been fulfilled stays in [executing], every
    later race is won at once and takes the promise just pushed out again:
    the loop starts the calls of all remaining items without waiting. *)
Lemma run_loop_leaks (rest : list T) :
  forall (next : nat) (st : store R) (k : nat),
    k ∈ executing st -> promises st !! k = Some Fulfilled ->
    Forall (fun p => p = Pending \/ p = Fulfilled) (promises st) ->
    Z.of_nat (length (executing st)) + 1 = concurrency ->
    Forall (fun j => (j < next)%nat) (executing st) ->
    run_loop concurrency next rest st
    = await_all {| results := results st;
                   executing := executing st;
                   promises := promises st ++ replicate (length rest) Pending;
                   completed := completed st |}.
Proof.
  induction rest as [|item rest IH]; intros next st k Hin Hk Hps Hc Hnext.
  - cbn. rewrite app_nil_r. by destruct st.
  - cbn [run_loop]. cbn zeta. cbn [executing promises length].
    rewrite length_app. cbn [length].
    destruct (Z.geb_spec (Z.of_nat (length (executing st) + 1)) concurrency) as [_|?];
      [|lia].
    rewrite (race_fulfilled _ _ k);
      [|apply elem_of_app; by left|by apply lookup_app_l_Some|
       apply Forall_app; split; [done|repeat constructor; by left]].
    unfold after_race. cbn [executing promises results completed].
    rewrite splice_just_pushed.
    2:{ intros Hself. eapply Forall_forall in Hnext; [|done]. lia. }
    rewrite (IH (S next) _ k); cbn [executing promises results completed]; try done.
    + by rewrite <- app_assoc.
    + by apply lookup_app_l_Some.
    + apply Forall_app; split; [done|repeat constructor; by left].
    + eapply Forall_impl; [done|]. cbn. lia.
Qed.

Hypothesis fn_total : forall item, item ∈ items -> exists result, fn item = Ok result.
Hypothesis at_least_two : 2 <= concurrency.
Hypothesis at_the_bound : concurrency <= Z.of_nat (length items).

(** At the bound the loop stops at its first race with [concurrency]
    promises pending. *)
Lemma pLimit_initial_at_bound :
  run_loop (R:=R) concurrency 0 items initial
  = (AwaitRace (Z.to_nat concurrency - 1) (Z.to_nat concurrency)
       (drop (Z.to_nat concurrency) items),
     {| results := []; executing := seq 0 (Z.to_nat concurrency);
        promises := replicate (Z.to_nat concurrency) Pending; completed := [] |}).
Proof.
  set (c := Z.to_nat concurrency).
  assert (2 <= c <= length items)%nat as Hc by lia.
  pose proof (run_loop_fills (take c items) (drop c items) 0%nat initial) as Hfill.
  rewrite take_drop, length_take in Hfill.
  replace (0 + c `min` length items)%nat with c in Hfill by lia.
  apply Hfill; try done; [|lia].
  intros Hnil%(f_equal length). rewrite length_take in Hnil. cbn in Hnil. lia.
Qed.

(** The state in which the first finished call, one of the first
    [concurrency - 1], leaves the machine. *)
Lemma pLimit_after_first (k : nat) :
  Z.of_nat k < concurrency - 1 ->
  exists result,
    pLimit fn items concurrency [k]
    = await_all {| results := [result];
                   executing := seq 0 (Z.to_nat concurrency - 1);
                   promises := <[k := Fulfilled]> (replicate (Z.to_nat concurrency) Pending)
                               ++ replicate (length items - Z.to_nat concurrency) Pending;
                   completed := [k] |}.
Proof.
  intros Hk. set (c := Z.to_nat concurrency).
  assert (2 <= c <= length items)%nat as Hc by lia.
  assert (k < c - 1)%nat as Hkc by lia.
  pose proof pLimit_initial_at_bound as Hinit. fold c in Hinit.
  unfold pLimit. rewrite Hinit.
  cbn [run_events fst snd]. unfold settle. cbn [promises].
  rewrite lookup_replicate_2 by lia.
  destruct (lookup_lt_is_Some_2 items k ltac:(lia)) as [item Hitem]. rewrite Hitem.
  destruct (fn_total item) as [result Hresult]; [by eapply list_elem_of_lookup_2|].
  rewrite Hresult. exists result. cbn [resume executing promises results completed].
  assert (Forall (fun p => p = Pending \/ p = Fulfilled)
            (<[k := Fulfilled]> (replicate c Pending))) as Hps.
  { apply Forall_insert; [|by right]. apply Forall_replicate. by left. }
  assert (<[k := Fulfilled]> (replicate c Pending) !! k = Some Fulfilled) as Hfk.
  { apply list_lookup_insert_eq. rewrite length_replicate. lia. }
  rewrite (race_fulfilled _ _ k); [|apply elem_of_seq; lia|done|done].
  unfold after_race. cbn [executing promises results completed app].
  replace (seq 0 c) with (seq 0 (c - 1) ++ [(c - 1)%nat]).
  2:{ rewrite <- seq_S. f_equal. lia. }
  rewrite splice_just_pushed by (rewrite elem_of_seq; lia).
  rewrite (run_loop_leaks _ _ _ k); cbn [executing promises results completed]; try done.
  - by rewrite length_drop.
  - apply elem_of_seq. lia.
  - rewrite length_seq. lia.
  - apply Forall_forall. intros j Hj%elem_of_seq. lia.
Qed.

Lemma await_all_leaking (st : store R) :
  executing st = seq 0 (Z.to_nat concurrency - 1) ->
  length (promises st) = length items ->
  Forall (fun p => p = Pending \/ p = Fulfilled) (promises st) ->
  leaking items concurrency (await_all st).
Proof.
  intros Hex Hlen Hps. unfold await_all.
  destruct (all _ _) as [[|t]|] eqn:Hall.
  - repeat split; try done. right. by eexists.
  - by apply all_no_reject in Hall.
  - repeat split; try done. by left.
Qed.

Lemma run_events_leaking (schedule : list nat) :
  forall cs : control T R * store R,
    leaking items concurrency cs ->
    leaking items concurrency (run_events fn items concurrency schedule cs).
Proof.
  induction schedule as [|j later IH]; intros [c st] (Hex & Hlen & Hps & Hc); [done|].
  cbn [run_events]. apply IH. cbn in *.
  destruct (settle_promises fn items j st) as [Hlen' Hex'].
  pose proof (settle_never_rejected fn items fn_total j st Hps) as Hps'.
  destruct Hc as [->|[seen ->]]; cbn [resume].
  - apply await_all_leaking; congruence.
  - repeat split; cbn; try congruence. right. by eexists.
Qed.

End Leak.

(** X7: At or above the bound, with a function that never rejects: when the
    first call to finish is one of the first [concurrency - 1], the calls of
    all items have been started by then, whatever the bound; from then on
    the body of [pLimit] waits for the first [concurrency - 1] promises
    only, so it returns once these calls have finished, and the calls that
    are not in the schedule are still running then. *)
Theorem pLimit_awaits_first_calls_only {T R} (fn : T -> outcome R) (items : list T)
    (concurrency : Z) (k : nat) (later : list nat) :
  (forall item, item ∈ items -> exists result, fn item = Ok result) ->
  2 <= concurrency <= Z.of_nat (length items) ->
  Z.of_nat k < concurrency - 1 ->
  let first := pLimit fn items concurrency [k] in
  let run := pLimit fn items concurrency (k :: later) in
  length (promises first.2) = length items /\
  (forall j, (j < length items)%nat -> j <> k -> promises first.2 !! j = Some Pending) /\
  executing run.2 = seq 0 (Z.to_nat concurrency - 1) /\
  ((forall j, (j < Z.to_nat concurrency - 1)%nat -> j ∈ k :: later) ->
   exists seen, run.1 = Returned seen) /\
  (forall j, (j < length items)%nat -> j ∉ k :: later ->
     promises run.2 !! j = Some Pending).
Proof.
  intros Htotal [Htwo Hbound] Hk first run.
  destruct (pLimit_after_first fn items concurrency Htotal Htwo Hbound k Hk)
    as [result Hfirst].
  fold first in Hfirst.
  assert (forall schedule,
            leaking items concurrency (pLimit fn items concurrency (k :: schedule)))
    as Hleak.
  { intros schedule.
    change (pLimit fn items concurrency (k :: schedule))
      with (run_events fn items concurrency schedule first).
    apply run_events_leaking; [done|]. rewrite Hfirst.
    apply await_all_leaking; cbn.
    - done.
    - rewrite length_app, length_insert, !length_replicate. lia.
    - apply Forall_app. split; [|apply Forall_replicate; by left].
      apply Forall_insert; [|by right]. apply Forall_replicate. by left. }
  destruct (initial_logged (R:=R) items concurrency) as [Hlog0 Hc0].
  assert (forall schedule j, (j < length items)%nat -> j ∉ k :: schedule ->
            promises (pLimit fn items concurrency (k :: schedule)).2 !! j = Some Pending)
    as Hpending.
  { intros schedule j Hj Hout.
    destruct (Hleak schedule) as (_ & Hlen & _ & _).
    destruct (pLimit_logged fn items concurrency (k :: schedule)) as [_ Hlog].
    rewrite <- Hlen in Hj. destruct (lookup_lt_is_Some_2 _ _ Hj) as [p Hp].
    rewrite Hp. f_equal.
    assert (p <> Pending -> False) as Hsettled.
    { intros Hne.
      assert (j ∈ completed (pLimit fn items concurrency (k :: schedule)).2) as Hin
        by (apply Hlog; by exists p).
      apply run_events_completed_from in Hin as [Hin|Hin]; [|done].
      rewrite Hc0 in Hin. by apply elem_of_nil in Hin. }
    destruct p; [done|by destruct Hsettled..]. }
  destruct (Hleak []) as (_ & Hlen1 & _ & _).
  destruct (Hleak later) as (Hex & Hlen & Hps & Hc). fold run in Hex, Hlen, Hps, Hc.
  split; [done|]. split.
  { intros j Hj Hjk. apply (Hpending [] j Hj).
    intros ->%list_elem_of_singleton. done. }
  split; [done|]. split; [|by apply Hpending].
  intros Hall. destruct Hc as [Hc|Hc]; [|done]. exfalso.
  destruct (pLimit_waits fn items concurrency (k :: later)) as [Hin Hwait].
  fold run in Hin, Hwait. rewrite Hc in Hwait.
  destruct (all_pending _ _ Hwait Hin) as (j & Hj & Hpj).
  rewrite Hex in Hj. apply elem_of_seq in Hj.
  assert (j ∈ completed run.2) as Hdone.
  { apply run_events_settles; [done| |lia|right; apply Hall; lia].
    rewrite (pLimit_initial_at_bound items concurrency Htwo Hbound). cbn.
    rewrite length_replicate. lia. }
  destruct (pLimit_logged fn items concurrency (k :: later)) as [_ Hlog].
  apply Hlog in Hdone as (p & Hp & Hne). fold run in Hp. congruence.
Qed.

Lemma pLimit_awaits_first_calls_only_witness :
  let fn := fun item : string => Ok ("done " +:+ item) in
  let first := pLimit fn ["a"; "b"; "c"; "d"] 3 [0%nat] in
  let run := pLimit fn ["a"; "b"; "c"; "d"] 3 [0%nat; 1%nat] in
  length (promises first.2) = 4%nat /\
  run.1 = Returned ["done a"; "done b"] /\
  promises run.2 !! 3%nat = Some Pending.
Proof.
  intros fn first run.
  destruct (pLimit_awaits_first_calls_only fn ["a"; "b"; "c"; "d"] 3 0%nat [1%nat])
    as (Hstarted & _ & _ & Hreturns & Hrunning).
  - intros item _. by eexists.
  - cbn. lia.
  - lia.
  - split; [exact Hstarted|]. split.
    + destruct Hreturns as [seen Hseen].
      * intros j Hj. destruct j as [|[|j]]; [by repeat constructor..|cbn in Hj; lia].
      * fold run in Hseen. rewrite Hseen. vm_compute in Hseen. congruence.
    + apply Hrunning; [cbn; lia|].
      intros Hin. repeat (apply elem_of_cons in Hin as [Hin|Hin]; [discriminate|]).
      by apply elem_of_nil in Hin.
Defined.

End LimiterFacts.

(** ** sync.ts *)

Module SyncFacts.
Import Limiter Sync.

(** [syncSingleSkill] turns whatever its collaborators throw into a result:
    its promise is never rejected. *)
Lemma syncSingleSkill_total env skillEntry config dryRun forceSkills :
  exists result, syncSingleSkill env skillEntry config dryRun forceSkills = Ok result.
Proof.
  unfold syncSingleSkill. destruct (sanitizeSkillName _ _); [|eauto].
  destruct (sync_body _ _ _ _ _ _); eauto.
Qed.

(** A throwing fetch gives a failed result carrying the message of what was
    thrown. *)
Lemma syncSingleSkill_fetch_throws env raw skillConfig config forceSkills name skipCheck caught :
  sanitizeSkillName env raw = Ok name ->
  validateSkillConfig env name skillConfig = Ok tt ->
  shouldSkipSync env name skillConfig (skillsPath config) = Ok skipCheck ->
  shouldSkip skipCheck = false ->
  default false (needsInteraction skipCheck) = false ->
  type skillConfig ∈ supportedTypes ->
  fetch env (type skillConfig) name skillConfig (skillsPath config) = Throw caught ->
  syncSingleSkill env (raw, skillConfig) config false forceSkills
  = Ok {| skillName := name; success := false; error := Some (errorMessage caught);
          skipped := None; reason := None |}.
Proof.
  intros Hs Hv Hskip Hno Hni Hty Hf. unfold syncSingleSkill. cbn. rewrite Hs.
  assert (fetch_and_link env name skillConfig config = Throw caught) as Hfl.
  { unfold fetch_and_link, getFetcher. rewrite bool_decide_eq_true_2 by done.
    cbn. by rewrite Hf. }
  unfold sync_body. rewrite Hv. cbn.
  destruct (match forceSkills with Some l => _ | None => false end).
  - by rewrite Hfl.
  - rewrite Hskip. cbn. rewrite Hno, Hni. by rewrite Hfl.
Qed.

(** What [syncSkills] returns instead of the configuration order: the list
    is in completion order, its [i]-th entry being the result of the skill
    whose sync was the [i]-th to complete; and [syncSkills] has returned
    once no started sync is pending. *)
Theorem syncSkills_completion_order env config dryRun forceSkills schedule :
  let run := syncSkills env config dryRun forceSkills schedule in
  (forall seen, run.1 = Returned seen ->
     Forall2 (fun result k =>
                exists skillEntry, skills config !! k = Some skillEntry /\
                  syncSingleSkill env skillEntry config dryRun forceSkills = Ok result)
       seen (take (length seen) (completed run.2))) /\
  (Forall (fun p => p <> Pending) (promises run.2) -> exists seen, run.1 = Returned seen).
Proof.
  intros run. subst run. unfold syncSkills. split.
  - intros seen Hret. apply LimiterFacts.pLimit_returned_in_order; [|done].
    intros item _. apply syncSingleSkill_total.
  - intros Hall.
    destruct (LimiterFacts.pLimit_done _ _ _ schedule Hall) as [Hret|[t Ht]]; [done|].
    destruct (LimiterFacts.pLimit_never_rejected
                (fun skillEntry => syncSingleSkill env skillEntry config dryRun forceSkills)
                (skills config) MAX_CONCURRENT_SYNCS) with (schedule := schedule)
      as [_ Hnf]; [|by destruct (Hnf t)].
    intros item _. apply syncSingleSkill_total.
Qed.

(** With fewer skills than [MAX_CONCURRENT_SYNCS] the returned list holds
    the result of every configured skill: a throwing fetch costs the other
    skills nothing. *)
Lemma syncSkills_below_bound env config dryRun forceSkills schedule seen :
  Z.of_nat (length (skills config)) < MAX_CONCURRENT_SYNCS ->
  (syncSkills env config dryRun forceSkills schedule).1 = Returned seen ->
  exists ordered, seen ≡ₚ ordered /\
    Forall2 (fun skillEntry result =>
               syncSingleSkill env skillEntry config dryRun forceSkills = Ok result)
      (skills config) ordered.
Proof.
  intros Hsmall Hret. unfold syncSkills in Hret.
  eapply LimiterFacts.pLimit_below_bound_complete; [|exact Hsmall|exact Hret].
  intros item _. apply syncSingleSkill_total.
Qed.

(** A run in which the second skill finishes first. *)
Lemma syncSkills_completion_order_witness :
  let run := syncSkills (world_where_fetch_fails []) (batch ["a"; "b"]) false None
               [1%nat; 0%nat] in
  exists seen, run.1 = Returned seen /\ skillName <$> seen = ["b"; "a"].
Proof.
  destruct (syncSkills_completion_order (world_where_fetch_fails []) (batch ["a"; "b"])
              false None [1%nat; 0%nat]) as [_ Hret].
  destruct Hret as [seen Hseen].
  - vm_compute. repeat constructor; discriminate.
  - exists seen. split; [exact Hseen|].
    vm_compute in Hseen. injection Hseen as <-. reflexivity.
Defined.

(** C1 at a failing input: two skills, of which the second is the first to
    finish.  Both syncs succeed and [syncSkills] returns both results, but
    with the result of the second skill first: [pLimit] pushes a result when
    its call finishes and keeps no index, so the returned list is not in
    configuration order.  (The sequential [syncSkills] kept in
    metadata-manager.ts returns its results in that order.) *)
Lemma syncSkills_not_config_order :
  let config := batch ["a"; "b"] in
  let run := syncSkills (world_where_fetch_fails []) config false None [1%nat; 0%nat] in
  (skills config).*1 = ["a"; "b"] /\
  run.1 = Returned [succeeded "b"; succeeded "a"] /\
  ~ (exists seen, run.1 = Returned seen /\ skillName <$> seen = (skills config).*1).
Proof.
  vm_compute. repeat split. intros (seen & [= <-] & Hnames). discriminate.
Qed.

(** C6 at a failing input: five skills, the fetch of the second throws, the
    fifth is the last to finish.  [syncSkills] returns when the first four
    are done: the failure of the second is reported, the first, third and
    fourth are reported as successes, and the fifth, still running, is not
    reported at all.  Its result reaches the shared array only after the
    list was returned. *)
Theorem syncSkills_returns_before_last_skill :
  let config := batch ["s1"; "s2"; "s3"; "s4"; "s5"] in
  let world := world_where_fetch_fails ["s2"] in
  let run := syncSkills world config false None [1%nat; 0%nat; 2%nat; 3%nat] in
  let later := syncSkills world config false None [1%nat; 0%nat; 2%nat; 3%nat; 4%nat] in
  run.1 = Returned [failed "s2" (fetch_error "s2"); succeeded "s1";
                    succeeded "s3"; succeeded "s4"] /\
  promises run.2 !! 4%nat = Some Pending /\
  later.1 = run.1 /\
  results later.2 = results run.2 ++ [succeeded "s5"].
Proof. vm_compute. repeat split. Qed.

(** *** Single syncs, the summary and the sequential [syncSkills] *)
(** The result of [syncSingleSkill], whatever its collaborators do. *)
Lemma syncSingleSkill_consistent env skillEntry config dryRun forceSkills :
  exists r, syncSingleSkill env skillEntry config dryRun forceSkills = Ok r /\
    skillName r = reported_name env skillEntry /\
    (success r = false -> (exists message, error r = Some message) /\ skipped r = None) /\
    (success r = true -> error r = None) /\
    (is_skipped r = true -> success r = true).
Proof.
  unfold syncSingleSkill, reported_name.
  destruct (sanitizeSkillName env skillEntry.1) as [name|caught].
  2:{ eexists. split; [done|]. cbn. repeat split; try done. by eexists. }
  assert (forall body : outcome FetchResult,
            (forall r, body = Ok r -> r = succeeded name \/ exists why, r = was_skipped name why) ->
            exists r, match body with Ok result => Ok result | Throw caught => Ok (failed name caught) end
                      = Ok r /\
              skillName r = name /\
              (success r = false -> (exists message, error r = Some message) /\ skipped r = None) /\
              (success r = true -> error r = None) /\
              (is_skipped r = true -> success r = true)) as Hshape.
  { intros [r|caught] Hbody.
    - exists r. split; [done|]. destruct (Hbody r eq_refl) as [->|[why ->]]; by cbn.
    - eexists. split; [done|]. cbn. repeat split; try done. by eexists. }
  apply Hshape. intros r. unfold sync_body, fetch_and_link.
  destruct (validateSkillConfig env name skillEntry.2); cbn; [|done].
  destruct dryRun; [intros [= <-]; by left|].
  assert (forall r', bind (getFetcher (type skillEntry.2))
              (fun fetcher => bind (fetch env fetcher name skillEntry.2 (skillsPath config))
                 (fun _ => Ok (succeeded name))) = Ok r' -> r' = succeeded name) as Hfetch.
  { intros r'. destruct (getFetcher _); cbn; [|done].
    destruct (fetch _ _ _ _ _); cbn; [|done]. by intros [= <-]. }
  destruct (match forceSkills with Some l => _ | None => false end).
  { intros ->%Hfetch. by left. }
  destruct (shouldSkipSync _ _ _ _) as [skipCheck|]; cbn; [|done].
  destruct (shouldSkip skipCheck); [intros [= <-]; right; by eexists|].
  destruct (default false (needsInteraction skipCheck)).
  - destruct (promptForOverwrite env name) as [[|]|]; cbn; [| |done].
    + intros ->%Hfetch. by left.
    + intros [= <-]. right. by eexists.
  - intros ->%Hfetch. by left.
Qed.

(** X8: [syncSingleSkill] never rejects, whatever its collaborators throw,
    and its result is consistent: a failure carries a message and is not
    marked as skipped, a success carries no message, and a skipped skill
    counts as a success. The result is reported under the sanitized name, or
    under the raw name when that is refused. *)
Theorem syncSingleSkill_result_shape env skillEntry config dryRun forceSkills :
  exists r, syncSingleSkill env skillEntry config dryRun forceSkills = Ok r /\
    skillName r = reported_name env skillEntry /\
    (success r = false -> (exists message, error r = Some message) /\ skipped r = None) /\
    (success r = true -> error r = None) /\
    (is_skipped r = true -> success r = true).
Proof. apply syncSingleSkill_consistent. Qed.

(** X9: A dry run consults nothing but the sanitizing of the name and the
    validation of the configuration: no skip check, no prompt, no fetcher
    and no link can change its result, and a valid skill is reported as a
    success. *)
Theorem syncSingleSkill_dry_run env env' skillEntry config forceSkills :
  same_validation env env' ->
  syncSingleSkill env skillEntry config true forceSkills
  = syncSingleSkill env' skillEntry config true forceSkills /\
  (forall name, sanitizeSkillName env skillEntry.1 = Ok name ->
     validateSkillConfig env name skillEntry.2 = Ok tt ->
     syncSingleSkill env skillEntry config true forceSkills = Ok (succeeded name)).
Proof.
  intros [Hsan Hval]. unfold syncSingleSkill, sync_body. rewrite <- Hsan. split.
  - destruct (sanitizeSkillName env skillEntry.1) as [name|]; [|done].
    by rewrite <- Hval.
  - intros name -> Hvalid. by rewrite Hvalid.
Qed.

(** X10: A skill named in [forceSkills] is fetched without the skip check
    and without the prompt: neither can change its result. An empty
    [forceSkills] forces nothing. *)
Theorem syncSingleSkill_forced env env' skillEntry config (forceSkills : list string) name :
  same_but_skip_check env env' ->
  sanitizeSkillName env skillEntry.1 = Ok name ->
  name ∈ forceSkills ->
  syncSingleSkill env skillEntry config false (Some forceSkills)
  = syncSingleSkill env' skillEntry config false (Some forceSkills) /\
  syncSingleSkill env skillEntry config false (Some [])
  = syncSingleSkill env skillEntry config false None.
Proof.
  intros [[Hsan Hval] Hfetch] Hname Hin. split; [|done].
  unfold syncSingleSkill, sync_body, fetch_and_link. rewrite <- Hsan, Hname, <- Hval.
  destruct (validateSkillConfig env name skillEntry.2); cbn; [|done].
  rewrite (bool_decide_eq_true_2 _ Hin).
  destruct forceSkills as [|forced more]; [by apply elem_of_nil in Hin|]. cbn.
  destruct (getFetcher _); cbn; [|done]. by rewrite <- Hfetch.
Qed.

Lemma syncSingleSkill_dry_run_witness :
  syncSingleSkill (world_where_fetch_fails ["a"]) (repo_skill "a") (batch ["a"]) true None
  = Ok (succeeded "a").
Proof.
  destruct (syncSingleSkill_dry_run (world_where_fetch_fails ["a"])
              (world_where_fetch_fails []) (repo_skill "a") (batch ["a"]) None)
    as [_ Hvalid]; [done|].
  by apply Hvalid.
Defined.

Lemma syncSingleSkill_forced_witness :
  let asks := {| sanitizeSkillName := fun raw => Ok raw;
                 validateSkillConfig := fun _ _ => Ok tt;
                 shouldSkipSync := fun _ _ _ =>
                   Ok {| shouldSkip := true; skip_reason := Some "up to date";
                         needsInteraction := None |};
                 promptForOverwrite := fun _ => Ok false;
                 fetch := fun _ _ _ _ => Ok tt;
                 createSymlinksForSkill := fun _ _ _ => Ok tt |} in
  syncSingleSkill asks (repo_skill "a") (batch ["a"]) false (Some ["a"])
  = Ok (succeeded "a") /\
  syncSingleSkill asks (repo_skill "a") (batch ["a"]) false None
  = Ok (was_skipped "a" (Some "up to date")).
Proof.
  intros asks. split; [|done].
  destruct (syncSingleSkill_forced asks (world_where_fetch_fails []) (repo_skill "a")
              (batch ["a"]) ["a"] "a") as [-> _]; try done.
  by left.
Defined.

Lemma counts_add_up (results : list FetchResult) :
  (count_successful results + count_skipped results + count_failed results
   = length results
     + length (filter (fun r => is_skipped r && negb (success r)) results))%nat.
Proof.
  unfold count_successful, count_skipped, count_failed.
  induction results as [|r results IH]; [done|].
  rewrite !filter_cons. cbn [length].
  destruct r as [name ok message skip why]. unfold is_skipped in *. cbn [success skipped].
  destruct ok, skip as [[|]|]; cbn; repeat case_decide; try tauto; cbn [length]; lia.
Qed.

(** X11: The three counts that [printSummary] prints add up to the number of
    results, except that a result marked both as skipped and as failed is
    counted twice; [syncSingleSkill] produces no such result, so for its
    results the counts add up exactly. When every skill was synced, the
    summary is the heading, the number of results and an empty line. *)
Theorem printSummary_counts_add_up (results : list FetchResult) :
  (count_successful results + count_skipped results + count_failed results
   = length results
     + length (filter (fun r => is_skipped r && negb (success r)) results))%nat /\
  (forall env config dryRun forceSkills,
     Forall (fun r => exists skillEntry,
               syncSingleSkill env skillEntry config dryRun forceSkills = Ok r) results ->
     (count_successful results + count_skipped results + count_failed results
      = length results)%nat) /\
  (forall chalk,
     Forall (fun r => success r = true /\ is_skipped r = false) results ->
     printSummary chalk results
     = [newline +:+ bold chalk "Summary:";
        green chalk "✓" +:+ " Successful: " +:+ pretty (length results); ""]).
Proof.
  split; [apply counts_add_up|]. split.
  - intros env config dryRun forceSkills Hall. rewrite counts_add_up.
    assert (filter (fun r => is_skipped r && negb (success r)) results = []) as ->; [|cbn; lia].
    induction Hall as [|r results [skillEntry Hr] _ IH]; [done|].
    rewrite filter_cons, IH.
    destruct (syncSingleSkill_consistent env skillEntry config dryRun forceSkills)
      as (r' & Hr' & _ & _ & _ & Hskip).
    rewrite Hr in Hr'. injection Hr' as <-.
    destruct (is_skipped r); [by rewrite Hskip|done].
  - intros chalk Hall. unfold printSummary.
    assert (count_successful results = length results /\ count_skipped results = 0%nat /\
            count_failed results = 0%nat) as (-> & -> & ->); [|done].
    unfold count_successful, count_skipped, count_failed.
    induction Hall as [|r results [Hok Hskip] _ (IH1 & IH2 & IH3)]; [done|].
    rewrite !filter_cons, Hok, Hskip.
    rewrite decide_True by done. rewrite !decide_False by (cbn; tauto).
    cbn [length]. by rewrite IH1, IH2, IH3.
Qed.

Lemma sync_each_results env config dryRun (entries : list (string * SkillConfig)) :
  forall results,
    exists more,
      sync_each env config dryRun entries results = results ++ more /\
      length more = length entries /\
      skillName <$> more = reported_name env <$> entries /\
      (never_skips env ->
       Forall2 (fun skillEntry r => syncSingleSkill env skillEntry config dryRun None = Ok r)
         entries more).
Proof.
  induction entries as [|skillEntry rest IH]; intros results.
  { exists []. by rewrite app_nil_r. }
  cbn [sync_each]. cbn zeta.
  assert (forall r, skillName r = reported_name env skillEntry ->
            (never_skips env -> syncSingleSkill env skillEntry config dryRun None = Ok r) ->
            exists more,
              sync_each env config dryRun rest (results ++ [r]) = results ++ more /\
              length more = length (skillEntry :: rest) /\
              skillName <$> more = reported_name env <$> skillEntry :: rest /\
              (never_skips env ->
               Forall2 (fun skillEntry r =>
                          syncSingleSkill env skillEntry config dryRun None = Ok r)
                 (skillEntry :: rest) more)) as Hstep.
  { intros r Hname Hsame. destruct (IH (results ++ [r])) as (more & -> & Hlen & Hnames & Hrel).
    exists (r :: more). rewrite <- app_assoc. split; [done|]. split; [by cbn; rewrite Hlen|].
    split; [by cbn; rewrite Hname, Hnames|]. intros Hns. constructor; auto. }
  unfold reported_name in Hstep. unfold syncSingleSkill, sync_body, fetch_and_link in Hstep.
  destruct (sanitizeSkillName env skillEntry.1) as [name|caught]; [|by apply Hstep].
  destruct (validateSkillConfig env name skillEntry.2) as [[]|caught]; cbn in *;
    [|by apply Hstep].
  destruct dryRun; [by apply Hstep|].
  destruct (getFetcher (type skillEntry.2)) as [fetcher|caught] eqn:Hfetcher; cbn in *.
  - destruct (fetch env fetcher name skillEntry.2 (skillsPath config)) as [[]|caught]
      eqn:Hfetch; apply Hstep; try done; intros Hns;
      by destruct (Hns name skillEntry.2 (skillsPath config)) as [why ->].
  - apply Hstep; [done|]. intros Hns.
    by destruct (Hns name skillEntry.2 (skillsPath config)) as [why ->].
Qed.

(** X12: The sequential [syncSkills] returns one result per configured
    skill, in configuration order, each under the name its skill is reported
    by; a skill that fails does not stop the ones after it. When the skip
    check lets every skill through, the result of each skill is the one that
    [syncSingleSkill] gives for it. *)
Theorem syncSkills_sequential_in_config_order env config dryRun :
  let results := syncSkills_sequential env config dryRun in
  length results = length (skills config) /\
  skillName <$> results = reported_name env <$> skills config /\
  (never_skips env ->
   Forall2 (fun skillEntry r => syncSingleSkill env skillEntry config dryRun None = Ok r)
     (skills config) results).
Proof.
  intros results. subst results. unfold syncSkills_sequential.
  destruct (sync_each_results env config dryRun (skills config) [])
    as (more & -> & Hlen & Hnames & Hrel).
  done.
Qed.

Lemma syncSkills_sequential_in_config_order_witness :
  let results := syncSkills_sequential (world_where_fetch_fails ["b"])
                   (batch ["a"; "b"; "c"]) false in
  skillName <$> results = ["a"; "b"; "c"] /\ success <$> results = [true; false; true].
Proof.
  intros results.
  destruct (syncSkills_sequential_in_config_order (world_where_fetch_fails ["b"])
              (batch ["a"; "b"; "c"]) false) as (_ & Hnames & _).
  split; [exact Hnames|done].
Defined.

(** X13: A batch of fewer skills than [MAX_CONCURRENT_SYNCS] is reported
    completely: [syncSkills] returns exactly when all its skills have been
    synced, with one result per skill. *)
Theorem syncSkills_small_batch_complete env config dryRun forceSkills schedule :
  (length (skills config) < 5)%nat ->
  let run := syncSkills env config dryRun forceSkills schedule in
  ((forall k, (k < length (skills config))%nat -> k ∈ schedule) ->
   exists seen ordered, run.1 = Returned seen /\ seen ≡ₚ ordered /\
     Forall2 (fun skillEntry r =>
                syncSingleSkill env skillEntry config dryRun forceSkills = Ok r)
       (skills config) ordered) /\
  (forall k, (k < length (skills config))%nat -> k ∉ schedule -> run.1 = AwaitAll).
Proof.
  intros Hsmall.
  apply (LimiterFacts.pLimit_returns_when_all_finished
           (fun skillEntry => syncSingleSkill env skillEntry config dryRun forceSkills)).
  - intros skillEntry _. apply syncSingleSkill_total.
  - unfold MAX_CONCURRENT_SYNCS. lia.
Qed.

Lemma syncSkills_small_batch_complete_witness :
  exists seen,
    (syncSkills (world_where_fetch_fails ["b"]) (batch ["a"; "b"]) false None
       [1%nat; 0%nat]).1 = Returned seen /\
    length seen = 2%nat.
Proof.
  destruct (syncSkills_small_batch_complete (world_where_fetch_fails ["b"])
              (batch ["a"; "b"]) false None [1%nat; 0%nat]) as [Hreturns _].
  - cbn. lia.
  - destruct Hreturns as (seen & ordered & Hseen & Hperm & Hord).
    + intros k Hk. destruct k as [|[|k]]; [by repeat constructor..|cbn in Hk; lia].
    + exists seen. split; [done|].
      rewrite Hperm. apply Forall2_length in Hord. by rewrite <- Hord.
Defined.

End SyncFacts.

(** ** metadata-manager.ts: the metadata record *)

Module MetadataFacts.
Import Metadata.

Section Load.

Variable METADATA_FILENAME : string.
Variable pathExists : string -> bool.
Variable readFile : string -> outcome string.
Variable JSON_parse : string -> outcome json.

Abbreviation load := (loadMetadata METADATA_FILENAME pathExists readFile JSON_parse).

Lemma truthy_field (record : json) (key : string) (value : option json) :
  get_property record key = Ok value -> truthy value = true ->
  present_and_non_empty record key.
Proof.
  intros Hget Htrue. destruct record; cbn in Hget; try discriminate;
    injection Hget as <-; try discriminate.
  destruct (lookup_member key members) as [v|] eqn:Hv; [|discriminate].
  exists v. split; [done|]. by intros ->.
Qed.

Lemma falsy_field (record : json) (key : string) :
  missing_or_empty record key ->
  match get_property record key with
  | Ok value => truthy value = false
  | Throw _ => True
  end.
Proof.
  intros [Hf|Hf]; destruct record; cbn in *; try done; by rewrite Hf.
Qed.

(** C3: [loadMetadata] never fails; it yields "absent" for a missing file,
    for content that does not parse, and for a record in which a required
    field is missing or empty; it yields a record only if all four required
    fields are present and non-empty. *)
Theorem loadMetadata_absent_or_valid (skillDir : string) :
  let metadataPath := Path.join skillDir METADATA_FILENAME in
  (exists result, load skillDir = Ok result) /\
  (pathExists metadataPath = false -> load skillDir = Ok None) /\
  (forall content t, readFile metadataPath = Ok content ->
     JSON_parse content = Throw t -> load skillDir = Ok None) /\
  (forall content record key, readFile metadataPath = Ok content ->
     JSON_parse content = Ok record -> key ∈ required_fields ->
     missing_or_empty record key -> load skillDir = Ok None) /\
  (forall record, load skillDir = Ok (Some record) ->
     forall key, key ∈ required_fields -> present_and_non_empty record key).
Proof.
  intros metadataPath. unfold loadMetadata. fold metadataPath.
  destruct (pathExists metadataPath); cbn [negb];
    [|by repeat split; eauto; intros; done].
  destruct (readFile metadataPath) as [content|t]; cbn;
    [|by repeat split; eauto; intros; done].
  destruct (JSON_parse content) as [record|t] eqn:Hparse; cbn;
    [|by repeat split; eauto; intros; done].
  split; [|split; [done|split; [by intros ? ? [= <-]; rewrite Hparse|split]]].
  - destruct (get_property record "remote") as [v1|]; cbn; [|eauto].
    destruct (truthy v1); cbn; [|eauto].
    destruct (get_property record "type") as [v2|]; cbn; [|eauto].
    destruct (truthy v2); cbn; [|eauto].
    destruct (get_property record "lastSync") as [v3|]; cbn; [|eauto].
    destruct (truthy v3); cbn; [|eauto].
    destruct (get_property record "contentHash") as [v4|]; cbn; [|eauto].
    destruct (truthy v4); cbn; eauto.
  - intros ? record' key [= <-] Heq Hkey Hempty. rewrite Hparse in Heq.
    injection Heq as <-.
    pose proof (falsy_field record key Hempty) as Hfalsy.
    unfold required_fields in Hkey.
    repeat (apply elem_of_cons in Hkey as [->|Hkey]);
      [..|by apply elem_of_nil in Hkey];
      repeat (match goal with
              | |- context [get_property record ?k] =>
                  destruct (get_property record k) as [?v|] eqn:?; cbn; [|done]
              | H : truthy ?v = false |- context [truthy ?v] => rewrite H; cbn; try done
              | |- context [truthy ?v] => destruct (truthy v) eqn:?; cbn; [|done]
              end).
  - intros record'.
    destruct (get_property record "remote") as [v1|] eqn:H1; cbn; [|done].
    destruct (truthy v1) eqn:T1; cbn; [|done].
    destruct (get_property record "type") as [v2|] eqn:H2; cbn; [|done].
    destruct (truthy v2) eqn:T2; cbn; [|done].
    destruct (get_property record "lastSync") as [v3|] eqn:H3; cbn; [|done].
    destruct (truthy v3) eqn:T3; cbn; [|done].
    destruct (get_property record "contentHash") as [v4|] eqn:H4; cbn; [|done].
    destruct (truthy v4) eqn:T4; cbn; [|done].
    intros [= <-] key Hkey. unfold required_fields in Hkey.
    repeat (apply elem_of_cons in Hkey as [->|Hkey]); [..|by apply elem_of_nil in Hkey];
      by eapply truthy_field.
Qed.

End Load.

(** A record with the four fields loads; by the theorem its fields are
    present and non-empty. *)
Lemma loadMetadata_absent_or_valid_witness :
  let record := JObject [("remote", JString "https://github.com/o/r");
                         ("type", JString "GIT_REPO");
                         ("lastSync", JString "2024-01-01T00:00:00.000Z");
                         ("contentHash", JString "0f3a")] in
  let load := loadMetadata ".skill-metadata.json" (fun _ => true)
                (fun _ => Ok "{...}") (fun _ => Ok record) in
  load "/tmp/s/a" = Ok (Some record) /\ present_and_non_empty record "contentHash".
Proof.
  intros record load. split; [reflexivity|].
  destruct (loadMetadata_absent_or_valid ".skill-metadata.json" (fun _ => true)
              (fun _ => Ok "{...}") (fun _ => Ok record) "/tmp/s/a")
    as (_ & _ & _ & _ & Hvalid).
  apply (Hvalid record); [reflexivity|]. unfold required_fields. set_solver.
Defined.

(** *** A saved record is the record loaded *)

Lemma lookup_member_other (key other : string) (value : json)
    (before after : list (string * json)) :
  other <> key ->
  lookup_member key (before ++ (other, value) :: after) = lookup_member key (before ++ after).
Proof.
  intros Hother. induction before as [|[k v] before IH]; cbn.
  - by rewrite (proj2 (String.eqb_neq other key)) by done; destruct (lookup_member key after).
  - by rewrite IH.
Qed.

Section Save.

Variable METADATA_FILENAME : string.
Context {World : Type}.
Variable writeFile : string -> string -> World -> outcome unit * World.
Variable pathExists : World -> string -> bool.
Variable readFile : World -> string -> outcome string.
Variable JSON_stringify : json -> string.
Variable JSON_parse : string -> outcome json.

(** X14: A record saved with [saveMetadata] is what [loadMetadata] returns
    for the same directory afterwards, provided none of its four required
    fields is empty; a record with an empty required field is saved all the
    same, and is absent when loaded. *)
Theorem saveMetadata_then_loadMetadata (skillDir : string) (metadata : SkillMetadata)
    (w w' : World) :
  reads_what_was_written writeFile pathExists readFile ->
  JSON_parse (JSON_stringify (to_json metadata)) = Ok (to_json metadata) ->
  saveMetadata METADATA_FILENAME writeFile JSON_stringify skillDir metadata w = (Ok tt, w') ->
  let loaded := loadMetadata METADATA_FILENAME (pathExists w') (readFile w') JSON_parse
                  skillDir in
  metadataExists METADATA_FILENAME pathExists skillDir w' = true /\
  (m_remote metadata <> "" -> m_type metadata <> "" -> m_lastSync metadata <> "" ->
   m_contentHash metadata <> "" -> loaded = Ok (Some (to_json metadata))) /\
  (m_remote metadata = "" \/ m_type metadata = "" \/ m_lastSync metadata = "" \/
   m_contentHash metadata = "" -> loaded = Ok None).
Proof.
  intros Hfs Hjson Hsave loaded. subst loaded.
  unfold saveMetadata in Hsave.
  destruct (writeFile _ _ w) as [[[]|error] w1] eqn:Hwrite; [|done].
  injection Hsave as ->.
  destruct (Hfs _ _ _ _ Hwrite) as [Hexists Hread].
  split; [done|].
  unfold loadMetadata. rewrite Hexists, Hread. cbn [negb bind]. rewrite Hjson. cbn [bind].
  destruct metadata as [remote ref type lastSync contentHash]. unfold to_json.
  cbn [m_remote m_ref m_type m_lastSync m_contentHash get_property].
  assert (forall key, key <> "ref" ->
            lookup_member key
              ([("remote", JString remote)]
               ++ match ref with Some r => [("ref", JString r)] | None => [] end
               ++ [("type", JString type); ("lastSync", JString lastSync);
                   ("contentHash", JString contentHash)])
            = lookup_member key
                [("remote", JString remote); ("type", JString type);
                 ("lastSync", JString lastSync); ("contentHash", JString contentHash)])
    as Hlookup.
  { intros key Hkey. destruct ref as [r|]; [|done].
    by apply (lookup_member_other key "ref" (JString r) [("remote", JString remote)]). }
  rewrite !Hlookup by done. cbn [lookup_member bind String.eqb Ascii.eqb Bool.eqb truthy].
  split.
  - intros H1%String.eqb_neq H2%String.eqb_neq H3%String.eqb_neq H4%String.eqb_neq.
    by rewrite H1, H2, H3, H4.
  - intros Hempty.
    destruct (String.eqb_spec remote ""); [done|].
    destruct (String.eqb_spec type ""); [done|].
    destruct (String.eqb_spec lastSync ""); [done|].
    destruct (String.eqb_spec contentHash ""); [done|].
    cbn. tauto.
Qed.

End Save.

Lemma store_reads_what_was_written :
  reads_what_was_written store_write store_exists store_read.
Proof.
  intros path content w w' [= <-]. unfold store_exists, store_read.
  cbn [list_find]. by rewrite decide_True.
Qed.

Lemma saveMetadata_then_loadMetadata_witness :
  let written := fun _ : json => "{ ... }" in
  let parsed := fun _ : string => Ok (to_json example_metadata) in
  let w' := (saveMetadata ".skill-metadata.json" store_write written "/tmp/s/a"
               example_metadata []).2 in
  loadMetadata ".skill-metadata.json" (store_exists w') (store_read w') parsed "/tmp/s/a"
  = Ok (Some (to_json example_metadata)).
Proof.
  intros written parsed w'.
  destruct (saveMetadata_then_loadMetadata ".skill-metadata.json" store_write store_exists
              store_read written parsed "/tmp/s/a" example_metadata [] w'
              store_reads_what_was_written eq_refl eq_refl) as (_ & Hload & _).
  by apply Hload.
Defined.

End MetadataFacts.

(** ** metadata-manager.ts: the content hash *)

Module HasherFacts.
Import Path PathFacts Hasher.

(** Induction on directory trees: a listing is a list of trees. *)
Lemma node_induction (P : node -> Prop) :
  P File -> P Other -> P (Directory None) ->
  (forall entries, Forall (fun named => P named.2) entries -> P (Directory (Some entries))) ->
  forall tree, P tree.
Proof.
  intros HFile HOther HNone HSome. fix IH 1. intros [|[entries|]|]; try assumption.
  apply HSome. induction entries as [|[name entry] rest IHrest]; constructor.
  - apply IH.
  - apply IHrest.
Qed.

Lemma getAllFiles_listing (dir : string) (entries : list (string * node)) :
  getAllFiles dir (Directory (Some entries)) = concat (entry_files dir <$> entries).
Proof.
  induction entries as [|[name entry] rest IH]; [done|].
  cbn [fmap list_fmap concat]. rewrite <- IH. by destruct entry.
Qed.

Lemma collect_listing (entries : list (string * node)) :
  collect (Directory (Some entries)) = @concat (list string) <$> mapM entry_paths entries.
Proof.
  induction entries as [|[name entry] rest IH]; [done|].
  change (collect (Directory (Some ((name, entry) :: rest))))
    with (here ← entry_paths (name, entry);
          more ← collect (Directory (Some rest)); Some (here ++ more)).
  rewrite IH. cbn [mapM]. destruct (entry_paths (name, entry)) as [here|]; [|done].
  cbn. by destruct (mapM entry_paths rest).
Qed.

Lemma well_named_listing (entries : list (string * node)) :
  well_named (Directory (Some entries)) <->
  Forall (fun named => proper_segment named.1 /\ well_named named.2) entries.
Proof.
  induction entries as [|[name entry] rest IH]; [by split; [constructor|]|].
  rewrite Forall_cons, <- IH. cbn. tauto.
Qed.

(** *** Sorting *)

Lemma path_le_transitive : Transitive path_le.
Proof. intros p q r Hpq Hqr. unfold path_le in *. by etrans. Qed.

Lemma path_le_total : Total path_le.
Proof. intros p q. unfold path_le. apply String.le_total. Qed.

Lemma StronglySorted_filter {A} (R : relation A) (P : A -> Prop)
    `{!forall x, Decision (P x)} (l : list A) :
  StronglySorted R l -> StronglySorted R (filter P l).
Proof.
  induction 1 as [|x l Hl IH Hx]; [constructor|].
  rewrite filter_cons. destruct (decide (P x)); [|done].
  constructor; [done|]. apply Forall_forall. intros y [_ Hy]%list_elem_of_filter.
  by eapply Forall_forall in Hx.
Qed.

Lemma filter_fmap_ext {A B} (f : A -> B) (P : A -> Prop) (Q : B -> Prop)
    `{!forall x, Decision (P x)} `{!forall y, Decision (Q y)} (l : list A) :
  Forall (fun x => Q (f x) <-> P x) l -> filter Q (f <$> l) = f <$> filter P l.
Proof.
  induction 1 as [|x l Hx _ IH]; [done|].
  cbn [fmap list_fmap]. rewrite !filter_cons, IH.
  destruct (decide (Q (f x))), (decide (P x)); try done; tauto.
Qed.

Lemma join_segments_inj (p q : list string) :
  Forall proper_segment p -> p <> [] -> Forall proper_segment q -> q <> [] ->
  join_segments p = join_segments q -> p = q.
Proof.
  intros Hp Hpne Hq Hqne Heq.
  rewrite <- (split_join p), <- (split_join q), Heq; try done.
  - eapply Forall_impl; [exact Hq|]. by intros ? [? _].
  - eapply Forall_impl; [exact Hp|]. by intros ? [? _].
Qed.

Section Hash.

Variable METADATA_FILENAME : string.
Variable sha256 : string -> string.
Variable cwd : string.
Variable content : list string -> outcome string.

Abbreviation hash_files' := (hash_files METADATA_FILENAME sha256 cwd content).
Abbreviation fold_files' := (fold_files sha256 content).
Abbreviation hashed := (Hasher.hashed METADATA_FILENAME cwd).

Lemma hash_files_hashed (skillDir : string) (files : list string) :
  forall hash,
    hash_files' skillDir files hash = hash_files' skillDir (filter (hashed skillDir) files) hash.
Proof.
  induction files as [|file rest IH]; intros hash; [done|].
  rewrite filter_cons. cbn [hash_files]. unfold hashed at 1.
  destruct (String.eqb_spec (relative cwd skillDir file) METADATA_FILENAME) as [Heq|Hne].
  - rewrite decide_False by (intros ?; done). apply IH.
  - rewrite decide_True by done. cbn [hash_files].
    rewrite (proj2 (String.eqb_neq _ _) Hne).
    destruct (hashFile _ _ _ _); cbn; [apply IH|done].
Qed.

(** *** Files that cannot be read, directories that cannot be listed *)

Abbreviation calculate := (calculateContentHash METADATA_FILENAME sha256 cwd content).

Lemma hash_files_throws (skillDir : string) (files : list string) :
  forall hash,
    (exists t, hash_files' skillDir files hash = Throw t) <->
    exists file, file ∈ files /\ hashed skillDir file /\
                 exists t, read_stream cwd content file = Throw t.
Proof.
  induction files as [|file rest IH]; intros hash.
  - split; [by intros [t ?]|]. by intros (file & Hin%elem_of_nil & _).
  - cbn [hash_files]. unfold hashed.
    destruct (String.eqb_spec (relative cwd skillDir file) METADATA_FILENAME) as [Heq|Hne].
    + rewrite IH. split.
      * intros (f & Hin & Hf). exists f. split; [by right|done].
      * intros (f & Hin & Hf & Ht). apply elem_of_cons in Hin as [->|Hin]; [done|].
        by exists f.
    + unfold hashFile. destruct (read_stream cwd content file) as [bytes|t] eqn:Hread; cbn.
      * rewrite IH. split.
        -- intros (f & Hin & Hf). exists f. split; [by right|done].
        -- intros (f & Hin & Hf & t & Ht). apply elem_of_cons in Hin as [->|Hin]; [congruence|].
           exists f. eauto.
      * split; [|eauto]. intros _. exists file. split; [by left|]. eauto.
Qed.

Lemma unreadable_as_empty_listing (entries : list (string * node)) :
  unreadable_as_empty (Directory (Some entries))
  = Directory (Some ((fun named => (named.1, unreadable_as_empty named.2)) <$> entries)).
Proof.
  cbn [unreadable_as_empty]. do 2 f_equal.
  induction entries as [|[name entry] rest IH]; [done|]. by rewrite IH.
Qed.

Lemma getAllFiles_unreadable_as_empty (tree : node) :
  forall dir, getAllFiles dir (unreadable_as_empty tree) = getAllFiles dir tree.
Proof.
  induction tree as [| | |entries IH] using node_induction; intros dir; try done.
  rewrite unreadable_as_empty_listing, !getAllFiles_listing. f_equal.
  rewrite <- list_fmap_compose. apply Forall_fmap_ext_1.
  eapply Forall_impl; [exact IH|]. intros [name entry] Hentry. cbn in *.
  unfold entry_files. cbn [fst snd].
  destruct entry as [|[sub|]|]; try done.
  change (unreadable_as_empty (Directory None)) with (Directory (Some [])) in *.
  all: destruct (starts_with_dot name); [done|]; apply Hentry.
Qed.

(** *** The reference definition *)

(** The path string of a file below a directory, as [getAllFiles] builds it
    with [path.join], and what it resolves to. *)
Lemma file_below (path : list string) :
  Forall proper_segment path -> path <> [] ->
  forall dir,
    segments_of (resolve cwd (dir_prefix dir +:+ join_segments path))
    = segments_of (resolve cwd dir) ++ path.
Proof.
  induction 1 as [|name rest Hname Hrest IH]; intros Hne dir; [done|].
  destruct rest as [|next rest].
  - cbn [join_segments]. by rewrite <- join_proper, resolve_join.
  - rewrite join_segments_cons by done.
    rewrite <- !string_app_assoc, <- join_proper, <- (dir_prefix_join dir name) by done.
    rewrite IH by done. rewrite resolve_join by done. by rewrite <- app_assoc.
Qed.

(** On a readable, well-named tree [getAllFiles] reports exactly the
    collected files, each by the path string that [path.join] gives it. *)
Lemma getAllFiles_collect (tree : node) :
  forall dir paths,
    well_named tree -> collect tree = Some paths ->
    getAllFiles dir tree = (fun path => dir_prefix dir +:+ join_segments path) <$> paths /\
    Forall (fun path => Forall proper_segment path /\ path <> []) paths.
Proof.
  induction tree as [| | |entries IH] using node_induction;
    intros dir paths Hnamed Hcollect; try done.
  rewrite getAllFiles_listing. rewrite collect_listing in Hcollect.
  apply well_named_listing in Hnamed.
  revert paths Hcollect.
  induction entries as [|[name entry] rest IHrest]; intros paths Hcollect.
  - injection Hcollect as <-. by split.
  - apply Forall_cons in IH as [IHentry IH]. apply Forall_cons in Hnamed as [[Hname Hentry] Hnamed].
    cbn [mapM] in Hcollect.
    destruct (entry_paths (name, entry)) as [here|] eqn:Hhere; [|done].
    destruct (mapM entry_paths rest) as [more|] eqn:Hmore; [|done].
    cbn in Hcollect. injection Hcollect as <-.
    destruct (IHrest IH Hnamed (concat more)) as [Hfiles Hall]; [done|].
    cbn [fmap list_fmap concat]. rewrite Hfiles, fmap_app, Forall_app.
    assert (entry_files dir (name, entry)
            = (fun path => dir_prefix dir +:+ join_segments path) <$> here /\
            Forall (fun path => Forall proper_segment path /\ path <> []) here) as [-> ?];
      [|done].
    unfold entry_files, entry_paths in *. cbn [fst snd] in *.
    destruct entry as [|listing|].
    + injection Hhere as <-. split; [by rewrite join_proper|].
      apply Forall_singleton. split; [by apply Forall_singleton|done].
    + destruct (starts_with_dot name); [by injection Hhere as <-|].
      destruct (collect (Directory listing)) as [sub|] eqn:Hsub; [|done].
      injection Hhere as <-.
      destruct (IHentry (join dir name) sub) as [-> Hsubs]; [done..|].
      split.
      * rewrite <- list_fmap_compose. apply list_fmap_ext.
        intros i path Hin%list_elem_of_lookup_2. unfold compose. cbn beta.
        eapply Forall_forall in Hsubs as [_ Hne]; [|done].
        rewrite join_segments_cons, dir_prefix_join, join_proper by done.
        by rewrite !string_app_assoc.
      * apply Forall_fmap. eapply Forall_impl; [done|]. cbn. intros path [? ?].
        split; [by constructor|done].
    + by injection Hhere as <-.
Qed.

Lemma well_named_unreadable_as_empty (tree : node) :
  well_named tree -> well_named (unreadable_as_empty tree).
Proof.
  induction tree as [| | |entries IH] using node_induction; try done.
  rewrite unreadable_as_empty_listing, !well_named_listing, Forall_fmap.
  intros Hnamed. apply Forall_forall. intros [name entry] Hin. cbn [fst snd].
  eapply Forall_forall in IH; [|done]. eapply Forall_forall in Hnamed as [? ?]; [|done].
  cbn [fst snd] in *. auto.
Qed.

(** With every unreadable directory taken as empty, the files of a
    directory can be collected. *)
Lemma collect_unreadable_as_empty (tree : node) :
  match tree with
  | Directory _ => is_Some (collect (unreadable_as_empty tree))
  | _ => True
  end.
Proof.
  induction tree as [| | |entries IH] using node_induction; try done.
  rewrite unreadable_as_empty_listing, collect_listing.
  apply fmap_is_Some. induction IH as [|[name entry] rest Hentry _ IHrest]; [done|].
  cbn [fmap list_fmap mapM fst snd].
  assert (is_Some (entry_paths (name, unreadable_as_empty entry))) as [here ->].
  { unfold entry_paths. cbn [fst snd] in *.
    destruct entry as [|[sub|]|]; try done.
    - cbn [unreadable_as_empty]. destruct (starts_with_dot name); [done|].
      by apply fmap_is_Some.
    - cbn [unreadable_as_empty]. by destruct (starts_with_dot name). }
  destruct IHrest as [more ->]. done.
Qed.

(** The path of a collected file relative to the directory, as
    [path.relative] computes it. *)
Lemma relative_file (dir : string) (path : list string) :
  Forall proper_segment path -> path <> [] ->
  relative cwd dir (dir_prefix dir +:+ join_segments path) = join_segments path.
Proof. intros Hpath Hne. apply relative_below; [by apply file_below|done]. Qed.

(** On the files that are hashed the loop folds path and content digest,
    as the reference does, and fails where the reference is undefined. *)
Lemma hash_files_fold (dir : string) (paths : list (list string)) :
  Forall (fun path => Forall proper_segment path /\ path <> [] /\
                      join_segments path <> METADATA_FILENAME) paths ->
  forall hash,
    fold_files' (segments_of (resolve cwd dir)) paths hash
    = match hash_files' dir ((fun path => dir_prefix dir +:+ join_segments path) <$> paths) hash
      with
      | Ok fed => Some fed
      | Throw _ => None
      end.
Proof.
  induction 1 as [|path rest (Hpath & Hne & Hmeta) _ IH]; intros hash; [done|].
  cbn [fold_files fmap list_fmap hash_files].
  rewrite relative_file by done.
  rewrite (proj2 (String.eqb_neq _ _) Hmeta).
  unfold hashFile, read_stream. rewrite file_below by done.
  destruct (content (_ ++ path)) as [bytes|]; [|done]. cbn. apply IH.
Qed.

(** Sorting the path strings and dropping the metadata record gives the
    files in the order of the reference. *)
Lemma sorted_files_reference (dir : string) (paths : list (list string)) :
  Forall (fun path => Forall proper_segment path /\ path <> []) paths ->
  filter (hashed dir)
    (merge_sort String.le ((fun path => dir_prefix dir +:+ join_segments path) <$> paths))
  = (fun path => dir_prefix dir +:+ join_segments path) <$>
      merge_sort path_le (filter (fun p => join_segments p <> METADATA_FILENAME) paths).
Proof.
  intros Hpaths.
  set (F := fun path => dir_prefix dir +:+ join_segments path).
  apply (StronglySorted_unique String.le).
  - apply StronglySorted_filter, StronglySorted_merge_sort; apply _.
  - apply (StronglySorted_fmap F path_le).
    + intros p q Hpq. unfold F. by apply le_app.
    + apply (@StronglySorted_merge_sort _ path_le _ path_le_transitive path_le_total).
  - rewrite !merge_sort_Permutation.
    rewrite (filter_fmap_ext F (fun p => join_segments p <> METADATA_FILENAME) (hashed dir));
      [done|].
    eapply Forall_impl; [exact Hpaths|]. intros path [Hpath Hne]. unfold Hasher.hashed, F.
    by rewrite relative_file.
Qed.


(** *** Read errors *)


End Hash.




(** *** What the hash does not depend on *)

Lemma reordered_kind (tree tree' : node) :
  reordered tree tree' ->
  match tree, tree' with
  | File, File | Other, Other | Directory _, Directory _ => True
  | _, _ => False
  end.
Proof.
  induction 1 as [tree| | |tree1 tree2 tree3 _ IH1 _ IH2]; try done.
  - by destruct tree.
  - by destruct tree1, tree2, tree3.
Qed.

Lemma getAllFiles_reordered (tree tree' : node) :
  reordered tree tree' -> forall dir, getAllFiles dir tree ≡ₚ getAllFiles dir tree'.
Proof.
  induction 1 as [tree|entries entries' Hperm|before name entry entry' after Hre IH
                  |tree1 tree2 tree3 _ IH1 _ IH2]; intros dir.
  - done.
  - rewrite !getAllFiles_listing. by rewrite Hperm.
  - rewrite !getAllFiles_listing, !fmap_app, !concat_app. cbn [fmap list_fmap concat].
    apply Permutation_app_head, Permutation_app_tail.
    unfold entry_files. cbn [fst snd]. apply reordered_kind in Hre.
    destruct entry, entry'; try done. destruct (starts_with_dot name); [done|apply IH].
  - by rewrite IH1.
Qed.

Section Inputs.

Variable METADATA_FILENAME : string.
Variable sha256 : string -> string.
Variable cwd : string.
Variable content : list string -> outcome string.

Abbreviation hashed := (Hasher.hashed METADATA_FILENAME cwd).
Abbreviation calculate := (calculateContentHash METADATA_FILENAME sha256 cwd content).

(** The hash is a function of the files that are hashed, as a collection:
    neither their order nor the files that are skipped matter. *)
Lemma calculateContentHash_same_files (skillDir : string) (tree tree' : node) :
  filter (hashed skillDir) (getAllFiles skillDir tree)
    ≡ₚ filter (hashed skillDir) (getAllFiles skillDir tree') ->
  calculate skillDir tree = calculate skillDir tree'.
Proof.
  intros Hperm. unfold calculateContentHash.
  rewrite (hash_files_hashed _ _ _ _ skillDir (merge_sort String.le (getAllFiles skillDir tree))).
  rewrite (hash_files_hashed _ _ _ _ skillDir (merge_sort String.le (getAllFiles skillDir tree'))).
  assert (filter (hashed skillDir) (merge_sort String.le (getAllFiles skillDir tree))
          = filter (hashed skillDir) (merge_sort String.le (getAllFiles skillDir tree')))
    as ->; [|done].
  apply (StronglySorted_unique String.le).
  - apply StronglySorted_filter, StronglySorted_merge_sort; apply _.
  - apply StronglySorted_filter, StronglySorted_merge_sort; apply _.
  - by rewrite !merge_sort_Permutation.
Qed.

(** X15: The hash does not depend on the order in which [readdir] lists the
    entries of the directory or of any directory below it. *)
Theorem calculateContentHash_listing_order (skillDir : string) (tree tree' : node) :
  reordered tree tree' ->
  calculate skillDir tree = calculate skillDir tree'.
Proof.
  intros Hre. apply calculateContentHash_same_files.
  by rewrite (getAllFiles_reordered tree tree' Hre).
Qed.

(** X16: Adding to the skill directory, or taking away from it, an entry
    that is neither a file nor a directory, a dot-prefixed directory with
    all that is in it, or the metadata record of the skill does not change
    the hash: the hash taken before the record is saved is the hash found
    afterwards. *)
Theorem calculateContentHash_ignores (base : list string)
    (before after : list (string * node)) (named : string * node) :
  Forall proper_segment base -> proper_segment METADATA_FILENAME ->
  never_hashed METADATA_FILENAME named ->
  calculate (absolute base) (Directory (Some (before ++ named :: after)))
  = calculate (absolute base) (Directory (Some (before ++ after))).
Proof.
  intros Hbase Hmeta Hnever. apply calculateContentHash_same_files.
  rewrite !getAllFiles_listing, !fmap_app, !concat_app. cbn [fmap list_fmap concat].
  rewrite !filter_app.
  assert (filter (hashed (absolute base)) (entry_files (absolute base) named) = []) as ->;
    [|done].
  destruct named as [name entry]. unfold never_hashed, entry_files in *. cbn [fst snd] in *.
  destruct entry; [|by rewrite Hnever|done].
  rewrite Hnever, filter_cons, decide_False; [done|].
  unfold Hasher.hashed. rewrite join_absolute by done.
  rewrite relative_absolute by (done || by constructor). by intros [].
Qed.

End Inputs.

Lemma reordered_example : reordered example_tree example_tree_reordered.
Proof.
  unfold example_tree, example_tree_reordered.
  eapply reordered_trans.
  - apply (reordered_inside [("SKILL.md", File); (".git", Directory (Some [("config", File)]))]
             "docs" _ (Directory (Some [("link", Other); ("usage.md", File)]))
             [(".skill-metadata.json", File)]).
    apply reordered_listing. apply perm_swap.
  - apply reordered_listing. cbn [app].
    etrans; [|apply perm_swap].
    apply (Permutation_app_comm
             [("SKILL.md", File); (".git", Directory (Some [("config", File)]))]
             [("docs", Directory (Some [("link", Other); ("usage.md", File)]));
              (".skill-metadata.json", File)]).
Qed.

Lemma calculateContentHash_listing_order_witness :
  calculateContentHash ".skill-metadata.json" marked "/home/u" own_path
    "/tmp/s/skill" example_tree_reordered
  = calculateContentHash ".skill-metadata.json" marked "/home/u" own_path
      "/tmp/s/skill" example_tree.
Proof.
  symmetry.
  apply (calculateContentHash_listing_order ".skill-metadata.json" marked "/home/u" own_path).
  apply reordered_example.
Defined.

Lemma calculateContentHash_ignores_witness :
  calculateContentHash ".skill-metadata.json" marked "/home/u" own_path "/tmp/s/skill"
    (Directory (Some [("SKILL.md", File); (".skill-metadata.json", File)]))
  = calculateContentHash ".skill-metadata.json" marked "/home/u" own_path "/tmp/s/skill"
      (Directory (Some [("SKILL.md", File)])).
Proof.
  assert (Forall proper_segment ["tmp"; "s"; "skill"]) as Hbase by (by repeat constructor).
  exact (calculateContentHash_ignores ".skill-metadata.json" marked "/home/u" own_path
           ["tmp"; "s"; "skill"] [("SKILL.md", File)] [] (".skill-metadata.json", File)
           Hbase ltac:(done) eq_refl).
Defined.

End HasherFacts.

(** ** utils.ts and agent-manager.ts: paths in the home directory *)

Module HomeFacts.
Import Path Utils AgentManager PathFacts UtilsFacts.

(** [path.normalize] of an absolute path, by its segments. *)
Lemma normalize_absolute (p : string) :
  starts_with_slash p = true ->
  let segments := normalize_segments false [] (split p) in
  normalize p =
    match segments with
    | [] => "/"
    | _ => absolute segments +:+ (if ends_with_slash p then "/" else "")
    end.
Proof.
  intros Hp. destruct p as [|c p]; [cbn in Hp; discriminate|].
  cbn zeta. unfold normalize, normalizeString.
  cbn [String.eqb]. rewrite Hp. cbn [negb].
  set (segments := normalize_segments false [] (split (String c p))).
  assert (Forall proper_segment segments) as Hall.
  { apply normalize_segments_output; [constructor|apply split_slash_free]. }
  clearbody segments. destruct segments as [|seg rest]; [done|].
  destruct (String.eqb_spec (join_segments (seg :: rest)) "") as [Hempty|_].
  { by apply join_segments_nonempty in Hempty. }
  unfold absolute. destruct (ends_with_slash _).
  - by rewrite string_app_assoc.
  - by rewrite string_app_nil_r.
Qed.

Lemma split_slash_first (s : string) : split ("/" +:+ s) = "" :: split s.
Proof. done. Qed.

Lemma normalize_segments_empty allow res (segments : list string) :
  normalize_segments allow res ("" :: segments) = normalize_segments allow res segments.
Proof. done. Qed.

Lemma normalize_segments_parent allow (top : string) (res rest : list string) :
  normalize_segments allow (top :: res) (".." :: rest)
  = if String.eqb top ".."
    then normalize_segments allow (if allow then ".." :: top :: res else top :: res) rest
    else normalize_segments allow res rest.
Proof. reflexivity. Qed.

Lemma split_segments (segments : list string) :
  Forall proper_segment segments -> segments <> [] ->
  split (join_segments segments) = segments.
Proof.
  intros Hall Hne. apply split_join; [|done].
  eapply Forall_impl; [done|]. by intros seg [? _].
Qed.

(** The segments of [dir + "/" + "/" + rest + tail], where [tail] is
    nothing or a trailing separator. *)
Lemma segments_of_joined (home rest : list string) (trailing : bool) :
  Forall proper_segment home -> Forall proper_segment rest -> rest <> [] ->
  normalize_segments false []
    (split (absolute home +:+ "/" +:+ "/" +:+ join_segments rest
              +:+ (if trailing then "/" else "")))
  = home ++ rest.
Proof.
  intros Hhome Hrest Hne.
  assert (split ("/" +:+ join_segments rest +:+ (if trailing then "/" else ""))
          = "" :: rest ++ (if trailing then [""] else [])) as Htail.
  { rewrite split_slash_first. f_equal. destruct trailing.
    - rewrite <- (string_app_nil_r (join_segments rest +:+ "/")).
      rewrite string_app_assoc, split_app_sep. by rewrite split_segments.
    - rewrite string_app_nil_r, app_nil_r. by apply split_segments. }
  rewrite split_app_sep, Htail.
  assert (normalize_segments false [] (split (absolute home) ++ "" :: rest ++
            (if trailing then [""] else []))
          = normalize_segments false [] (home ++ "" :: rest ++
              (if trailing then [""] else []))) as ->.
  { destruct home as [|h home']; [done|]. by rewrite split_absolute. }
  rewrite normalize_segments_proper_app by done.
  rewrite normalize_segments_empty.
  rewrite normalize_segments_proper_app by done.
  rewrite app_nil_r.
  destruct trailing; cbn [normalize_segments String.eqb orb];
    by rewrite reverse_app, !reverse_involutive.
Qed.

Lemma ends_with_slash_tail (s : string) (trailing : bool) :
  has_slash s = false -> s <> "" ->
  forall front, ends_with_slash (front +:+ s +:+ (if trailing then "/" else "")) = trailing.
Proof.
  intros Hs Hne front. destruct trailing.
  - rewrite <- string_app_assoc. by rewrite ends_with_slash_app.
  - rewrite string_app_nil_r, ends_with_slash_app by done.
    by apply slash_free_no_trailing.
Qed.

Lemma ends_with_slash_segments (segments : list string) (trailing : bool) :
  Forall proper_segment segments -> segments <> [] ->
  forall front,
    ends_with_slash (front +:+ join_segments segments +:+ (if trailing then "/" else ""))
    = trailing.
Proof.
  intros Hall Hne. induction Hall as [|seg rest Hseg Hrest IH]; [done|].
  intros front. destruct rest as [|seg' rest'].
  - destruct Hseg as (? & ? & _). by apply ends_with_slash_tail.
  - rewrite join_segments_cons by done.
    rewrite !string_app_assoc, <- (string_app_assoc front), <- (string_app_assoc (front +:+ seg)).
    rewrite <- string_app_assoc. rewrite string_app_assoc. apply IH. done.
Qed.

(** [path.normalize] leaves a resolved path alone, with or without a
    trailing separator. *)
Lemma normalize_resolved (segments : list string) (trailing : bool) :
  Forall proper_segment segments -> segments <> [] ->
  normalize (absolute segments +:+ (if trailing then "/" else ""))
  = absolute segments +:+ (if trailing then "/" else "").
Proof.
  intros Hall Hne. rewrite normalize_absolute by done. cbn zeta.
  assert (normalize_segments false []
            (split (absolute segments +:+ (if trailing then "/" else ""))) = segments) as ->.
  { destruct trailing.
    - by apply split_with_trailing_slash.
    - rewrite string_app_nil_r, split_absolute by done.
      rewrite normalize_segments_empty. by rewrite normalize_segments_proper. }
  destruct segments as [|seg rest]; [done|]. f_equal.
  unfold absolute. rewrite string_app_assoc.
  by rewrite (ends_with_slash_segments (seg :: rest) trailing Hall Hne "/").
Qed.

(** [path.join] of the home directory and what follows the tilde. *)
Lemma join_home (home rest : list string) (trailing : bool) :
  Forall proper_segment home -> Forall proper_segment rest -> rest <> [] ->
  join (absolute home) ("/" +:+ join_segments rest +:+ (if trailing then "/" else ""))
  = absolute (home ++ rest) +:+ (if trailing then "/" else "").
Proof.
  intros Hhome Hrest Hne. unfold join. rewrite absolute_not_empty.
  change (String.eqb ("/" +:+ _) "") with false. cbn match.
  rewrite normalize_absolute by done. cbn zeta.
  rewrite segments_of_joined by done.
  destruct (home ++ rest) as [|seg more] eqn:Happ.
  { apply app_eq_nil in Happ as [_ ->]. done. }
  f_equal.
  rewrite <- !string_app_assoc, string_app_assoc.
  by rewrite (ends_with_slash_segments rest trailing Hrest Hne).
Qed.

(** [path.join] of a directory given with its trailing separator and a file
    name. *)
Lemma join_directory (base : list string) (name : string) :
  Forall proper_segment base -> proper_segment name ->
  join (absolute base +:+ "/") name = absolute (base ++ [name]).
Proof.
  intros Hbase Hname. pose proof Hname as (Hslash & Hne & _). unfold join.
  assert (String.eqb (absolute base +:+ "/") "" = false) as -> by done.
  rewrite (proj2 (String.eqb_neq _ _) Hne).
  rewrite normalize_absolute by done. cbn zeta.
  pose proof (segments_of_joined base [name] false Hbase) as Hsegs.
  cbn [join_segments] in Hsegs. rewrite string_app_nil_r in Hsegs.
  rewrite string_app_assoc, Hsegs; [|by constructor|done].
  destruct (base ++ [name]) as [|seg more] eqn:Happ; [by destruct base|].
  rewrite <- !string_app_assoc, ends_with_slash_app by done.
  by rewrite slash_free_no_trailing, string_app_nil_r.
Qed.

(** [path.resolve] drops the trailing separator of a directory. *)
Lemma resolve_directory (cwd : string) (base : list string) :
  Forall proper_segment base -> base <> [] ->
  resolve cwd (absolute base +:+ "/") = absolute base.
Proof.
  intros Hbase Hne. unfold resolve, normalizeString.
  assert (String.eqb (absolute base +:+ "/") "" = false) as -> by done.
  change (starts_with_slash (absolute base +:+ "/")) with true. cbn match.
  fold (absolute (normalize_segments false [] (split ((absolute base +:+ "/") +:+ "/")))).
  f_equal. rewrite <- (string_app_nil_r ((absolute base +:+ "/") +:+ "/")).
  rewrite string_app_assoc, split_app_sep.
  rewrite <- (string_app_nil_r (absolute base +:+ "/")).
  rewrite string_app_assoc, split_app_sep, split_absolute by done.
  change (split "") with [""].
  rewrite <- app_assoc. cbn [app]. rewrite normalize_segments_empty.
  rewrite normalize_segments_proper_app by done. rewrite app_nil_r.
  cbn. apply reverse_involutive.
Qed.

Lemma prefix_tilde (rest : string) : String.prefix "~/" ("~/" +:+ rest) = true.
Proof. apply prefix_spec. by exists rest. Qed.

(** X17: A path in the home directory: [~] is the home directory itself, and
    what follows [~/] is appended to it.  The result lies within the home
    directory for [validatePathWithinBase] when the home directory is not
    the root; below a home directory that is the root it is rejected. An
    absolute path is returned as it is, and the empty path is refused with
    a validation error. *)
Theorem resolveHomePath_expands_home (cwd : string) (home rest : list string) :
  Forall proper_segment home ->
  Forall proper_segment rest -> rest <> [] ->
  resolveHomePath (absolute home) "~" = Ok (absolute home) /\
  resolveHomePath (absolute home) ("~/" +:+ join_segments rest)
    = Ok (absolute (home ++ rest)) /\
  (home <> [] ->
   validatePathWithinBase cwd (absolute home) (absolute (home ++ rest)) None = Ok tt) /\
  (home = [] ->
   exists t, validatePathWithinBase cwd (absolute home) (absolute (home ++ rest)) None
             = Throw t) /\
  resolveHomePath (absolute home) (absolute rest) = Ok (absolute rest) /\
  exists message context,
    resolveHomePath (absolute home) ""
    = Throw (ThrowError (SkillManagerError message VALIDATION_ERROR context None)).
Proof.
  intros Hhome Hrest Hnr.
  assert (Forall proper_segment (home ++ rest)) as Hall by (by apply Forall_app).
  split; [|split; [|split; [|split; [|split]]]].
  - destruct home as [|h home']; [reflexivity|].
    unfold resolveHomePath. change (String.eqb "~" "") with false. cbn match.
    assert (String.prefix "~/" "~" || String.eqb "~" "~" = true) as -> by done.
    change (slice1 "~") with "". unfold join. rewrite absolute_not_empty.
    change (String.eqb "" "") with true. cbn match.
    pose proof (normalize_resolved (h :: home') false Hhome ltac:(done)) as Hn.
    rewrite string_app_nil_r in Hn. by rewrite !Hn.
  - unfold resolveHomePath.
    assert (String.eqb ("~/" +:+ join_segments rest) "" = false) as -> by done.
    rewrite prefix_tilde. cbn [orb].
    change (slice1 ("~/" +:+ join_segments rest)) with ("/" +:+ join_segments rest).
    pose proof (join_home home rest false Hhome Hrest Hnr) as Hj.
    rewrite !string_app_nil_r in Hj. rewrite Hj.
    pose proof (normalize_resolved (home ++ rest) false Hall) as Hn.
    rewrite string_app_nil_r in Hn. rewrite Hn; [done|by destruct home, rest].
  - intros Hne. apply validate_accepts. left. rewrite !resolve_absolute_id by done.
    apply prefix_absolute; [done..|]. by exists rest.
  - intros ->.
    destruct (validatePathWithinBase cwd (absolute []) (absolute ([] ++ rest)) None)
      as [[]|t] eqn:Hvalid; [|by exists t].
    apply validatePathWithinBase_root_base in Hvalid.
    + rewrite resolve_absolute_id, segments_of_absolute in Hvalid by done. done.
    + by rewrite resolve_absolute_id, segments_of_absolute.
  - unfold resolveHomePath. rewrite absolute_not_empty.
    assert (String.prefix "~/" (absolute rest) || String.eqb (absolute rest) "~" = false)
      as -> by done.
    pose proof (normalize_resolved rest false Hrest Hnr) as Hn.
    rewrite string_app_nil_r in Hn. by rewrite Hn.
  - by eexists _, _.
Qed.

(** X18: Normalising does not confine a path to the home directory:
    [~/../name] is the sibling [name] of the home directory, which
    [validatePathWithinBase] places outside it. *)
Theorem resolveHomePath_can_leave_home (cwd : string) (parent : list string)
    (user name : string) :
  Forall proper_segment parent -> proper_segment user -> proper_segment name ->
  name <> user ->
  resolveHomePath (absolute (parent ++ [user])) ("~/../" +:+ name)
    = Ok (absolute (parent ++ [name])) /\
  exists t, validatePathWithinBase cwd (absolute (parent ++ [user]))
              (absolute (parent ++ [name])) None = Throw t.
Proof.
  intros Hparent Huser Hname Hdiff.
  assert (Forall proper_segment (parent ++ [user])) as Hhome
    by (apply Forall_app; split; [done|by constructor]).
  assert (Forall proper_segment (parent ++ [name])) as Htarget
    by (apply Forall_app; split; [done|by constructor]).
  pose proof Hname as (Hslash & Hne & _).
  split.
  - unfold resolveHomePath.
    assert (String.eqb ("~/../" +:+ name) "" = false) as -> by done.
    change ("~/../" +:+ name) with ("~/" +:+ ("../" +:+ name)).
    rewrite prefix_tilde. cbn [orb].
    change (slice1 ("~/" +:+ ("../" +:+ name))) with ("/" +:+ ".." +:+ "/" +:+ name).
    assert (join (absolute (parent ++ [user])) ("/" +:+ ".." +:+ "/" +:+ name)
            = absolute (parent ++ [name])) as ->.
    { unfold join. rewrite absolute_not_empty.
      change (String.eqb ("/" +:+ _) "") with false. cbn match.
      rewrite normalize_absolute by done. cbn zeta.
      assert (normalize_segments false []
                (split (absolute (parent ++ [user]) +:+ "/" +:+ "/" +:+ ".." +:+ "/" +:+ name))
              = parent ++ [name]) as ->.
      { rewrite split_app_sep, split_slash_first.
        rewrite (split_app_sep ".." name), (split_one name) by done.
        rewrite split_absolute by (done || by destruct parent).
        change (split "..") with [".."]. cbn [app].
        rewrite normalize_segments_empty.
        rewrite normalize_segments_proper_app by done.
        rewrite normalize_segments_empty. rewrite app_nil_r, reverse_app.
        cbn [reverse app]. change (reverse [user]) with [user]. cbn [app].
        destruct (proper_not_special user Huser) as [_ Hu].
        rewrite normalize_segments_parent, Hu.
        rewrite normalize_segments_proper by (by constructor).
        by rewrite reverse_involutive. }
      destruct (parent ++ [name]) as [|seg more] eqn:Happ; [by destruct parent|].
      rewrite <- !string_app_assoc, ends_with_slash_app by done.
      by rewrite slash_free_no_trailing, string_app_nil_r. }
    pose proof (normalize_resolved (parent ++ [name]) false Htarget) as Hn.
    rewrite string_app_nil_r in Hn. rewrite Hn; [done|by destruct parent].
  - destruct (validate_total cwd (absolute (parent ++ [user]))
                (absolute (parent ++ [name])) None) as [Hok|Hthrows]; [|done].
    apply validate_accepts in Hok. rewrite !resolve_absolute_id in Hok by done.
    destruct Hok as [Hprefix|Heq].
    + apply prefix_absolute in Hprefix as (more & Hmore & Happ); [|done..|by destruct parent].
      apply (f_equal length) in Happ. rewrite !length_app in Happ. cbn in Happ.
      destruct more; [done|]. cbn in Happ. lia.
    + apply absolute_inj in Heq; [|done..].
      apply app_inv_head in Heq. congruence.
Qed.

Lemma resolveHomePath_expands_home_witness :
  resolveHomePath "/home/u" "~/.agents/skills" = Ok "/home/u/.agents/skills" /\
  validatePathWithinBase "/work" "/home/u" "/home/u/.agents/skills" None = Ok tt.
Proof.
  assert (Forall proper_segment ["home"; "u"]) as Hhome by (by repeat constructor).
  assert (Forall proper_segment [".agents"; "skills"]) as Hrest by (by repeat constructor).
  destruct (resolveHomePath_expands_home "/work" ["home"; "u"] [".agents"; "skills"]
              Hhome Hrest ltac:(done))
    as (_ & Hexpand & Hwithin & _).
  split; [exact Hexpand|]. by apply Hwithin.
Defined.

(** Where the home directory is the root, what lies in it is rejected. *)
Lemma resolveHomePath_root_home :
  resolveHomePath "/" "~/.agents/skills" = Ok "/.agents/skills" /\
  exists t, validatePathWithinBase "/work" "/" "/.agents/skills" None = Throw t.
Proof. split; [reflexivity|]. by eexists. Qed.

Lemma resolveHomePath_can_leave_home_witness :
  resolveHomePath "/home/u" "~/../v" = Ok "/home/v" /\
  exists t, validatePathWithinBase "/work" "/home/u" "/home/v" None = Throw t.
Proof.
  assert (Forall proper_segment ["home"]) as Hparent by (by repeat constructor).
  exact (resolveHomePath_can_leave_home "/work" ["home"] "u" "v" Hparent
           ltac:(done) ltac:(done) ltac:(done)).
Defined.

(** Calls made one after the other all succeed when each of them does. *)
Lemma mapM_outcome_all {A B} (f : A -> outcome B) (l : list A) :
  (forall x, x ∈ l -> exists y, f x = Ok y) ->
  exists ys, mapM_outcome f l = Ok ys /\ Forall2 (fun x y => f x = Ok y) l ys.
Proof.
  induction l as [|x l IH]; intros Hall; [by exists []|].
  destruct (Hall x) as [y Hy]; [by left|].
  destruct IH as (ys & Hys & Hrel); [intros x' Hx'; apply Hall; by right|].
  exists (y :: ys). cbn. rewrite Hy, Hys. split; [done|by constructor].
Qed.

(** A directory of the home directory written with the tilde and a trailing
    separator keeps the separator. *)
Lemma resolveHomePath_directory (home dir : list string) :
  Forall proper_segment home -> Forall proper_segment dir -> dir <> [] ->
  resolveHomePath (absolute home) ("~/" +:+ join_segments dir +:+ "/")
  = Ok (absolute (home ++ dir) +:+ "/").
Proof.
  intros Hhome Hdir Hne. unfold resolveHomePath.
  assert (String.eqb ("~/" +:+ join_segments dir +:+ "/") "" = false) as -> by done.
  rewrite prefix_tilde. cbn [orb].
  change (slice1 ("~/" +:+ join_segments dir +:+ "/")) with ("/" +:+ join_segments dir +:+ "/").
  rewrite (join_home home dir true) by done.
  rewrite (normalize_resolved (home ++ dir) true); [done|by apply Forall_app|].
  by destruct home, dir.
Qed.

(** The skills directory of every agent lies in the home directory. *)
Lemma agent_directory (home : list string) (agent : string) :
  Forall proper_segment home -> agent ∈ getAllAgentTypes ->
  exists dir, Forall proper_segment dir /\ dir <> [] /\
    getAgentGlobalPath (absolute home) agent = Ok (absolute (home ++ dir) +:+ "/").
Proof.
  intros Hhome Hagent. unfold getAgentGlobalPath.
  change getAllAgentTypes
    with ["antigravity"; "claude-code"; "codex"; "cursor"; "gemini-cli"; "github-copilot"]
    in Hagent.
  repeat (apply elem_of_cons in Hagent as [->|Hagent]); [..|by apply elem_of_nil in Hagent].
  - exists [".gemini"; "antigravity"; "global_skills"].
    split; [by repeat constructor|]. split; [done|].
    by apply (resolveHomePath_directory home [".gemini"; "antigravity"; "global_skills"]);
      repeat constructor.
  - exists [".claude"; "skills"].
    split; [by repeat constructor|]. split; [done|].
    by apply (resolveHomePath_directory home [".claude"; "skills"]); repeat constructor.
  - exists [".codex"; "skills"].
    split; [by repeat constructor|]. split; [done|].
    by apply (resolveHomePath_directory home [".codex"; "skills"]); repeat constructor.
  - exists [".cursor"; "skills"].
    split; [by repeat constructor|]. split; [done|].
    by apply (resolveHomePath_directory home [".cursor"; "skills"]); repeat constructor.
  - exists [".gemini"; "skills"].
    split; [by repeat constructor|]. split; [done|].
    by apply (resolveHomePath_directory home [".gemini"; "skills"]); repeat constructor.
  - exists [".copilot"; "skills"].
    split; [by repeat constructor|]. split; [done|].
    by apply (resolveHomePath_directory home [".copilot"; "skills"]); repeat constructor.
Qed.

(** The place of a skill's link in an agent's directory. *)
Lemma link_path_within (cwd : string) (base : list string) (skillName : string) :
  Forall proper_segment base -> base <> [] -> proper_segment skillName ->
  validatePathWithinBase cwd (absolute base +:+ "/")
    (join (absolute base +:+ "/") skillName) None = Ok tt.
Proof.
  intros Hbase Hne Hname. rewrite join_directory by done.
  apply validate_accepts. left.
  rewrite resolve_directory, resolve_absolute_id; [|by apply Forall_app; split; [|constructor]|done..].
  apply prefix_absolute; [done|by apply Forall_app; split; [|constructor]|done|].
  by exists [skillName].
Qed.

(** X19: For every agent and every skill whose name is a file name, the
    skills directory of the agent lies in the home directory, and the place
    of the skill's link, [path.join(agentPath, skillName)], lies in the
    skills directory of the agent: it passes the test that [createSymlink]
    makes against the directories of all agents. *)
Theorem agent_link_paths_accepted (cwd : string) (home : list string)
    (agent skillName : string) :
  Forall proper_segment home -> home <> [] ->
  agent ∈ getAllAgentTypes -> proper_segment skillName ->
  exists agentPath allAgentPaths,
    getAgentGlobalPath (absolute home) agent = Ok agentPath /\
    getAllAgentGlobalPaths (absolute home) None = Ok allAgentPaths /\
    agentPath ∈ allAgentPaths /\
    validatePathWithinBase cwd (absolute home) agentPath None = Ok tt /\
    validatePathWithinBase cwd agentPath (join agentPath skillName) None = Ok tt /\
    existsb (fun allowed =>
               match validatePathWithinBase cwd allowed (join agentPath skillName) None with
               | Ok _ => true
               | Throw _ => false
               end) allAgentPaths = true.
Proof.
  intros Hhome Hne Hagent Hname.
  destruct (agent_directory home agent Hhome Hagent) as (dir & Hdir & Hnd & Hpath).
  destruct (mapM_outcome_all (getAgentGlobalPath (absolute home)) getAllAgentTypes)
    as (paths & Hpaths & Hrel).
  { intros a Ha. destruct (agent_directory home a Hhome Ha) as (d & _ & _ & ->). eauto. }
  assert (absolute (home ++ dir) +:+ "/" ∈ paths) as Hin.
  { apply list_elem_of_lookup in Hagent as [i Hi].
    destruct (Forall2_lookup_l _ _ _ _ _ Hrel Hi) as (p & Hp & Hfp).
    rewrite Hpath in Hfp. injection Hfp as <-. by apply list_elem_of_lookup_2 in Hp. }
  assert (Forall proper_segment (home ++ dir)) as Hall by (by apply Forall_app).
  assert (home ++ dir <> []) as Hnn by (by destruct home).
  assert (validatePathWithinBase cwd (absolute (home ++ dir) +:+ "/")
            (join (absolute (home ++ dir) +:+ "/") skillName) None = Ok tt) as Hlink
    by (by apply link_path_within).
  exists (absolute (home ++ dir) +:+ "/"), paths.
  split; [done|]. split; [done|]. split; [done|]. split; [|split; [done|]].
  - apply validate_accepts. left.
    rewrite resolve_directory, resolve_absolute_id by done.
    apply prefix_absolute; [done..|]. by exists dir.
  - apply existsb_exists. exists (absolute (home ++ dir) +:+ "/").
    split; [by apply list_elem_of_In|]. by rewrite Hlink.
Qed.

Lemma agent_link_paths_accepted_witness :
  getAgentGlobalPath "/home/u" "claude-code" = Ok "/home/u/.claude/skills/" /\
  validatePathWithinBase "/work" "/home/u/.claude/skills/"
    (join "/home/u/.claude/skills/" "my-skill") None = Ok tt.
Proof.
  assert (Forall proper_segment ["home"; "u"]) as Hhome by (by repeat constructor).
  assert ("claude-code" ∈ getAllAgentTypes) as Hagent by (by repeat constructor).
  assert (proper_segment "my-skill") as Hname by done.
  destruct (agent_link_paths_accepted "/work" ["home"; "u"] "claude-code" "my-skill"
              Hhome ltac:(done) Hagent Hname)
    as (agentPath & paths & Hpath & _ & _ & _ & Hlink & _).
  assert (agentPath = "/home/u/.claude/skills/") as -> by (vm_compute in Hpath; congruence).
  done.
Defined.

End HomeFacts.

(** ** agent-manager.ts: symlinks *)

Module AgentManagerFacts.
Import AgentManager.

Lemma follow_real (hops : nat) (fs : gmap string entry) (path : string) (e : entry) :
  fs !! path = Some e -> is_symlink e = false -> follow hops fs path = Some e.
Proof. intros Hpath He. destruct hops; cbn; rewrite Hpath; by destruct e. Qed.

(** [ensureDir] only adds directories: what is there stays. *)
Lemma make_directories_keeps (depth : nat) :
  forall fs dir fs',
    make_directories depth fs dir = Ok fs' ->
    forall path e, fs !! path = Some e -> fs' !! path = Some e.
Proof.
  induction depth as [|depth IH]; intros fs dir fs' Hmake path e Hpath;
    cbn [make_directories] in Hmake.
  - destruct (follow SYMLOOP_MAX fs dir) as [[| |]|]; try done; [by injection Hmake as <-|].
    destruct (fs !! dir) eqn:Hdir; [done|]. injection Hmake as <-.
    rewrite lookup_insert_ne; [done|]. by intros ->; rewrite Hdir in Hpath.
  - destruct (follow SYMLOOP_MAX fs dir) as [[| |]|]; try done; [by injection Hmake as <-|].
    destruct (fs !! dir) eqn:Hdir; [done|].
    destruct (String.eqb (Path.dirname dir) dir).
    + injection Hmake as <-.
      rewrite lookup_insert_ne; [done|]. by intros ->; rewrite Hdir in Hpath.
    + destruct (make_directories depth fs (Path.dirname dir)) as [fs1|] eqn:Hparent; [|done].
      pose proof (IH _ _ _ Hparent path e Hpath) as Hkept.
      destruct (fs1 !! dir) eqn:Hdir1; injection Hmake as <-; [done|].
      rewrite lookup_insert_ne; [done|]. by intros ->; rewrite Hdir1 in Hkept.
Qed.

Section CreateSymlink.

Variables (homedir cwd : string).

(** C7: where [createSymlink] finds an entry at the target path, it removes
    the entry only if it is a symlink; a real file or directory is still
    there afterwards, unchanged, no symlink replaces it, and when the call
    gets as far as looking at the target it returns with a warning. *)
Theorem createSymlink_spares_real_entries (source target skillName : string)
    (w : world) (e : entry) :
  let result := createSymlink homedir cwd source target skillName w in
  files w !! target = Some e ->
  (files result.2 !! target <> Some e -> is_symlink e = true) /\
  (is_symlink e = false ->
   files result.2 !! target = Some e /\
   (result.1 = Ok tt ->
    warnings result.2 = warnings w ++
      ["Warning: " +:+ target +:+
       " already exists and is not a symlink. Skipping symlink creation."]) /\
   (forall t, result.1 = Throw t -> result.2 = w)).
Proof.
  intros result Htarget.
  assert (is_symlink e = false ->
          files result.2 !! target = Some e /\
          (result.1 = Ok tt ->
           warnings result.2 = warnings w ++
             ["Warning: " +:+ target +:+
              " already exists and is not a symlink. Skipping symlink creation."]) /\
          (forall t, result.1 = Throw t -> result.2 = w)) as Hreal.
  { intros He. subst result. unfold createSymlink, rethrow, and_then, pathExists, throw.
    destruct (bool_decide (is_Some (follow SYMLOOP_MAX (files w) source))); cbn [negb];
      [|done].
    destruct (getAllAgentGlobalPaths homedir None) as [allAgentPaths|]; [|done].
    destruct (existsb _ allAgentPaths); cbn [negb]; [|done].
    unfold ensureDir.
    destruct (make_directories _ (files w) (Path.dirname target)) as [fs1|] eqn:Hmake;
      [|done].
    pose proof (make_directories_keeps _ _ _ _ Hmake target e Htarget) as Hkept.
    cbn [files warnings].
    rewrite (follow_real _ _ _ _ Hkept He).
    rewrite bool_decide_eq_true_2 by eauto.
    unfold lstat. cbn [files]. rewrite Hkept, He. cbn. done. }
  split; [|done].
  intros Hchanged. destruct (is_symlink e) eqn:He; [done|].
  by destruct (Hreal eq_refl) as [? _].
Qed.

End CreateSymlink.

(** The statement of C7 where a real folder sits at the target path. *)
Lemma createSymlink_spares_real_entries_witness :
  let result := createSymlink "/home/u" "/home/u" "/tmp/s/skill"
                  "/home/u/.claude/skills/skill" "skill" (example_world (Some Folder)) in
  files result.2 !! "/home/u/.claude/skills/skill" = Some Folder /\
  result.1 = Ok tt /\
  length (warnings result.2) = 1%nat.
Proof.
  intros result.
  destruct (createSymlink_spares_real_entries "/home/u" "/home/u" "/tmp/s/skill"
              "/home/u/.claude/skills/skill" "skill" (example_world (Some Folder)) Folder
              eq_refl) as [_ Hreal].
  destruct (Hreal eq_refl) as (Hkept & Hwarn & _).
  assert (result.1 = Ok tt) as Hok by (vm_compute; reflexivity).
  split; [exact Hkept|]. split; [exact Hok|].
  subst result. rewrite (Hwarn Hok). reflexivity.
Defined.

(** A link that is already there is replaced. *)
Lemma createSymlink_replaces_link :
  let result := createSymlink "/home/u" "/home/u" "/tmp/s/skill"
                  "/home/u/.claude/skills/skill" "skill"
                  (example_world (Some (Symlink "/tmp/s/skill"))) in
  result.1 = Ok tt /\
  files result.2 !! "/home/u/.claude/skills/skill" = Some (Symlink "/tmp/s/skill") /\
  warnings result.2 = [].
Proof. vm_compute. repeat split. Qed.

(** *** Links that are removed and listed *)

(** What can be reached in a part of the file system can be reached in the
    whole of it. *)
Lemma follow_subseteq (hops : nat) (fs fs' : gmap string entry) :
  fs' ⊆ fs -> forall path e, follow hops fs' path = Some e -> follow hops fs path = Some e.
Proof.
  intros Hsub. induction hops as [|hops IH]; intros path e; cbn [follow].
  - destruct (fs' !! path) as [found|] eqn:Hpath; [|done].
    rewrite (lookup_weaken _ _ _ _ Hpath Hsub). done.
  - destruct (fs' !! path) as [found|] eqn:Hpath; [|done].
    rewrite (lookup_weaken _ _ _ _ Hpath Hsub). destruct found; try done. apply IH.
Qed.

Lemma follow_link (hops : nat) (fs : gmap string entry) (path destination : string) :
  fs !! path = Some (Symlink destination) ->
  follow (S hops) fs path = follow hops fs (link_destination path destination).
Proof. intros Hpath. cbn [follow]. by rewrite Hpath. Qed.

Lemma follow_vacant (hops : nat) (fs : gmap string entry) (path : string) :
  fs !! path = None -> follow hops fs path = None.
Proof. intros Hpath. destruct hops; cbn [follow]; by rewrite Hpath. Qed.

(** [isSymlink] answers without an error and without a change. *)
Lemma isSymlink_answer (targetPath : string) (w : world) :
  isSymlink targetPath w
  = (Ok (bool_decide (is_Some (follow SYMLOOP_MAX (files w) targetPath))
         && match files w !! targetPath with
            | Some e => is_symlink e
            | None => false
            end), w).
Proof.
  unfold isSymlink, catch, and_then, pathExists, lstat, ret.
  destruct (bool_decide _); [|done]. by destruct (files w !! targetPath).
Qed.

Lemma isSymlink_world (targetPath : string) (w : world) : (isSymlink targetPath w).2 = w.
Proof. by rewrite isSymlink_answer. Qed.

(** [removeSymlink] never throws; it takes away at most the entry at the
    target, and only a link; afterwards no link that leads somewhere is at
    the target, unless the system refused to remove the one that was
    there. *)
Lemma removeSymlink_effect (target : string) (w : world) :
  exists w', removeSymlink target w = (Ok tt, w') /\
    files w' ⊆ files w /\
    denied w' = denied w /\
    (forall path e, files w !! path = Some e -> is_symlink e = false ->
       files w' !! path = Some e) /\
    (forall path, path <> target -> files w' !! path = files w !! path) /\
    ((isSymlink target w').1 = Ok false \/
     (target ∈ denied w /\ (isSymlink target w).1 = Ok true)).
Proof.
  unfold removeSymlink, catch, and_then, pathExists, lstat, unlink, ret, warn.
  destruct (bool_decide (is_Some (follow SYMLOOP_MAX (files w) target))) eqn:Hexists.
  - destruct (files w !! target) as [e|] eqn:Htarget.
    + destruct e as [| |destination]; cbn [is_symlink].
      * exists w. repeat (split; [done|]). left.
        rewrite isSymlink_answer, Htarget. cbn. by rewrite andb_false_r.
      * exists w. repeat (split; [done|]). left.
        rewrite isSymlink_answer, Htarget. cbn. by rewrite andb_false_r.
      * rewrite Htarget. destruct (bool_decide (target ∈ denied w)) eqn:Hdenied.
        -- apply bool_decide_eq_true in Hdenied.
           eexists. split; [reflexivity|]. cbn [files denied].
           repeat (split; [done|]). right. split; [done|].
           rewrite isSymlink_answer, Hexists, Htarget. done.
        -- eexists. split; [reflexivity|]. cbn [files denied].
           split; [apply delete_subseteq|]. split; [done|].
           split; [|split].
           ++ intros path e Hpath He. rewrite lookup_delete_ne; [done|].
              intros <-. rewrite Htarget in Hpath. by injection Hpath as <-.
           ++ intros path Hne. by rewrite lookup_delete_ne.
           ++ left. rewrite isSymlink_answer. cbn [files fst]. rewrite lookup_delete_eq.
              by rewrite andb_false_r.
    + apply bool_decide_eq_true in Hexists as [e He].
      destruct SYMLOOP_MAX; cbn in He; by rewrite Htarget in He.
  - exists w. repeat (split; [done|]). left. rewrite isSymlink_answer, Hexists. done.
Qed.

(** Taking entries away never makes a link lead somewhere. *)
Lemma isSymlink_subseteq (targetPath : string) (w w' : world) :
  files w' ⊆ files w ->
  (forall path e, files w !! path = Some e -> is_symlink e = false ->
     files w' !! path = Some e) ->
  (isSymlink targetPath w).1 = Ok false -> (isSymlink targetPath w').1 = Ok false.
Proof.
  intros Hsub Hreal. rewrite !isSymlink_answer. cbn [fst].
  generalize SYMLOOP_MAX. intros hops [= Hw]. f_equal.
  apply andb_false_iff in Hw as [Hw|Hw].
  - apply andb_false_iff. left. apply bool_decide_eq_false in Hw.
    apply bool_decide_eq_false. intros [e He]. apply Hw. exists e.
    by eapply follow_subseteq.
  - destruct (files w' !! targetPath) as [e'|] eqn:Hpath'; [|by rewrite andb_false_r].
    rewrite (lookup_weaken _ _ _ _ Hpath' Hsub) in Hw. by rewrite Hw, andb_false_r.
Qed.

Section Links.

Variables (homedir cwd : string).

Lemma getAgentGlobalPath_known (agent : string) :
  agent ∈ getAllAgentTypes <-> exists path, getAgentGlobalPath homedir agent = Ok path.
Proof.
  unfold getAgentGlobalPath. split.
  - intros Hagent.
    change getAllAgentTypes
      with ["antigravity"; "claude-code"; "codex"; "cursor"; "gemini-cli"; "github-copilot"]
      in Hagent.
    repeat (apply elem_of_cons in Hagent as [->|Hagent]); [..|by apply elem_of_nil in Hagent];
      by eexists.
  - intros [path Hpath].
    destruct (list_find _ AGENT_PATHS) as [[i row]|] eqn:Hfind; [|done].
    apply list_find_Some in Hfind as (Hrow & <- & _).
    apply list_elem_of_lookup_2 in Hrow. unfold getAllAgentTypes.
    apply list_elem_of_fmap. by exists row.
Qed.

(** A link that leads somewhere after entries were taken away led
    somewhere before. *)
Lemma isSymlink_before (targetPath : string) (w w' : world) :
  files w' ⊆ files w ->
  (forall path e, files w !! path = Some e -> is_symlink e = false ->
     files w' !! path = Some e) ->
  (isSymlink targetPath w').1 = Ok true -> (isSymlink targetPath w).1 = Ok true.
Proof.
  intros Hsub Hreal Hafter.
  destruct ((isSymlink targetPath w).1) as [[|]|t] eqn:Hbefore; [done| |].
  - by rewrite (isSymlink_subseteq targetPath w w' Hsub Hreal Hbefore) in Hafter.
  - by rewrite isSymlink_answer in Hbefore.
Qed.

(** The loop of [removeSymlinksForSkill] over agents of the table. *)
Lemma remove_each_effect (skillName : string) (targetAgents : list string) :
  Forall (fun agent => agent ∈ getAllAgentTypes) targetAgents ->
  forall w,
    exists w', remove_each homedir skillName targetAgents w = (Ok tt, w') /\
      files w' ⊆ files w /\
      denied w' = denied w /\
      (forall path e, files w !! path = Some e -> is_symlink e = false ->
         files w' !! path = Some e) /\
      (forall agent agentPath, agent ∈ targetAgents ->
         getAgentGlobalPath homedir agent = Ok agentPath ->
         (isSymlink (Path.join agentPath skillName) w').1 = Ok false \/
         (Path.join agentPath skillName ∈ denied w /\
          (isSymlink (Path.join agentPath skillName) w).1 = Ok true)).
Proof.
  induction 1 as [|agent rest Hagent _ IH]; intros w.
  { exists w. repeat split; try done. by intros agent agentPath ?%elem_of_nil. }
  cbn [remove_each].
  apply getAgentGlobalPath_known in Hagent as [agentPath Hpath]. rewrite Hpath.
  unfold and_then.
  destruct (removeSymlink_effect (Path.join agentPath skillName) w)
    as (w1 & -> & Hsub1 & Hdenied1 & Hreal1 & _ & Hgone).
  destruct (IH w1) as (w' & -> & Hsub & Hdenied & Hreal & Hrest).
  exists w'. split; [done|]. split; [by etrans|]. split; [congruence|]. split; [by auto|].
  intros agent' agentPath' [->|Hin]%elem_of_cons Hpath'.
  - rewrite Hpath in Hpath'. injection Hpath' as <-.
    destruct Hgone as [Hgone|Hkept]; [left|by right].
    by apply (isSymlink_subseteq _ w1).
  - destruct (Hrest agent' agentPath' Hin Hpath') as [Hgone'|[Hin' Hkept']]; [by left|].
    right. split; [by rewrite <- Hdenied1|]. by apply (isSymlink_before _ w w1).
Qed.

(** The loop of [getLinkedAgents] where no agent has a link. *)
Lemma linked_among_none (skillName : string) (allAgents : list string) (w : world) :
  Forall (fun agent => agent ∈ getAllAgentTypes) allAgents ->
  (forall agent agentPath, agent ∈ allAgents ->
     getAgentGlobalPath homedir agent = Ok agentPath ->
     (isSymlink (Path.join agentPath skillName) w).1 = Ok false) ->
  forall linkedAgents,
    linked_among homedir skillName allAgents linkedAgents w = (Ok linkedAgents, w).
Proof.
  induction 1 as [|agent rest Hagent _ IH]; intros Hnone linkedAgents; [done|].
  cbn [linked_among].
  apply getAgentGlobalPath_known in Hagent as [agentPath Hpath]. rewrite Hpath.
  unfold and_then.
  pose proof (Hnone agent agentPath ltac:(by left) Hpath) as Hfalse.
  pose proof (isSymlink_world (Path.join agentPath skillName) w) as Hworld.
  destruct (isSymlink (Path.join agentPath skillName) w) as [linked w1].
  cbn [fst snd] in Hfalse, Hworld. subst linked w1.
  apply IH. intros agent' agentPath' Hin. apply Hnone. by right.
Qed.

Lemma linked_among_filter (skillName : string) (allAgents : list string) (w : world) :
  Forall (fun agent => agent ∈ getAllAgentTypes) allAgents ->
  forall linkedAgents,
    linked_among homedir skillName allAgents linkedAgents w
    = (Ok (linkedAgents ++ filter (fun agent => has_link homedir skillName w agent) allAgents),
       w).
Proof.
  induction 1 as [|agent rest Hagent _ IH]; intros linkedAgents.
  { cbn. by rewrite app_nil_r. }
  cbn [linked_among].
  apply getAgentGlobalPath_known in Hagent as [agentPath Hpath]. rewrite Hpath.
  unfold and_then. rewrite isSymlink_answer.
  assert (has_link homedir skillName w agent
          = bool_decide (is_Some (follow SYMLOOP_MAX (files w)
                                    (Path.join agentPath skillName)))
            && match files w !! Path.join agentPath skillName with
               | Some e => is_symlink e
               | None => false
               end) as Hlink by (unfold has_link; by rewrite Hpath).
  rewrite <- Hlink, filter_cons.
  destruct (has_link homedir skillName w agent).
  - rewrite IH, decide_True by done. by rewrite <- app_assoc.
  - rewrite IH, decide_False by (by intros []). done.
Qed.

Lemma all_agents_known : Forall (fun agent => agent ∈ getAllAgentTypes) getAllAgentTypes.
Proof. by apply Forall_forall. Qed.

(** X20: [removeSymlinksForSkill] never throws when the agents are agents of
    the table, takes away nothing but links, adds nothing, and leaves every
    file and directory as it was. *)
Theorem removeSymlinksForSkill_removes_links_only (skillName : string)
    (agents : option (list string)) (w : world) :
  let result := removeSymlinksForSkill homedir skillName agents w in
  (Forall (fun agent => agent ∈ getAllAgentTypes) (default [] agents) ->
   result.1 = Ok tt /\
   files result.2 ⊆ files w /\
   (forall path e, files w !! path = Some e -> is_symlink e = false ->
      files result.2 !! path = Some e)) /\
  removeSymlinksForSkill homedir skillName (Some []) w
  = removeSymlinksForSkill homedir skillName None w.
Proof.
  intros result. split; [|done]. intros Hknown. subst result. unfold removeSymlinksForSkill.
  assert (Forall (fun agent => agent ∈ getAllAgentTypes)
            match agents with Some (a :: l) => a :: l | _ => getAllAgentTypes end) as Htargets.
  { destruct agents as [[|a l]|]; [apply all_agents_known|done|apply all_agents_known]. }
  destruct (remove_each_effect skillName _ Htargets w) as (w' & -> & Hsub & _ & Hreal & _).
  done.
Qed.

(** X21: [removeSymlinksForSkill] for all agents never throws, and
    afterwards [getLinkedAgents] lists no agent but those whose link, which
    was there and led somewhere, the system refused to remove; where the
    system refuses no removal, [getLinkedAgents] finds the skill linked to
    no agent. *)
Theorem removeSymlinksForSkill_then_getLinkedAgents (skillName : string) (w : world) :
  let removed := removeSymlinksForSkill homedir skillName None w in
  removed.1 = Ok tt /\
  exists linkedAgents,
    getLinkedAgents homedir skillName removed.2 = (Ok linkedAgents, removed.2) /\
    (forall agent, agent ∈ linkedAgents ->
       has_link homedir skillName w agent = true /\
       exists agentPath, getAgentGlobalPath homedir agent = Ok agentPath /\
         Path.join agentPath skillName ∈ denied w) /\
    ((forall agent agentPath, getAgentGlobalPath homedir agent = Ok agentPath ->
        Path.join agentPath skillName ∉ denied w) ->
     linkedAgents = []).
Proof.
  intros removed. subst removed. unfold removeSymlinksForSkill, getLinkedAgents.
  destruct (remove_each_effect skillName _ all_agents_known w)
    as (w' & -> & _ & _ & _ & Hleft).
  split; [done|]. cbn [snd].
  rewrite (linked_among_filter skillName _ w' all_agents_known). cbn [app].
  eexists. split; [reflexivity|].
  assert (forall agent,
            agent ∈ filter (fun agent => has_link homedir skillName w' agent) getAllAgentTypes ->
            has_link homedir skillName w agent = true /\
            exists agentPath, getAgentGlobalPath homedir agent = Ok agentPath /\
              Path.join agentPath skillName ∈ denied w) as Hlisted.
  { intros agent [Hlink Hagent]%list_elem_of_filter.
    pose proof Hagent as [agentPath Hpath]%getAgentGlobalPath_known.
    assert (forall v, (isSymlink (Path.join agentPath skillName) v).1
                      = Ok (has_link homedir skillName v agent)) as Hsame.
    { intros v. rewrite isSymlink_answer. unfold has_link. by rewrite Hpath. }
    destruct (Hleft agent agentPath Hagent Hpath) as [Hgone|[Hdenied Hkept]].
    - rewrite Hsame in Hgone. injection Hgone as Hgone. by rewrite Hgone in Hlink.
    - rewrite Hsame in Hkept. injection Hkept as Hkept. split; [done|]. by exists agentPath. }
  split; [exact Hlisted|].
  intros Hnone.
  destruct (filter _ getAllAgentTypes) as [|agent rest] eqn:Hfilter; [done|].
  destruct (Hlisted agent ltac:(by left)) as (_ & agentPath & Hpath & Hdenied).
  by destruct (Hnone agent agentPath Hpath).
Qed.

(** The link of an agent that the system refuses to remove: the error is
    caught, a warning is written, and the agent is still listed. *)
Lemma removeSymlinksForSkill_refused :
  let linked := example_world (Some (Symlink "/tmp/s/skill")) in
  let w := {| files := files linked; denied := {["/home/u/.claude/skills/skill"]};
              warnings := [] |} in
  let removed := removeSymlinksForSkill "/home/u" "skill" None w in
  removed.1 = Ok tt /\
  files removed.2 = files w /\
  warnings removed.2
  = ["Warning: Failed to remove symlink at /home/u/.claude/skills/skill:"] /\
  (getLinkedAgents "/home/u" "skill" removed.2).1 = Ok ["claude-code"].
Proof. vm_compute. repeat split. Qed.

(** X22: [validateAgentType] accepts exactly the agents that have a skills
    directory in the table; for any other agent it throws a validation
    error, and [getAgentGlobalPath] fails on it. *)
Theorem validateAgentType_known_agents (agent : string) :
  (validateAgentType agent = Ok true <-> agent ∈ getAllAgentTypes) /\
  (validateAgentType agent = Ok true <->
   exists path, getAgentGlobalPath homedir agent = Ok path) /\
  (agent ∉ getAllAgentTypes ->
   exists message context,
     validateAgentType agent
     = Throw (ThrowError (SkillManagerError message VALIDATION_ERROR context None))).
Proof.
  assert (validateAgentType agent = Ok true <-> agent ∈ getAllAgentTypes) as Hvalid.
  { unfold validateAgentType. cbn zeta. case_bool_decide; cbn; split; done. }
  split; [done|]. split; [by rewrite Hvalid, getAgentGlobalPath_known|].
  intros Hout. unfold validateAgentType. cbn zeta.
  rewrite bool_decide_eq_false_2 by done. cbn. by eexists _, _.
Qed.

(** The directories [createSymlink] accepts a target in are those of the
    agents of the table, and there is no failing to find them. *)
Lemma getAllAgentGlobalPaths_all :
  exists allAgentPaths, getAllAgentGlobalPaths homedir None = Ok allAgentPaths /\
    forall agentPath, agentPath ∈ allAgentPaths <->
      exists agent, getAgentGlobalPath homedir agent = Ok agentPath.
Proof.
  unfold getAllAgentGlobalPaths.
  destruct (HomeFacts.mapM_outcome_all (getAgentGlobalPath homedir) getAllAgentTypes)
    as (paths & Hpaths & Hrel).
  { intros agent Hagent. by apply getAgentGlobalPath_known. }
  exists paths. split; [done|]. intros agentPath. split.
  - intros [i Hi]%list_elem_of_lookup.
    destruct (Forall2_lookup_r _ _ _ _ _ Hrel Hi) as (agent & _ & Hagent). by exists agent.
  - intros [agent Hpath].
    assert (agent ∈ getAllAgentTypes) as [i Hi]%list_elem_of_lookup
      by (apply getAgentGlobalPath_known; by exists agentPath).
    destruct (Forall2_lookup_l _ _ _ _ _ Hrel Hi) as (p & Hp & Hfp).
    rewrite Hpath in Hfp. injection Hfp as <-. by apply list_elem_of_lookup_2 in Hp.
Qed.

(** X23: [createSymlink] refuses, and changes nothing, when the source does
    not exist and when the target lies in the skills directory of no agent;
    in both cases what is thrown is a filesystem error around the cause: the
    missing source, which is looked at first, or else a validation error for
    the target. *)
Theorem createSymlink_refuses (source target skillName : string) (w : world) :
  let result := createSymlink homedir cwd source target skillName w in
  (follow SYMLOOP_MAX (files w) source = None ->
   exists message context,
     result = (Throw (ThrowError (SkillManagerError message FILE_SYSTEM_ERROR context
                 (Some (PlainError ("Source path does not exist: " +:+ source))))), w)) /\
  ((forall agent agentPath, getAgentGlobalPath homedir agent = Ok agentPath ->
      exists t, Utils.validatePathWithinBase cwd agentPath target None = Throw t) ->
   is_Some (follow SYMLOOP_MAX (files w) source) ->
   exists message context cause,
     result = (Throw (ThrowError (SkillManagerError message FILE_SYSTEM_ERROR context
                 (Some cause))), w) /\
     error_code cause = Some VALIDATION_ERROR /\
     error_message cause = "Target path is not within any valid agent directory").
Proof.
  intros result. subst result.
  destruct getAllAgentGlobalPaths_all as (allAgentPaths & Hpaths & Hall).
  unfold createSymlink, rethrow, and_then, pathExists, throw. rewrite Hpaths.
  generalize SYMLOOP_MAX. intros hops. split.
  - intros ->. cbn. by eexists _, _.
  - intros Hnone Hsource.
    assert (existsb (fun agentPath =>
                       match Utils.validatePathWithinBase cwd agentPath target None with
                       | Ok _ => true
                       | Throw _ => false
                       end) allAgentPaths = false) as ->.
    { apply not_true_is_false. intros (agentPath & Hin & Hok)%existsb_exists.
      apply list_elem_of_In, Hall in Hin as [agent Hagent].
      destruct (Hnone agent agentPath Hagent) as [t Ht]. by rewrite Ht in Hok. }
    rewrite bool_decide_eq_true_2 by done. cbn. by eexists _, _, _.
Qed.


(** X25: [getLinkedAgents] never throws and changes nothing; it returns, in
    the order of the table, exactly the agents at whose place for the skill
    ([path.join] of the agent's directory and the name) there is a link that
    leads somewhere. A link that leads nowhere does not count. *)
Theorem getLinkedAgents_lists_links (skillName : string) (w : world) :
  getLinkedAgents homedir skillName w
  = (Ok (filter (fun agent => has_link homedir skillName w agent) getAllAgentTypes), w) /\
  (forall agent agentPath destination,
     getAgentGlobalPath homedir agent = Ok agentPath ->
     files w !! Path.join agentPath skillName = Some (Symlink destination) ->
     follow SYMLOOP_MAX (files w) (Path.join agentPath skillName) = None ->
     has_link homedir skillName w agent = false).
Proof.
  split.
  - unfold getLinkedAgents. by rewrite (linked_among_filter _ _ _ all_agents_known).
  - intros agent agentPath destination Hpath Hlink Hnowhere. unfold has_link.
    rewrite Hpath. cbn zeta. rewrite Hnowhere. apply andb_false_iff. left.
    apply bool_decide_eq_false. by intros [? ?].
Qed.

End Links.

(** A link made from a relative source leads nowhere: the system takes the
    destination from the directory of the link, where nothing is found, so
    that [isSymlink] does not see the link and the agent is not listed. *)
Lemma createSymlink_relative_source :
  let w := {| files := <["skills/skill" := Folder]> (files (example_world None));
              denied := ∅; warnings := [] |} in
  let result := createSymlink "/home/u" "/home/u" "skills/skill"
                  "/home/u/.claude/skills/skill" "skill" w in
  result.1 = Ok tt /\
  files result.2 !! "/home/u/.claude/skills/skill" = Some (Symlink "skills/skill") /\
  (isSymlink "/home/u/.claude/skills/skill" result.2).1 = Ok false /\
  (getLinkedAgents "/home/u" "skill" result.2).1 = Ok [].
Proof. vm_compute. repeat split. Qed.

End AgentManagerFacts.

(** ** commands/list.ts: the table of skills *)

Module ListFacts.
Import ListCommand PathFacts.

Lemma length_string_app (s t : string) :
  String.length (s +:+ t) = (String.length s + String.length t)%nat.
Proof. induction s as [|c s IH]; [done|]. rewrite string_app_cons. cbn. by rewrite IH. Qed.

Lemma length_repeat_string (s : string) (count : nat) :
  String.length (repeat_string s count) = (count * String.length s)%nat.
Proof.
  induction count as [|count IH]; [done|]. cbn [repeat_string].
  rewrite length_string_app, IH. lia.
Qed.

(** [padRight] never cuts: the string comes first, and the result is as
    long as the longer of the string and the width. *)
Lemma padRight_length (str : string) (width : Z) :
  String.prefix str (padRight str width) = true /\
  Z.of_nat (String.length (padRight str width)) = Z.max (Z.of_nat (String.length str)) width.
Proof.
  unfold padRight. split; [apply prefix_spec; by eexists|].
  rewrite length_string_app, length_repeat_string. cbn [String.length]. lia.
Qed.

Lemma max_of_bounds (least : Z) (values : list Z) :
  least <= max_of least values /\ Forall (fun v => v <= max_of least values) values.
Proof.
  unfold max_of. induction values as [|v values [IHl IHv]]; cbn [foldr].
  - split; [lia|constructor].
  - split; [lia|]. constructor; [lia|].
    eapply Forall_impl; [exact IHv|]. cbn. intros; lia.
Qed.

(** A cell of a column is exactly as wide as the column when the column is
    at least as wide as what the cell holds. *)
Lemma padRight_fits (str : string) (width : Z) :
  Z.of_nat (String.length str) <= width ->
  String.prefix str (padRight str width) = true /\
  Z.of_nat (String.length (padRight str width)) = width.
Proof. intros Hfits. destruct (padRight_length str width) as [Hp Hl]. split; [done|lia]. Qed.

(** X26: The table of [displayBasic] is aligned: after the heading and the
    rule there is one row per skill, in order; no name and no type is cut;
    and in the heading and in every row the first cell is exactly
    [nameWidth] characters long and the second exactly [typeWidth], the
    widths being those of the longest name and type, and at least 15 and 10.
    So on a terminal without colours the agents of every row start at the
    same place, under the heading. *)
Theorem displayBasic_columns_aligned (chalk : styles) (skills : list SkillInfo) :
  let lines := displayBasic chalk skills in
  15 <= nameWidth skills /\ 10 <= typeWidth skills /\
  length lines = (2 + length skills)%nat /\
  (exists nameCell typeCell,
     lines !! 0%nat
     = Some (gray chalk (nameCell +:+ "  " +:+ typeCell +:+ "  " +:+ "AGENTS")) /\
     Z.of_nat (String.length nameCell) = nameWidth skills /\
     Z.of_nat (String.length typeCell) = typeWidth skills) /\
  (forall (i : nat) skill, skills !! i = Some skill ->
     exists nameCell typeCell agentList,
       lines !! (2 + i)%nat
       = Some (cyan chalk nameCell +:+ "  " +:+ typeCell +:+ "  " +:+ agentList) /\
       String.prefix (name skill) nameCell = true /\
       Z.of_nat (String.length nameCell) = nameWidth skills /\
       String.prefix (type skill) typeCell = true /\
       Z.of_nat (String.length typeCell) = typeWidth skills) /\
  (forall (i : nat) skill, skills !! i = Some skill ->
     exists agentList,
       displayBasic plain skills !! (2 + i)%nat
       = Some (padRight (name skill) (nameWidth skills) +:+ "  " +:+
               padRight (type skill) (typeWidth skills) +:+ "  " +:+ agentList) /\
       Z.of_nat (String.length (padRight (name skill) (nameWidth skills) +:+ "  " +:+
                                padRight (type skill) (typeWidth skills) +:+ "  "))
       = nameWidth skills + typeWidth skills + 4).
Proof.
  intros lines. subst lines.
  destruct (max_of_bounds 15 ((fun s => Z.of_nat (String.length (name s))) <$> skills))
    as [Hn15 Hnames].
  destruct (max_of_bounds 10 ((fun s => Z.of_nat (String.length (type s))) <$> skills))
    as [Ht10 Htypes].
  fold (nameWidth skills) in Hn15, Hnames. fold (typeWidth skills) in Ht10, Htypes.
  assert (forall (i : nat) skill, skills !! i = Some skill ->
            Z.of_nat (String.length (name skill)) <= nameWidth skills /\
            Z.of_nat (String.length (type skill)) <= typeWidth skills) as Hfits.
  { intros i skill Hi. split.
    - apply (Forall_lookup_1 _ _ i _ Hnames). by rewrite list_lookup_fmap, Hi.
    - apply (Forall_lookup_1 _ _ i _ Htypes). by rewrite list_lookup_fmap, Hi. }
  split; [done|]. split; [done|]. unfold displayBasic. cbn zeta.
  split; [by rewrite length_app, length_fmap|]. split; [|split].
  - eexists _, _. split; [reflexivity|].
    split; apply padRight_fits; cbn [String.length]; lia.
  - intros i skill Hi. destruct (Hfits i skill Hi) as [Hname Htype].
    rewrite lookup_app_r by (cbn [length]; lia). cbn [length].
    replace (2 + i - 2)%nat with i by lia. rewrite list_lookup_fmap, Hi.
    cbn [fmap option_fmap option_map].
    eexists _, _, _. split; [reflexivity|].
    destruct (padRight_fits (name skill) (nameWidth skills) Hname) as [? ?].
    destruct (padRight_fits (type skill) (typeWidth skills) Htype) as [? ?].
    done.
  - intros i skill Hi. destruct (Hfits i skill Hi) as [Hname Htype].
    rewrite lookup_app_r by (cbn [length]; lia). cbn [length].
    replace (2 + i - 2)%nat with i by lia. rewrite list_lookup_fmap, Hi.
    cbn [fmap option_fmap option_map].
    eexists. split; [reflexivity|].
    destruct (padRight_fits (name skill) (nameWidth skills) Hname) as [_ Hnl].
    destruct (padRight_fits (type skill) (typeWidth skills) Htype) as [_ Htl].
    rewrite !length_string_app. cbn [String.length]. lia.
Qed.

End ListFacts.
